(** * Sliding-window 2D convolution: the NumPy notebooks, embedded and verified

    The development follows the two notebooks of the repository:
    [filter_image], [filter_images_v1] (per-image loop), [filter_images_v2]
    (vectorised over the batch axis), [filter_images_v3] (fully scalarised
    loop nest) and the JAX layer [Conv2D.__call__].

    Array elements are exact integers ([Z]); floating-point rounding is outside
    the model.  An [ndarray] is a shape together with a C-contiguous (row-major)
    buffer, as NumPy stores it.  Python exceptions are values of [exn] carried
    by the [result] monad.

    The notebook functions are embedded twice: on array values, where the
    local [y] is threaded through the loops, and, in module [Store], on array
    objects of a heap, where a slice is a view of its source's buffer and
    [y[...] = v] and [y += b] write in place.  The second embedding is proved
    to do what the first does and to leave its arguments alone. *)

From Stdlib Require Import ZArith List Lia Bool.
From stdpp Require Import base tactics option list list_numbers strings gmap.

Local Open Scope Z_scope.

(** * Part I: the model *)

(** ** Python exceptions and the error monad *)

Inductive exn : Set :=
  | ValueError | IndexError | ZeroDivisionError | TypeError | NameError | AxisError.

Inductive result (A : Type) : Type :=
  | Ok (a : A)
  | Raise (e : exn).
Arguments Ok {A} a.
Arguments Raise {A} e.

#[global] Instance result_ret : MRet result := @Ok.
#[global] Instance result_bind : MBind result := λ A B f m,
  match m with Ok a => f a | Raise e => Raise e end.
#[global] Instance result_fmap : FMap result := λ A B f m,
  match m with Ok a => Ok (f a) | Raise e => Raise e end.

(** A [for] loop threading a state through a body that may raise. *)
Fixpoint foldM {A S : Type} (body : S → A → result S) (l : list A) (s : S) : result S :=
  match l with
  | [] => Ok s
  | x :: l' => s' ← body s x; foldM body l' s'
  end.

(** A list comprehension whose element expression may raise. *)
Fixpoint mapM {A B : Type} (f : A → result B) (l : list A) : result (list B) :=
  match l with
  | [] => Ok []
  | x :: l' => y ← f x; ys ← mapM f l'; Ok (y :: ys)
  end.

(** ** Python integers: floor division, [range], [enumerate] *)

Definition floordiv (a b : Z) : result Z :=
  if b =? 0 then Raise ZeroDivisionError else Ok (a / b).

(** Length of [range(lo, hi, step)] as CPython computes it up front. *)
Definition range_length (lo hi step : Z) : Z :=
  if 0 <? step then (if lo <? hi then (hi - lo - 1) / step + 1 else 0)
  else (if hi <? lo then (lo - hi - 1) / (- step) + 1 else 0).

Definition py_range (lo hi step : Z) : result (list Z) :=
  if step =? 0 then Raise ValueError
  else Ok ((λ k, lo + k * step) <$> seqZ 0 (range_length lo hi step)).

Definition enumerate {A} (l : list A) : list (Z * A) :=
  zip (seqZ 0 (Z.of_nat (length l))) l.

(** ** N-dimensional arrays *)

Record ndarray : Set := NdArray { shape : list Z; data : list Z }.

(** Number of elements of an array of the given shape. *)
Definition size (s : list Z) : Z := foldr Z.mul 1 s.

(** Row-major offset of a multi-index. *)
Fixpoint ravel (s idx : list Z) : Z :=
  match s, idx with
  | _ :: s', i :: idx' => i * size s' + ravel s' idx'
  | _, _ => 0
  end.

(** All multi-indices of a shape in row-major order ([np.ndindex]). *)
Fixpoint indices (s : list Z) : list (list Z) :=
  match s with
  | [] => [[]]
  | d :: s' => i ← seqZ 0 d; cons i <$> indices s'
  end.

Definition in_bounds (s idx : list Z) : Prop := Forall2 (λ d i, 0 ≤ i < d) s idx.

(** The element stored at a multi-index (unchecked read of the buffer). *)
Definition item (a : ndarray) (idx : list Z) : Z :=
  nth (Z.to_nat (ravel (shape a) idx)) (data a) 0.

(** The array of shape [s] whose element at [idx] is [f idx]. *)
Definition build (s : list Z) (f : list Z → Z) : ndarray :=
  NdArray s (f <$> indices s).

(** The invariant of every NumPy array: non-negative extents and a buffer of
    exactly [size shape] elements. *)
Definition wf (a : ndarray) : Prop :=
  Forall (λ d, 0 ≤ d) (shape a) ∧ Z.of_nat (length (data a)) = size (shape a).

(** ** NumPy operations used by the notebooks *)

(** Unchecked write of one buffer cell. *)
Definition write (a : ndarray) (idx : list Z) (v : Z) : ndarray :=
  NdArray (shape a) (<[Z.to_nat (ravel (shape a) idx) := v]> (data a)).

(** [np.zeros(shape)]: a negative extent is refused. *)
Definition np_zeros (s : list Z) : result ndarray :=
  if forallb (λ d, 0 <=? d) s
  then Ok (NdArray s (replicate (Z.to_nat (size s)) 0))
  else Raise ValueError.

(** An integer index along an axis of extent [d]: negative indices count from
    the end, anything outside [-d, d) raises [IndexError]. *)
Definition check_axis (d i : Z) : result Z :=
  if (0 <=? i) && (i <? d) then Ok i
  else if (- d <=? i) && (i <? 0) then Ok (i + d)
  else Raise IndexError.

(** A full integer index [a[i0, ..., ik]]; the rank of every array indexed this
    way in the notebooks is fixed by a preceding shape unpacking, so a rank
    mismatch is modelled as [IndexError]. *)
Fixpoint check_index (s idx : list Z) : result (list Z) :=
  match s, idx with
  | [], [] => Ok []
  | d :: s', i :: idx' =>
      i' ← check_axis d i; r ← check_index s' idx'; Ok (i' :: r)
  | _, _ => Raise IndexError
  end.

Definition getitem (a : ndarray) (idx : list Z) : result Z :=
  idx' ← check_index (shape a) idx; Ok (item a idx').

Definition setitem (a : ndarray) (idx : list Z) (v : Z) : result ndarray :=
  idx' ← check_index (shape a) idx; Ok (write a idx' v).

(** Basic slicing.  One subscript per axis: [:], [lo:hi] or an integer. *)
Inductive slice_spec : Set :=
  | SFull
  | SRange (start stop : Z)
  | SIndex (i : Z).

(** A subscript resolved against an axis: a kept window or a picked position. *)
Inductive axis_sel : Set :=
  | Keep (start len : Z)
  | Pick (i : Z).

(** Python's adjustment of a slice bound to an axis of extent [len]. *)
Definition clip (len i : Z) : Z :=
  if i <? 0 then Z.max (i + len) 0 else Z.min i len.

Definition resolve_spec (d : Z) (sp : slice_spec) : result axis_sel :=
  match sp with
  | SFull => Ok (Keep 0 d)
  | SRange lo hi => Ok (Keep (clip d lo) (Z.max (clip d hi - clip d lo) 0))
  | SIndex i => Pick <$> check_axis d i
  end.

(** Missing trailing subscripts are full slices; too many raise [IndexError]. *)
Fixpoint resolve (s : list Z) (sps : list slice_spec) : result (list axis_sel) :=
  match s, sps with
  | [], [] => Ok []
  | d :: s', sp :: sps' => a ← resolve_spec d sp; r ← resolve s' sps'; Ok (a :: r)
  | d :: s', [] => r ← resolve s' []; Ok (Keep 0 d :: r)
  | [], _ :: _ => Raise IndexError
  end.

Fixpoint sel_shape (sels : list axis_sel) : list Z :=
  match sels with
  | [] => []
  | Keep _ n :: r => n :: sel_shape r
  | Pick _ :: r => sel_shape r
  end.

(** Source index of the element at [idx] of the selection. *)
Fixpoint sel_index (sels : list axis_sel) (idx : list Z) : list Z :=
  match sels with
  | [] => []
  | Keep lo _ :: r =>
      match idx with
      | i :: idx' => (lo + i) :: sel_index r idx'
      | [] => []
      end
  | Pick i :: r => i :: sel_index r idx
  end.

(** [a[subscripts]] read.  NumPy returns a view; the notebooks never write to
    an array while a view of it is alive, so here the view is modelled by its
    contents.  Module [Store] below models the view itself. *)
Definition getslice (a : ndarray) (sps : list slice_spec) : result ndarray :=
  sels ← resolve (shape a) sps;
  Ok (build (sel_shape sels) (λ idx, item a (sel_index sels idx))).

(** Broadcasting: shapes are aligned on the right; two extents are compatible
    when they are equal or one of them is 1. *)
Definition bc_dim (a b : Z) : result Z :=
  if a =? b then Ok a
  else if a =? 1 then Ok b
  else if b =? 1 then Ok a
  else Raise ValueError.

Fixpoint bc_rev (r1 r2 : list Z) : result (list Z) :=
  match r1, r2 with
  | [], r => Ok r
  | r, [] => Ok r
  | a :: r1', b :: r2' => d ← bc_dim a b; r ← bc_rev r1' r2'; Ok (d :: r)
  end.

Definition broadcast_shapes (s1 s2 : list Z) : result (list Z) :=
  reverse <$> bc_rev (reverse s1) (reverse s2).

(** Along an axis of extent 1 the single element is repeated. *)
Definition bc_axis (d i : Z) : Z := if d =? 1 then 0 else i.

Fixpoint bc_pick (s idx : list Z) : list Z :=
  match s, idx with
  | d :: s', i :: idx' => bc_axis d i :: bc_pick s' idx'
  | _, _ => []
  end.

(** Index of the operand element that feeds element [idx] of the result. *)
Definition bc_index (s idx : list Z) : list Z :=
  bc_pick s (drop (length idx - length s)%nat idx).

Definition broadcast_op (f : Z → Z → Z) (a b : ndarray) : result ndarray :=
  s ← broadcast_shapes (shape a) (shape b);
  Ok (build s (λ idx, f (item a (bc_index (shape a) idx))
                        (item b (bc_index (shape b) idx)))).

(** [a * b] and [a + b], each a fresh array. *)
Definition np_multiply : ndarray → ndarray → result ndarray := broadcast_op Z.mul.
Definition np_add : ndarray → ndarray → result ndarray := broadcast_op Z.add.

(** [a += b]: the broadcast result has to fit the left operand. *)
Definition np_iadd (a b : ndarray) : result ndarray :=
  s ← broadcast_shapes (shape a) (shape b);
  if bool_decide (s = shape a) then np_add a b else Raise ValueError.

Definition py_sum (l : list Z) : Z := foldr Z.add 0 l.

(** [np.sum(a)] over all elements. *)
Definition np_sum (a : ndarray) : Z := py_sum (data a).

(** [np.sum(a, axis=(1,2,3))]. *)
Definition np_sum_axes123 (a : ndarray) : result ndarray :=
  match shape a with
  | [b; h; w; c] =>
      Ok (build [b] (λ idx, py_sum ((λ r, item a (idx ++ r)) <$> indices [h; w; c])))
  | _ => Raise AxisError
  end.

(** [a[subscripts] = v]: [v] is broadcast to the selected window. *)
Definition setslice (a : ndarray) (sps : list slice_spec) (v : ndarray) : result ndarray :=
  sels ← resolve (shape a) sps;
  s ← broadcast_shapes (sel_shape sels) (shape v);
  if bool_decide (s = sel_shape sels)
  then Ok (foldl (λ acc idx, write acc (sel_index sels idx) (item v (bc_index (shape v) idx)))
                 a (indices (sel_shape sels)))
  else Raise ValueError.

(** [for x in a]: the sub-arrays along the first axis. *)
Definition iterate (a : ndarray) : result (list ndarray) :=
  match shape a with
  | [] => Raise TypeError
  | d :: _ => mapM (λ n, getslice a [SIndex n]) (seqZ 0 d)
  end.

(** [np.array(list_of_arrays)]: stacks arrays of one shape along a new first
    axis; the empty list gives the empty 1-d array.  (NumPy refuses ragged
    input with [ValueError].) *)
Definition np_array (l : list ndarray) : result ndarray :=
  match l with
  | [] => Ok (NdArray [0] [])
  | a :: _ =>
      if forallb (λ b, bool_decide (shape b = shape a)) l
      then Ok (NdArray (Z.of_nat (length l) :: shape a) (mjoin (data <$> l)))
      else Raise ValueError
  end.

Definition unpack3 (s : list Z) : result (Z * Z * Z) :=
  match s with
  | [a; b; c] => Ok (a, b, c)
  | _ => Raise ValueError
  end.

Definition unpack4 (s : list Z) : result (Z * Z * Z * Z) :=
  match s with
  | [a; b; c; d] => Ok (a, b, c, d)
  | _ => Raise ValueError
  end.

(** ** The notebook functions *)

(** [filter_image(image, filters, strides)] *)
Definition filter_image (image filters : ndarray) (strides : Z * Z) : result ndarray :=
  '(xm, xn, _) ← unpack3 (shape image);
  '(km, kn, ni, no) ← unpack4 (shape filters);
  let '(sm, sn) := strides in
  qm ← floordiv (xm - km) sm;
  qn ← floordiv (xn - kn) sn;
  let ym := 1 + qm in
  let yn := 1 + qn in
  y ← np_zeros [ym; yn; no];
  rows ← py_range 0 (xm - km + 1) sm;
  foldM (λ y '(iy, ix),
    cols ← py_range 0 (xn - kn + 1) sn;
    foldM (λ y '(jy, jx),
      chunk ← getslice image [SRange ix (ix + km); SRange jx (jx + kn); SFull];
      chans ← py_range 0 no 1;
      foldM (λ y channel,
        f ← getslice filters [SFull; SFull; SFull; SIndex channel];
        p ← np_multiply f chunk;
        setitem y [iy; jy; channel] (np_sum p))
        chans y)
      (enumerate cols) y)
    (enumerate rows) y.

(** [filter_images_v1(batch, filters, biases, strides)] *)
Definition filter_images_v1 (batch filters biases : ndarray) (strides : Z * Z)
  : result ndarray :=
  images ← iterate batch;
  outputs ← mapM (λ image, filter_image image filters strides) images;
  outputs ← np_array outputs;
  np_add outputs biases.

(** [filter_images_v2(images, filters, biases, strides)] *)
Definition filter_images_v2 (images filters biases : ndarray) (strides : Z * Z)
  : result ndarray :=
  '(batch_size, xm, xn, _) ← unpack4 (shape images);
  '(km, kn, _, num_filters) ← unpack4 (shape filters);
  let '(sm, sn) := strides in
  qm ← floordiv (xm - km) sm;
  qn ← floordiv (xn - kn) sn;
  let ym := 1 + qm in
  let yn := 1 + qn in
  y ← np_zeros [batch_size; ym; yn; num_filters];
  rows ← py_range 0 (xm - km + 1) sm;
  y ← foldM (λ y '(iy, ix),
    cols ← py_range 0 (xn - kn + 1) sn;
    foldM (λ y '(jy, jx),
      chunk ← getslice images [SFull; SRange ix (ix + km); SRange jx (jx + kn); SFull];
      chans ← py_range 0 num_filters 1;
      foldM (λ y channel,
        f ← getslice filters [SFull; SFull; SFull; SIndex channel];
        p ← np_multiply f chunk;
        v ← np_sum_axes123 p;
        setslice y [SFull; SIndex iy; SIndex jy; SIndex channel] v)
        chans y)
      (enumerate cols) y)
    (enumerate rows) y;
  np_iadd y biases.

(** [filter_images_v3(images, filters, biases, strides)] *)
Definition filter_images_v3 (images filters biases : ndarray) (strides : Z * Z)
  : result ndarray :=
  '(batch_size, xm, xn, _) ← unpack4 (shape images);
  '(km, kn, num_input_channels, num_filters) ← unpack4 (shape filters);
  let '(sm, sn) := strides in
  qm ← floordiv (xm - km) sm;
  qn ← floordiv (xn - kn) sn;
  let ym := 1 + qm in
  let yn := 1 + qn in
  y ← np_zeros [batch_size; ym; yn; num_filters];
  rows ← py_range 0 (xm - km + 1) sm;
  y ← foldM (λ y '(iy, ix),
    cols ← py_range 0 (xn - kn + 1) sn;
    foldM (λ y '(jy, jx),
      chunk ← getslice images [SFull; SRange ix (ix + km); SRange jx (jx + kn); SFull];
      ochans ← py_range 0 num_filters 1;
      foldM (λ y output_chan,
        items ← py_range 0 batch_size 1;
        foldM (λ y item,
          hs ← py_range 0 km 1;
          tmp ← foldM (λ tmp h,
            ws ← py_range 0 kn 1;
            foldM (λ tmp w,
              ichans ← py_range 0 num_input_channels 1;
              foldM (λ tmp input_chan,
                c ← getitem chunk [item; h; w; input_chan];
                f ← getitem filters [h; w; input_chan; output_chan];
                Ok (tmp + c * f))
                ichans tmp)
              ws tmp)
            hs 0;
          setitem y [item; iy; jy; output_chan] tmp)
          items y)
        ochans y)
      (enumerate cols) y)
    (enumerate rows) y;
  np_iadd y biases.

(** ** The layers notebook: [filter_image_batch] *)

(** [filter_image_batch(batch, filters, biases, strides)] *)
Definition filter_image_batch (batch filters biases : ndarray) (strides : Z * Z)
  : result ndarray :=
  images ← iterate batch;
  outputs ← mapM (λ image, filter_image image filters strides) images;
  outputs ← np_array outputs;
  np_add outputs biases.

(** Sum of [f 0 + ... + f (n-1)]. *)
Definition sumZ (n : Z) (f : Z → Z) : Z := py_sum (f <$> seqZ 0 n).

(** ** Specification vocabulary

    [fills F R y y']: [y'] has the frame of [y], holds [F idx] at every index
    of the region [R], and elsewhere either still holds what [y] held or
    already holds [F idx]. *)

Definition fills (F : list Z → Z) (R : list Z → Prop) (y y' : ndarray) : Prop :=
  shape y' = shape y ∧ length (data y') = length (data y) ∧
  ∀ idx, in_bounds (shape y) idx →
    (R idx → item y' idx = F idx) ∧ (item y' idx = F idx ∨ item y' idx = item y idx).

(** Sum over the [km × kn × cb] window anchored at [(ix, jx)] of the image
    selected by the index prefix [pre] (empty for a single image, [[n]] for
    item [n] of a batch); the channel axes of both operands are broadcast. *)
Definition window (images filters : ndarray) (pre : list Z)
    (km kn cb ni ci ix jx ch : Z) : Z :=
  sumZ km (λ h, sumZ kn (λ w, sumZ cb (λ c,
    item filters [h; w; bc_axis ni c; ch] *
    item images (pre ++ [ix + h; jx + w; bc_axis ci c])))).

(** [filters[:,:,:,ch]] *)
Definition filter_slice (filters : ndarray) (km kn ni ch : Z) : ndarray :=
  build [km; kn; ni]
    (λ idx, item filters (sel_index [Keep 0 km; Keep 0 kn; Keep 0 ni; Pick ch] idx)).

(** [image[ix:ix+km, jx:jx+kn, :]] *)
Definition chunk3 (image : ndarray) (km kn ci ix jx : Z) : ndarray :=
  build [km; kn; ci]
    (λ idx, item image (sel_index [Keep ix km; Keep jx kn; Keep 0 ci] idx)).

(** [images[:, ix:ix+km, jx:jx+kn, :]] *)
Definition chunk4 (images : ndarray) (b km kn ci ix jx : Z) : ndarray :=
  build [b; km; kn; ci]
    (λ idx, item images (sel_index [Keep 0 b; Keep ix km; Keep jx kn; Keep 0 ci] idx)).

(** [filters[:,:,:,ch] * chunk] for a chunk of one image. *)
Definition product3 (image filters : ndarray) (km kn ni ci cb ix jx ch : Z) : ndarray :=
  build [km; kn; cb]
    (λ idx, item (filter_slice filters km kn ni ch) (bc_index [km; kn; ni] idx) *
            item (chunk3 image km kn ci ix jx) (bc_index [km; kn; ci] idx)).

(** [filters[:,:,:,ch] * chunk] for a chunk of the whole batch. *)
Definition product4 (images filters : ndarray) (b km kn ni ci cb ix jx ch : Z) : ndarray :=
  build [b; km; kn; cb]
    (λ idx, item (filter_slice filters km kn ni ch) (bc_index [km; kn; ni] idx) *
            item (chunk4 images b km kn ci ix jx) (bc_index [b; km; kn; ci] idx)).

(** [np.sum(filters[:,:,:,ch] * chunk, axis=(1,2,3))] *)
Definition sums4 (images filters : ndarray) (b km kn ni ci cb ix jx ch : Z) : ndarray :=
  build [b] (λ idx, py_sum ((λ r, item (product4 images filters b km kn ni ci cb ix jx ch)
                                        (idx ++ r)) <$> indices [km; kn; cb])).

(** The scalar accumulation of [filter_images_v3] for one output cell. *)
Definition scalar_window (images filters : ndarray) (km kn ni n ix jx ch : Z) : Z :=
  sumZ km (λ h, sumZ kn (λ w, sumZ ni (λ k,
    item images [n; ix + h; jx + w; k] * item filters [h; w; k; ch]))).

(** What [filter_image] stores at an index of its output. *)
Definition filter_image_value (image filters : ndarray) (ci km kn ni cb sm sn : Z)
    (idx : list Z) : Z :=
  match idx with
  | [i; j; c] => window image filters [] km kn cb ni ci (i * sm) (j * sn) c
  | _ => 0
  end.

(** What the loop nest of [filter_images_v2] stores at an index. *)
Definition batch_value (images filters : ndarray) (ci km kn ni cb sm sn : Z)
    (idx : list Z) : Z :=
  match idx with
  | [n; i; j; c] => window images filters [n] km kn cb ni ci (i * sm) (j * sn) c
  | _ => 0
  end.

(** What the loop nest of [filter_images_v3] stores at an index. *)
Definition scalar_value (images filters : ndarray) (km kn ni sm sn : Z)
    (idx : list Z) : Z :=
  match idx with
  | [n; i; j; c] => scalar_window images filters km kn ni n (i * sm) (j * sn) c
  | _ => 0
  end.

(** [batch[n]], the image a [for image in batch] loop yields at step [n]. *)
Definition image_at (batch : ndarray) (xm xn ci n : Z) : ndarray :=
  build [xm; xn; ci]
    (λ idx, item batch (sel_index [Pick n; Keep 0 xm; Keep 0 xn; Keep 0 ci] idx)).

(** ** The variants and their contract *)

Inductive variant : Set := V1 | V2 | V3.

Definition run (v : variant) : ndarray → ndarray → ndarray → Z * Z → result ndarray :=
  match v with
  | V1 => filter_images_v1
  | V2 => filter_images_v2
  | V3 => filter_images_v3
  end.

(** The contract, in the words of the specification:
    output[n,i,j,c] = bias[c] + Σ over dh in [0,kH), dw in [0,kW), ci in [0,Cin)
    of image[n, i·sH + dh, j·sW + dw, ci] · filter[dh, dw, ci, c]. *)
Definition contract (images filters biases : ndarray)
    (kH kW Cin sH sW n i j c : Z) : Z :=
  item biases [c] +
  sumZ kH (λ dh, sumZ kW (λ dw, sumZ Cin (λ ci,
    item images [n; i * sH + dh; j * sW + dw; ci] * item filters [dh; dw; ci; c]))).


(** Output extent along one axis: 1 + floor((x - k) / s). *)
Definition out_extent (x k s : Z) : Z := 1 + (x - k) / s.

(** A valid input: an image batch of shape (B, H, W, Cin), a filter bank of
    shape (kH, kW, Cin, Cout), a bias vector of length Cout, strides >= 1 and a
    filter window that fits the image. *)
Definition valid_input (images filters biases : ndarray) (strides : Z * Z)
    (B H W Cin kH kW Cout sH sW : Z) : Prop :=
  wf images ∧ wf filters ∧ wf biases ∧
  shape images = [B; H; W; Cin] ∧ shape filters = [kH; kW; Cin; Cout] ∧
  shape biases = [Cout] ∧ strides = (sH, sW) ∧
  1 ≤ sH ∧ 1 ≤ sW ∧ kH ≤ H ∧ kW ≤ W.

(** ** Name resolution: parameters and the notebook's global variables *)

(** A namespace of array-valued variables (function locals, module globals). *)
Definition load (locals globals : gmap string ndarray) (name : string) : result ndarray :=
  match locals !! name with
  | Some a => Ok a
  | None =>
      match globals !! name with
      | Some a => Ok a
      | None => Raise NameError
      end
  end.

(** A call of a variant from a notebook whose global namespace is [G]: the
    arguments are bound to the parameters, and the body reads its arrays by
    name. *)
Definition call_variant (G : gmap string ndarray) (v : variant)
    (images filters biases : ndarray) (strides : Z * Z) : result ndarray :=
  let first := match v with V1 => "batch" | _ => "images" end in
  let locals := <["biases" := biases]> (<["filters" := filters]> {[first := images]}) in
  images ← load locals G first;
  filters ← load locals G "filters";
  biases ← load locals G "biases";
  run v images filters biases strides.

(** ** The variants over a heap of array objects *)

(** NumPy arrays are objects: a basic slice is a view that shares its source's
    buffer, and [y[...] = v] and [y += b] write into the buffer of [y].  This
    module runs the notebook functions on such objects, so that what a call
    reads and writes beyond its arguments can be stated. *)

Module Store.

(** The heap holds the buffers; an address is a position in it. *)
Abbreviation heap := (list ndarray).

(** An array object: the buffer it reads and writes, its own shape, and the
    map from its indices to the buffer's indices (the identity for an array
    that owns its buffer, the selection for a view). *)
Record ref : Type := Ref { base : nat; rshape : list Z; rmap : list Z → list Z }.

(** A computation that reads and updates the heap and may raise. *)
Definition M (A : Type) : Type := heap → result (A * heap).

#[global] Instance M_ret : MRet M := λ A x h, Ok (x, h).
#[global] Instance M_bind : MBind M := λ A B k m h,
  match m h with
  | Ok (x, h') => k x h'
  | Raise e => Raise e
  end.

(** A computation that does not touch the heap. *)
Definition lift {A} (r : result A) : M A := λ h,
  match r with
  | Ok x => Ok (x, h)
  | Raise e => Raise e
  end.

#[global] Instance ndarray_inhabited : Inhabited ndarray := populate (NdArray [] []).

(** The array an object denotes in a heap. *)
Definition contents (h : heap) (r : ref) : ndarray :=
  build (rshape r) (λ idx, item (h !!! base r) (rmap r idx)).

(** The current heap. *)
Definition get_heap : M heap := λ h, Ok (h, h).

(** A fresh buffer and the object that owns it. *)
Definition alloc (x : ndarray) : M ref := λ h,
  Ok (Ref (length h) (shape x) id, h ++ [x]).

(** An update in place of the buffer at an address. *)
Definition modify (a : nat) (f : ndarray → ndarray) : M unit := λ h,
  Ok (tt, <[a := f (h !!! a)]> h).

Definition np_zeros (s : list Z) : M ref :=
  x ← lift (np_zeros s); alloc x.

(** A basic slice is a view: it shares the buffer. *)
Definition getslice (r : ref) (sps : list slice_spec) : result ref :=
  sels ← resolve (rshape r) sps;
  Ok (Ref (base r) (sel_shape sels) (rmap r ∘ sel_index sels)).

Definition getitem (r : ref) (idx : list Z) : M Z :=
  h ← get_heap; lift (getitem (contents h r) idx).

(** [a * b] and [a + b] read both operands and allocate the result. *)
Definition broadcast_op (f : Z → Z → Z) (r1 r2 : ref) : M ref :=
  h ← get_heap;
  x ← lift (broadcast_op f (contents h r1) (contents h r2));
  alloc x.

Definition np_multiply : ref → ref → M ref := broadcast_op Z.mul.
Definition np_add : ref → ref → M ref := broadcast_op Z.add.

Definition np_sum (r : ref) : M Z :=
  h ← get_heap; mret (np_sum (contents h r)).

Definition np_sum_axes123 (r : ref) : M ref :=
  h ← get_heap;
  x ← lift (np_sum_axes123 (contents h r));
  alloc x.

(** Writes through an object land in its buffer. *)
Definition setitem (r : ref) (idx : list Z) (v : Z) : M unit :=
  idx' ← lift (check_index (rshape r) idx);
  modify (base r) (λ buf, write buf (rmap r idx') v).

Definition setslice (r : ref) (sps : list slice_spec) (rv : ref) : M unit :=
  sels ← lift (resolve (rshape r) sps);
  s ← lift (broadcast_shapes (sel_shape sels) (rshape rv));
  h ← get_heap;
  if bool_decide (s = sel_shape sels)
  then modify (base r) (λ buf,
         foldl (λ acc idx, write acc (rmap r (sel_index sels idx))
                             (item (contents h rv) (bc_index (rshape rv) idx)))
               buf (indices (sel_shape sels)))
  else lift (Raise ValueError).

Definition np_iadd (r rb : ref) : M unit :=
  s ← lift (broadcast_shapes (rshape r) (rshape rb));
  h ← get_heap;
  if bool_decide (s = rshape r)
  then modify (base r) (λ buf,
         foldl (λ acc idx, write acc (rmap r idx)
                             (item (contents h r) (bc_index (rshape r) idx)
                              + item (contents h rb) (bc_index (rshape rb) idx)))
               buf (indices (rshape r)))
  else lift (Raise ValueError).

Definition iterate (r : ref) : result (list ref) :=
  match rshape r with
  | [] => Raise TypeError
  | d :: _ => mapM (λ n, getslice r [SIndex n]) (seqZ 0 d)
  end.

Definition np_array (l : list ref) : M ref :=
  h ← get_heap;
  x ← lift (np_array (contents h <$> l));
  alloc x.

(** A [for] loop that threads a local accumulator. *)
Fixpoint fold_each {A S} (l : list A) (body : S → A → M S) (s : S) : M S :=
  match l with
  | [] => mret s
  | x :: l' => s' ← body s x; fold_each l' body s'
  end.

(** A [for] loop run for its effect on the heap. *)
Definition for_each {A} (l : list A) (body : A → M unit) : M unit :=
  fold_each l (λ _, body) tt.

(** A list comprehension over calls that allocate. *)
Fixpoint map_each {A B} (f : A → M B) (l : list A) : M (list B) :=
  match l with
  | [] => mret []
  | x :: l' => y ← f x; ys ← map_each f l'; mret (y :: ys)
  end.

Definition filter_image (image filters : ref) (strides : Z * Z) : M ref :=
  '(xm, xn, _) ← lift (unpack3 (rshape image));
  '(km, kn, ni, no) ← lift (unpack4 (rshape filters));
  let '(sm, sn) := strides in
  qm ← lift (floordiv (xm - km) sm);
  qn ← lift (floordiv (xn - kn) sn);
  let ym := 1 + qm in
  let yn := 1 + qn in
  y ← np_zeros [ym; yn; no];
  rows ← lift (py_range 0 (xm - km + 1) sm);
  for_each (enumerate rows) (λ '(iy, ix),
    cols ← lift (py_range 0 (xn - kn + 1) sn);
    for_each (enumerate cols) (λ '(jy, jx),
      chunk ← lift (getslice image [SRange ix (ix + km); SRange jx (jx + kn); SFull]);
      chans ← lift (py_range 0 no 1);
      for_each chans (λ channel,
        f ← lift (getslice filters [SFull; SFull; SFull; SIndex channel]);
        p ← np_multiply f chunk;
        s ← np_sum p;
        setitem y [iy; jy; channel] s)));;
  mret y.

Definition filter_images_v1 (batch filters biases : ref) (strides : Z * Z) : M ref :=
  images ← lift (iterate batch);
  outputs ← map_each (λ image, filter_image image filters strides) images;
  outputs ← np_array outputs;
  np_add outputs biases.

Definition filter_images_v2 (images filters biases : ref) (strides : Z * Z) : M ref :=
  '(batch_size, xm, xn, _) ← lift (unpack4 (rshape images));
  '(km, kn, _, num_filters) ← lift (unpack4 (rshape filters));
  let '(sm, sn) := strides in
  qm ← lift (floordiv (xm - km) sm);
  qn ← lift (floordiv (xn - kn) sn);
  let ym := 1 + qm in
  let yn := 1 + qn in
  y ← np_zeros [batch_size; ym; yn; num_filters];
  rows ← lift (py_range 0 (xm - km + 1) sm);
  for_each (enumerate rows) (λ '(iy, ix),
    cols ← lift (py_range 0 (xn - kn + 1) sn);
    for_each (enumerate cols) (λ '(jy, jx),
      chunk ← lift (getslice images
                      [SFull; SRange ix (ix + km); SRange jx (jx + kn); SFull]);
      chans ← lift (py_range 0 num_filters 1);
      for_each chans (λ channel,
        f ← lift (getslice filters [SFull; SFull; SFull; SIndex channel]);
        p ← np_multiply f chunk;
        v ← np_sum_axes123 p;
        setslice y [SFull; SIndex iy; SIndex jy; SIndex channel] v)));;
  np_iadd y biases;;
  mret y.

Definition filter_images_v3 (images filters biases : ref) (strides : Z * Z) : M ref :=
  '(batch_size, xm, xn, _) ← lift (unpack4 (rshape images));
  '(km, kn, num_input_channels, num_filters) ← lift (unpack4 (rshape filters));
  let '(sm, sn) := strides in
  qm ← lift (floordiv (xm - km) sm);
  qn ← lift (floordiv (xn - kn) sn);
  let ym := 1 + qm in
  let yn := 1 + qn in
  y ← np_zeros [batch_size; ym; yn; num_filters];
  rows ← lift (py_range 0 (xm - km + 1) sm);
  for_each (enumerate rows) (λ '(iy, ix),
    cols ← lift (py_range 0 (xn - kn + 1) sn);
    for_each (enumerate cols) (λ '(jy, jx),
      chunk ← lift (getslice images
                      [SFull; SRange ix (ix + km); SRange jx (jx + kn); SFull]);
      ochans ← lift (py_range 0 num_filters 1);
      for_each ochans (λ output_chan,
        items ← lift (py_range 0 batch_size 1);
        for_each items (λ item,
          hs ← lift (py_range 0 km 1);
          tmp ← fold_each hs (λ tmp h,
            ws ← lift (py_range 0 kn 1);
            fold_each ws (λ tmp w,
              ichans ← lift (py_range 0 num_input_channels 1);
              fold_each ichans (λ tmp input_chan,
                c ← getitem chunk [item; h; w; input_chan];
                f ← getitem filters [h; w; input_chan; output_chan];
                mret (tmp + c * f)) tmp) tmp) 0;
          setitem y [item; iy; jy; output_chan] tmp))));;
  np_iadd y biases;;
  mret y.

Definition run (v : variant) : ref → ref → ref → Z * Z → M ref :=
  match v with
  | V1 => filter_images_v1
  | V2 => filter_images_v2
  | V3 => filter_images_v3
  end.

(** An object of the heap: its buffer is allocated and its extents are
    non-negative. *)
Definition valid (h : heap) (r : ref) : Prop :=
  (base r < length h)%nat ∧ Forall (λ d, 0 ≤ d) (rshape r).

(** [h'] has every buffer of [h], unchanged, and possibly more. *)
Definition extends (h h' : heap) : Prop :=
  ∀ a, (a < length h)%nat → h' !! a = h !! a.

(** The invariant of a variant's loops, at a call made in heap [h0]: the
    buffers of [h0] are kept, and the output buffer, allocated by the call at
    address [a], holds [y] of shape [s]. *)
Definition holds (h0 : heap) (a : nat) (s : list Z) (y : ndarray) (hh : heap) : Prop :=
  extends h0 hh ∧ (length h0 ≤ a)%nat ∧ hh !! a = Some y ∧ shape y = s ∧ wf y.

(** A value-level computation [p] is simulated by a run [m] of the
    heap-level one: both raise the same exception, or both return, with
    results and final heap related by [R]. *)
Definition sim {A B} (R : A → B → heap → Prop)
    (p : result A) (m : result (B * heap)) : Prop :=
  match p with
  | Ok x => ∃ y h', m = Ok (y, h') ∧ R x y h'
  | Raise e => m = Raise e
  end.

End Store.

(** ** The JAX layer [Conv2D] *)

Module Conv2D.

Record t : Set := Build {
  filters : ndarray;
  biases : ndarray;
  input_channels : Z;
  output_channels : Z;
  filter_shape : Z * Z;
  strides : Z * Z;
  padding : string;
  seed : Z
}.

(** [Conv2D.__call__(self, batch)], run in a notebook whose global namespace is
    [G].  [conv_general_dilated] stands for the JAX library function
    [jax.lax.conv_general_dilated(lhs, rhs, window_strides, padding,
    dimension_numbers=('NHWC', 'HWIO', 'NHWC'))].  The name [biases] in
    [outputs += biases] is neither a parameter nor a local of the method, so it
    is looked up in [G]; JAX arrays are immutable, so [+=] rebinds [outputs] to
    the broadcast sum. *)
Definition call
    (conv_general_dilated : ndarray → ndarray → Z * Z → string → result ndarray)
    (G : gmap string ndarray) (self : t) (batch : ndarray) : result ndarray :=
  outputs ← conv_general_dilated batch (filters self) (strides self) (padding self);
  let locals := <["outputs" := outputs]> {["batch" := batch]} in
  biases ← load locals G "biases";
  np_add outputs biases.

(** Modelled from the JAX documentation: with dimension numbers
    (NHWC, HWIO, NHWC) and "valid" padding, [conv_general_dilated] returns the
    strided window sums of the contract, without any bias.  Other padding
    modes are outside the model. *)
Definition conv_valid (lhs rhs : ndarray) (window_strides : Z * Z) (padding : string)
  : result ndarray :=
  if bool_decide (padding = "valid") then
    '(_, _, _, co) ← unpack4 (shape rhs);
    filter_images_v2 lhs rhs (NdArray [co] (replicate (Z.to_nat co) 0)) window_strides
  else Raise ValueError.

End Conv2D.

(** ** The layer as a Python object: constructor and pytree protocol *)

(** [Conv2D.__init__], [tree_flatten] and [tree_unflatten] work on the
    attributes of the layer object, whatever they hold, so here a layer is its
    attribute dictionary ([__dict__]).  Two dictionaries are equal when they
    bind the same names to the same values, as in Python. *)

Module Layer.

(** The values the attributes of a layer hold. *)
Inductive value : Set :=
  | Int (n : Z)
  | Str (s : string)
  | Tuple (l : list Z)
  | Array (a : ndarray).

Inductive error : Set :=
  | AttributeError
  | Builtin (e : exn).

Inductive outcome (A : Type) : Type :=
  | Return (a : A)
  | Throw (e : error).
Arguments Return {A} a.
Arguments Throw {A} e.

#[global] Instance outcome_ret : MRet outcome := @Return.
#[global] Instance outcome_bind : MBind outcome := λ A B f m,
  match m with
  | Return a => f a
  | Throw e => Throw e
  end.

Abbreviation obj := (gmap string value).

(** [self.name] read. *)
Definition getattr (self : obj) (name : string) : outcome value :=
  match self !! name with
  | Some v => Return v
  | None => Throw AttributeError
  end.

(** The parameters of [__init__] after [self]. *)
Definition parameters : gset string :=
  {[ "input_channels"; "output_channels"; "filter_shape"; "strides"; "padding";
     "seed"; "build" ]}.

Record arguments : Set := Bound {
  input_channels : value;
  output_channels : value;
  filter_shape : value;
  strides : value;
  padding : value;
  seed : value
}.

(** Binding of the keyword arguments of a call [Conv2D( **kwargs, build=...)]
    to the parameters (the notebooks pass every argument by keyword).  An
    unknown keyword, a second value for [build] or a missing
    [input_channels] or [output_channels] is a TypeError; the other
    parameters have defaults. *)
Definition bind_arguments (kwargs : obj) : outcome arguments :=
  if bool_decide (dom kwargs ⊆ parameters ∧ "build" ∉ dom kwargs) then
    match kwargs !! "input_channels", kwargs !! "output_channels" with
    | Some ic, Some oc =>
        Return (Bound ic oc
                  (default (Tuple [2; 2]) (kwargs !! "filter_shape"))
                  (default (Tuple [1; 1]) (kwargs !! "strides"))
                  (default (Str "valid") (kwargs !! "padding"))
                  (default (Int 1234) (kwargs !! "seed")))
    | _, _ => Throw (Builtin TypeError)
    end
  else Throw (Builtin TypeError).

(** [Conv2D( **kwargs, build=build)], that is [__init__] on a fresh object.
    [draw] stands for the block under [if build:], which draws the filters and
    the biases with [jax.random] from the seed, the channel counts and the
    filter shape. *)
Definition init (draw : value → value → value → value → outcome (value * value))
    (kwargs : obj) (build : bool) : outcome obj :=
  a ← bind_arguments kwargs;
  let self : obj := ∅ in
  let self := <["input_channels" := input_channels a]> self in
  let self := <["output_channels" := output_channels a]> self in
  let self := <["filter_shape" := filter_shape a]> self in
  let self := <["strides" := strides a]> self in
  let self := <["padding" := padding a]> self in
  let self := <["seed" := seed a]> self in
  if build then
    '(filters, biases) ← draw (seed a) (input_channels a) (output_channels a)
                              (filter_shape a);
    let self := <["filters" := filters]> self in
    let self := <["biases" := biases]> self in
    Return self
  else Return self.

(** [tree_flatten(self)] *)
Definition tree_flatten (self : obj) : outcome (list value * obj) :=
  filters ← getattr self "filters";
  biases ← getattr self "biases";
  let params := [filters; biases] in
  let metadata :=
    filter (λ kv, kv.1 ∉ ({[ "biases"; "filters" ]} : gset string)) self in
  Return (params, metadata).

(** [tree_unflatten(cls, metadata, params)] *)
Definition tree_unflatten
    (draw : value → value → value → value → outcome (value * value))
    (metadata : obj) (params : list value) : outcome obj :=
  layer ← init draw metadata false;
  match params with
  | [filters; biases] =>
      let layer := <["filters" := filters]> layer in
      let layer := <["biases" := biases]> layer in
      Return layer
  | _ => Throw (Builtin ValueError)
  end.

(** The names [__init__] sets, and those a usable layer has. *)
Definition metadata_names : gset string :=
  {[ "input_channels"; "output_channels"; "filter_shape"; "strides"; "padding"; "seed" ]}.
Definition layer_names : gset string := metadata_names ∪ {[ "filters"; "biases" ]}.

End Layer.

(** ** Concrete inputs *)

(** One 3×3 single-channel image. *)
Definition ex_images : ndarray := NdArray [1; 3; 3; 1] [1; 2; 3; 4; 5; 6; 7; 8; 9].
(** One 2×2 filter of ones over one input channel. *)
Definition ex_filters : ndarray := NdArray [2; 2; 1; 1] [1; 1; 1; 1].
Definition ex_biases : ndarray := NdArray [1] [10].
(** An empty batch of 2×2 single-channel images. *)
Definition ex_empty_batch : ndarray := NdArray [0; 2; 2; 1] [].
(** Two 1×1 filters over one input channel, and a bias per filter. *)
Definition ex_filters2 : ndarray := NdArray [1; 1; 1; 2] [1; 1].
Definition ex_biases2 : ndarray := NdArray [2] [5; 7].
(** A heap in which each argument owns a buffer. *)
Definition ex_heap : list ndarray := [ex_images; ex_filters; ex_biases].
Definition ex_images_ref : Store.ref := Store.Ref 0 [1; 3; 3; 1] id.
Definition ex_filters_ref : Store.ref := Store.Ref 1 [2; 2; 1; 1] id.
Definition ex_biases_ref : Store.ref := Store.Ref 2 [1] id.
(** Another heap, with other buffers around: there the same batch is the view
    [pair[1:2]] of a buffer of two images. *)
Definition ex_pair : ndarray :=
  NdArray [2; 3; 3; 1] [0; 0; 0; 0; 0; 0; 0; 0; 0; 1; 2; 3; 4; 5; 6; 7; 8; 9].
Definition ex_heap2 : list ndarray :=
  [ex_biases; NdArray [2] [5; 7]; ex_pair; ex_filters].
Definition ex_images_view : Store.ref :=
  Store.Ref 2 [1; 3; 3; 1] (sel_index [Keep 1 1; Keep 0 3; Keep 0 3; Keep 0 1]).
Definition ex_filters_ref2 : Store.ref := Store.Ref 3 [2; 2; 1; 1] id.
Definition ex_biases_ref2 : Store.ref := Store.Ref 0 [1] id.
Definition ex_biases4 : ndarray := NdArray [4] [1; 2; 3; 4].

(** One 3×3 single-channel image, and the same image with other values in its
    last row and its last column. *)
Definition ex_image : ndarray := NdArray [3; 3; 1] [1; 2; 3; 4; 5; 6; 7; 8; 9].
Definition ex_images_edge : ndarray :=
  NdArray [1; 3; 3; 1] [1; 2; 0; 4; 5; 0; 0; 0; 0].
(** One 2×2 image, of one and of two channels. *)
Definition ex_small : ndarray := NdArray [1; 2; 2; 1] [1; 2; 3; 4].
(** One 3×3 filter and one 1×1 filter over one input channel. *)
Definition ex_filters3 : ndarray := NdArray [3; 3; 1; 1] [1; 1; 1; 1; 1; 1; 1; 1; 1].
(** The first image of [ex_images], as the view [ex_images[0]] in [ex_heap]. *)
Definition ex_image_view : Store.ref :=
  Store.Ref 0 [3; 3; 1] (sel_index [Pick 0; Keep 0 3; Keep 0 3; Keep 0 1]).
Definition ex_kwargs : gmap string Layer.value :=
  {[ "input_channels" := Layer.Int 1; "output_channels" := Layer.Int 1 ]}.
Definition ex_draw (seed input_channels output_channels filter_shape : Layer.value)
  : Layer.outcome (Layer.value * Layer.value) :=
  Layer.Return (Layer.Array ex_filters, Layer.Array ex_biases).
Definition ex_metadata : gmap string Layer.value :=
  {[ "input_channels" := Layer.Int 1; "output_channels" := Layer.Int 1;
     "filter_shape" := Layer.Tuple [2; 2]; "strides" := Layer.Tuple [1; 1];
     "padding" := Layer.Str "valid"; "seed" := Layer.Int 1234 ]}.
Definition ex_object : gmap string Layer.value :=
  <["biases" := Layer.Array ex_biases]> (<["filters" := Layer.Array ex_filters]> ex_metadata).

(** ** Tactics *)

Ltac solve_in_bounds :=
  unfold in_bounds; repeat (apply List.Forall2_cons; [lia|]); apply List.Forall2_nil.

Ltac solve_valid :=
  unfold valid_input, wf, out_extent; cbn;
  rewrite ?Forall_cons, ?Forall_nil; repeat split; (lia || reflexivity || done).

(** Lookup of the name [k] in a map built by inserts: one case per inserted
    name. *)
Ltac by_name k :=
  repeat match goal with
  | |- context [<[?n := _]> _ !! k] =>
      destruct (decide (k = n)) as [-> | ?];
        [by simplify_map_eq | rewrite (lookup_insert_ne _ n k) by done]
  end.

(** * Part II: lemmas and theorems *)

(** ** Basic facts about offsets and index enumeration *)

Lemma size_nonneg s : Forall (λ d, 0 ≤ d) s → 0 ≤ size s.
Proof. induction 1; simpl; [lia | nia]. Qed.

Lemma in_bounds_nonneg s idx : in_bounds s idx → Forall (λ d, 0 ≤ d) s.
Proof. induction 1; constructor; [lia | done]. Qed.

Lemma concat_seqZ_blocks (m : Z) (d : nat) : 0 ≤ m →
  (i ← seqZ 0 (Z.of_nat d); seqZ (i * m) m) = seqZ 0 (Z.of_nat d * m).
Proof.
  intros Hm. induction d as [|d IH].
  - by rewrite !seqZ_nil by lia.
  - rewrite seqZ_S, bind_app, IH. simpl. rewrite app_nil_r.
    replace (Z.of_nat (S d) * m) with (Z.of_nat d * m + m) by lia.
    rewrite seqZ_app by lia. f_equal.
Qed.

Lemma fmap_list_bind {A B C} (f : B → C) (g : A → list B) (l : list A) :
  f <$> (l ≫= g) = l ≫= (λ x, f <$> g x).
Proof.
  induction l as [|x l IH]; [done|]. by rewrite !bind_cons, fmap_app, IH.
Qed.

Lemma ravel_indices s : Forall (λ d, 0 ≤ d) s →
  ravel s <$> indices s = seqZ 0 (size s).
Proof.
  induction 1 as [|d s Hd Hs IH]; [done|].
  assert (Hm : 0 ≤ size s) by by apply size_nonneg.
  change (indices (d :: s)) with (i ← seqZ 0 d; cons i <$> indices s).
  change (size (d :: s)) with (d * size s).
  rewrite fmap_list_bind.
  rewrite <- (Z2Nat.id d) at 2 by done.
  rewrite <- concat_seqZ_blocks by done. rewrite Z2Nat.id by done.
  apply list_bind_ext; [|done]. intros i.
  rewrite <- list_fmap_compose.
  replace (seqZ (i * size s) (size s)) with (Z.add (i * size s) <$> seqZ 0 (size s))
    by (rewrite fmap_add_seqZ; f_equal; lia).
  rewrite <- IH, <- list_fmap_compose.
  by apply list_fmap_ext.
Qed.

Lemma length_indices s : Forall (λ d, 0 ≤ d) s →
  length (indices s) = Z.to_nat (size s).
Proof.
  intros H. rewrite <- (length_fmap (ravel s)), ravel_indices by done.
  apply length_seqZ.
Qed.

Lemma elem_of_indices s idx : idx ∈ indices s ↔ in_bounds s idx.
Proof.
  revert idx. induction s as [|d s IH]; intros idx; simpl.
  - rewrite list_elem_of_singleton. split; [intros ->; constructor | by inversion 1].
  - rewrite list_elem_of_bind. split.
    + intros (i & Hin & Hi). apply list_elem_of_fmap in Hin as (r & -> & Hr).
      apply elem_of_seqZ in Hi. constructor; [lia | by apply IH].
    + inversion 1 as [|? i ? r ? Hr]; subst. exists i. split.
      * apply list_elem_of_fmap. exists r. split; [done | by apply IH].
      * apply elem_of_seqZ. lia.
Qed.

Lemma ravel_bounds s idx : in_bounds s idx → 0 ≤ ravel s idx < size s.
Proof.
  intros H. pose proof (in_bounds_nonneg _ _ H) as Hs.
  apply elem_of_indices in H.
  apply (list_elem_of_fmap_2 (ravel s)) in H. rewrite ravel_indices in H by done.
  apply elem_of_seqZ in H. lia.
Qed.

Lemma lookup_indices s idx : in_bounds s idx →
  indices s !! Z.to_nat (ravel s idx) = Some idx.
Proof.
  intros H. pose proof (in_bounds_nonneg _ _ H) as Hs.
  pose proof (ravel_bounds _ _ H) as Hb.
  apply elem_of_indices, list_elem_of_lookup in H as [k Hk].
  assert (Hk' : (ravel s <$> indices s) !! k = Some (ravel s idx))
    by by rewrite list_lookup_fmap, Hk.
  rewrite ravel_indices in Hk' by done. apply lookup_seqZ in Hk' as [-> _].
  by rewrite Z.add_0_l, Nat2Z.id.
Qed.

Lemma ravel_inj s idx idx' :
  in_bounds s idx → in_bounds s idx' → ravel s idx = ravel s idx' → idx = idx'.
Proof.
  intros H H' Heq. apply lookup_indices in H, H'. rewrite Heq in H. congruence.
Qed.

Lemma item_build s f idx : in_bounds s idx → item (build s f) idx = f idx.
Proof.
  intros H. unfold item, build. simpl.
  apply nth_lookup_Some. by rewrite list_lookup_fmap, lookup_indices.
Qed.

Lemma wf_build s f : Forall (λ d, 0 ≤ d) s → wf (build s f).
Proof.
  intros H. split; [done|]. simpl.
  rewrite length_fmap, length_indices, Z2Nat.id; [done | by apply size_nonneg | done].
Qed.

(** Two well-formed arrays of one shape that agree at every index are equal. *)
Lemma ndarray_ext a b :
  wf a → wf b → shape a = shape b →
  (∀ idx, in_bounds (shape a) idx → item a idx = item b idx) → a = b.
Proof.
  destruct a as [s da], b as [s' db]. unfold wf, item. simpl.
  intros [Hs Ha] [_ Hb] <- Hext. f_equal.
  apply (nth_ext _ _ 0 0); [lia|]. intros k Hk.
  assert (Hlen : (k < length (indices s))%nat) by (rewrite length_indices by done; lia).
  apply lookup_lt_is_Some in Hlen as [idx Hidx].
  assert (Hin : in_bounds s idx) by (apply elem_of_indices; by eapply list_elem_of_lookup_2).
  pose proof (lookup_indices _ _ Hin) as Hl.
  assert (Hr : (ravel s <$> indices s) !! k = Some (ravel s idx))
    by by rewrite list_lookup_fmap, Hidx.
  rewrite ravel_indices in Hr by done. apply lookup_seqZ in Hr as [Hr _].
  specialize (Hext idx Hin). rewrite Hr, Z.add_0_l, Nat2Z.id in Hext. done.
Qed.

(** ** Reasoning about the error monad, ranges and sums *)

Lemma bind_Ok {A B} (x : A) (k : A → result B) : (Ok x ≫= k) = k x.
Proof. done. Qed.

Lemma foldM_pure {A S} (f : S → A → S) l s :
  foldM (λ s x, Ok (f s x)) l s = Ok (foldl f s l).
Proof. revert s. induction l as [|x l IH]; intros s; simpl; [done | apply IH]. Qed.

Lemma mapM_Forall2 {A B} (f : A → result B) (Q : A → B → Prop) l :
  (∀ x, x ∈ l → ∃ y, f x = Ok y ∧ Q x y) →
  ∃ ys, mapM f l = Ok ys ∧ Forall2 Q l ys.
Proof.
  induction l as [|x l IH]; intros H; simpl.
  - exists []. split; [done | constructor].
  - destruct (H x) as (y & -> & Hy); [left|].
    destruct IH as (ys & -> & Hys); [intros; apply H; by right|].
    exists (y :: ys). split; [done | by constructor].
Qed.

Lemma mapM_pure {A B} (f : A → result B) (g : A → B) l :
  (∀ x, x ∈ l → f x = Ok (g x)) → mapM f l = Ok (g <$> l).
Proof.
  induction l as [|x l IH]; intros H; simpl; [done|].
  rewrite H by left. simpl. rewrite IH; [done|]. intros; apply H; by right.
Qed.

Lemma floordiv_Ok a b : b ≠ 0 → floordiv a b = Ok (a / b).
Proof. intros H. unfold floordiv. by rewrite (proj2 (Z.eqb_neq b 0)). Qed.

(** [range(n)] *)
Lemma py_range_upto n : py_range 0 n 1 = Ok (seqZ 0 n).
Proof.
  unfold py_range, range_length. simpl.
  f_equal. destruct (Z.ltb_spec 0 n).
  - rewrite Z.div_1_r. replace (n - 0 - 1 + 1) with n by lia.
    rewrite <- (list_fmap_id (seqZ 0 n)) at 2. apply list_fmap_ext. intros; simpl; lia.
  - by rewrite (seqZ_nil 0 n) by lia.
Qed.

(** [range(0, stop, step)] for a positive step and positive stop. *)
Lemma py_range_stride stop step : 0 < step → 0 < stop →
  py_range 0 stop step = Ok ((λ k, k * step) <$> seqZ 0 (1 + (stop - 1) / step)).
Proof.
  intros Hs Hp. unfold py_range, range_length.
  rewrite (proj2 (Z.eqb_neq step 0)) by lia.
  rewrite (proj2 (Z.ltb_lt 0 step)), (proj2 (Z.ltb_lt 0 stop)) by done.
  replace ((stop - 0 - 1) / step + 1) with (1 + (stop - 1) / step)
    by (rewrite Z.sub_0_r; lia).
  done.
Qed.

Lemma zip_fmap_diag {A B} (f : A → B) (l : list A) :
  zip l (f <$> l) = (λ k, (k, f k)) <$> l.
Proof. induction l as [|x l IH]; [done | simpl; by f_equal]. Qed.

Lemma enumerate_fmap_seqZ {A} (f : Z → A) n :
  enumerate (f <$> seqZ 0 n) = (λ k, (k, f k)) <$> seqZ 0 n.
Proof.
  unfold enumerate. rewrite length_fmap, length_seqZ.
  destruct (Z.le_gt_cases n 0) as [Hn|Hn].
  - by rewrite !seqZ_nil by lia.
  - rewrite Z2Nat.id by lia. apply zip_fmap_diag.
Qed.

Lemma py_sum_app l1 l2 : py_sum (l1 ++ l2) = py_sum l1 + py_sum l2.
Proof. induction l1 as [|x l1 IH]; simpl; [done | rewrite IH; lia]. Qed.

Lemma py_sum_bind {A} (g : A → list Z) (l : list A) :
  py_sum (l ≫= g) = py_sum ((λ x, py_sum (g x)) <$> l).
Proof.
  induction l as [|x l IH]; [done|].
  rewrite bind_cons, py_sum_app, IH. done.
Qed.

Lemma sumZ_ext n f g : (∀ k, 0 ≤ k < n → f k = g k) → sumZ n f = sumZ n g.
Proof.
  intros H. unfold sumZ. f_equal. apply list_fmap_ext.
  intros ? k Hk. apply H. apply list_elem_of_lookup_2, elem_of_seqZ in Hk. lia.
Qed.


Lemma sum_indices3 (g : list Z → Z) a b c :
  py_sum (g <$> indices [a; b; c]) =
  sumZ a (λ i, sumZ b (λ j, sumZ c (λ k, g [i; j; k]))).
Proof.
  unfold sumZ. simpl.
  rewrite fmap_list_bind, py_sum_bind. f_equal. apply list_fmap_ext. intros _ i _.
  rewrite <- list_fmap_compose, fmap_list_bind, py_sum_bind.
  f_equal. apply list_fmap_ext. intros _ j _.
  rewrite <- !list_fmap_compose. f_equal.
  rewrite (fmap_list_bind _ _ (seqZ 0 c)). simpl.
  induction (seqZ 0 c) as [|k l IH]; [done|]. rewrite bind_cons, fmap_cons. simpl.
  by rewrite IH.
Qed.

(** ** Reads and writes of single cells *)

Lemma check_axis_in_range d i : 0 ≤ i < d → check_axis d i = Ok i.
Proof.
  intros H. unfold check_axis.
  by rewrite (proj2 (Z.leb_le 0 i)), (proj2 (Z.ltb_lt i d)) by lia.
Qed.

Lemma check_index_in_bounds s idx : in_bounds s idx → check_index s idx = Ok idx.
Proof.
  induction 1 as [|d i s idx Hi _ IH]; simpl; [done|].
  by rewrite check_axis_in_range, bind_Ok, IH.
Qed.

Lemma check_axis_Ok d i i' : check_axis d i = Ok i' → 0 ≤ i' < d.
Proof.
  unfold check_axis.
  destruct (Z.leb_spec 0 i), (Z.ltb_spec i d); simpl;
    destruct (Z.leb_spec (- d) i), (Z.ltb_spec i 0); simpl; intros [= <-]; lia.
Qed.


Lemma item_write_eq a idx v :
  wf a → in_bounds (shape a) idx → item (write a idx v) idx = v.
Proof.
  intros [_ Hlen] Hin. unfold item, write. simpl.
  apply nth_lookup_Some, list_lookup_insert_eq.
  pose proof (ravel_bounds _ _ Hin). lia.
Qed.

Lemma item_write_ne a idx idx' v :
  in_bounds (shape a) idx → in_bounds (shape a) idx' → idx ≠ idx' →
  item (write a idx v) idx' = item a idx'.
Proof.
  intros Hin Hin' Hne. unfold item, write. simpl.
  rewrite !nth_lookup, list_lookup_insert_ne; [done|].
  intros Heq. apply Hne. apply (ravel_inj (shape a)); [done..|].
  pose proof (ravel_bounds _ _ Hin). pose proof (ravel_bounds _ _ Hin'). lia.
Qed.

Lemma wf_write a idx v : wf a → wf (write a idx v).
Proof. intros [? ?]. split; [done|]. simpl. by rewrite length_insert. Qed.

Lemma np_zeros_Ok s : Forall (λ d, 0 ≤ d) s →
  np_zeros s = Ok (NdArray s (replicate (Z.to_nat (size s)) 0)).
Proof.
  intros H. unfold np_zeros.
  rewrite (proj2 (forallb_forall _ _)); [done|].
  intros d Hd. rewrite Forall_forall in H. apply Z.leb_le, H. by apply list_elem_of_In.
Qed.

Lemma np_zeros_negative s : Exists (λ d, d < 0) s → np_zeros s = Raise ValueError.
Proof.
  intros H. unfold np_zeros.
  destruct (forallb _ s) eqn:E; [|done].
  rewrite forallb_forall in E. apply Exists_exists in H as (d & Hd & Hneg).
  apply list_elem_of_In, E, Z.leb_le in Hd. lia.
Qed.

Lemma wf_zeros s : Forall (λ d, 0 ≤ d) s →
  wf (NdArray s (replicate (Z.to_nat (size s)) 0)).
Proof.
  intros H. split; [done|]. simpl.
  rewrite length_replicate, Z2Nat.id; [done | by apply size_nonneg].
Qed.

Lemma fills_wf F R y y' : fills F R y y' → wf y → wf y'.
Proof. intros (Hs & Hl & _) [? ?]. split; by rewrite ?Hs, ?Hl. Qed.

Lemma fills_shape F R y y' : fills F R y y' → shape y' = shape y.
Proof. by intros (? & _). Qed.

Lemma fills_refl F y : fills F (λ _, False) y y.
Proof. repeat split; [done | by right]. Qed.

Lemma fills_weaken F (R R' : list Z → Prop) y y' :
  (∀ idx, in_bounds (shape y) idx → R' idx → R idx) →
  fills F R y y' → fills F R' y y'.
Proof.
  intros HR (Hs & Hl & H). repeat split; [done..| |]; destruct (H idx) as [H1 H2]; auto.
Qed.

Lemma fills_trans F R1 R2 y y1 y2 :
  fills F R1 y y1 → fills F R2 y1 y2 → fills F (λ idx, R1 idx ∨ R2 idx) y y2.
Proof.
  intros (Hs1 & Hl1 & H1) (Hs2 & Hl2 & H2).
  split; [congruence|]. split; [congruence|]. intros idx Hin.
  destruct (H1 idx Hin) as [H1a H1b].
  destruct (H2 idx) as [H2a H2b]; [by rewrite Hs1|].
  split.
  - intros [HR|HR]; [|auto]. destruct H2b as [? | ->]; auto.
  - destruct H2b as [? | ->]; auto.
Qed.

Lemma fills_write F y idx v :
  wf y → in_bounds (shape y) idx → F idx = v →
  fills F (λ i, i = idx) y (write y idx v).
Proof.
  intros Hwf Hin HF. split; [done|]. split; [simpl; by rewrite length_insert|].
  intros idx' Hin'. destruct (decide (idx' = idx)) as [-> | Hne].
  - rewrite item_write_eq by done. auto.
  - rewrite item_write_ne by done. split; [done | by right].
Qed.

Lemma foldM_fills {A} F (R : A → list Z → Prop)
    (body : ndarray → A → result ndarray) (l : list A) (s : list Z) :
  (∀ x y, x ∈ l → wf y → shape y = s →
     ∃ y', body y x = Ok y' ∧ fills F (R x) y y') →
  ∀ y, wf y → shape y = s →
    ∃ y', foldM body l y = Ok y' ∧ fills F (λ idx, ∃ x, x ∈ l ∧ R x idx) y y'.
Proof.
  induction l as [|x l IH]; intros Hbody y Hwf Hs; simpl.
  - exists y. split; [done|]. eapply fills_weaken; [|apply fills_refl].
    intros ? _ (? & Hx & _). by apply elem_of_nil in Hx.
  - destruct (Hbody x y) as (y1 & -> & H1); [left | done..|].
    destruct (IH (λ x' y' Hx', Hbody x' y' (list_elem_of_further _ _ _ Hx')) y1)
      as (y2 & Hy2 & H2); [by eapply fills_wf | by rewrite (fills_shape _ _ _ _ H1)|].
    exists y2. split; [done|]. eapply fills_weaken; [|by eapply fills_trans].
    intros idx _ (x' & Hx' & HR). apply elem_of_cons in Hx' as [-> | ?]; [by left|].
    right. eauto.
Qed.

Lemma foldl_fills {A} F (R : A → list Z → Prop)
    (f : ndarray → A → ndarray) (l : list A) (s : list Z) :
  (∀ x y, x ∈ l → wf y → shape y = s → fills F (R x) y (f y x)) →
  ∀ y, wf y → shape y = s →
    fills F (λ idx, ∃ x, x ∈ l ∧ R x idx) y (foldl f y l).
Proof.
  intros Hf y Hwf Hs.
  destruct (foldM_fills F R (λ y x, Ok (f y x)) l s) with (y := y)
    as (y' & Hy' & Hfill); [eauto | done..|].
  rewrite foldM_pure in Hy'. by injection Hy' as <-.
Qed.

(** ** Slices and broadcasting on the shapes the notebooks use *)

Lemma clip_id len i : 0 ≤ i ≤ len → clip len i = i.
Proof.
  intros H. unfold clip. rewrite (proj2 (Z.ltb_ge i 0)) by lia. lia.
Qed.

Lemma resolve_window3 xm xn ci ix jx km kn :
  0 ≤ ix → 0 ≤ km → ix + km ≤ xm → 0 ≤ jx → 0 ≤ kn → jx + kn ≤ xn →
  resolve [xm; xn; ci] [SRange ix (ix + km); SRange jx (jx + kn); SFull]
  = Ok [Keep ix km; Keep jx kn; Keep 0 ci].
Proof.
  intros. cbn. rewrite !clip_id by lia. do 4 f_equal; [f_equal|]; lia.
Qed.

Lemma resolve_window4 b xm xn ci ix jx km kn :
  0 ≤ ix → 0 ≤ km → ix + km ≤ xm → 0 ≤ jx → 0 ≤ kn → jx + kn ≤ xn →
  resolve [b; xm; xn; ci] [SFull; SRange ix (ix + km); SRange jx (jx + kn); SFull]
  = Ok [Keep 0 b; Keep ix km; Keep jx kn; Keep 0 ci].
Proof.
  intros. cbn. rewrite !clip_id by lia. do 5 f_equal; [f_equal|]; lia.
Qed.

Lemma resolve_channel km kn ni no ch : 0 ≤ ch < no →
  resolve [km; kn; ni; no] [SFull; SFull; SFull; SIndex ch]
  = Ok [Keep 0 km; Keep 0 kn; Keep 0 ni; Pick ch].
Proof. intros. cbn. by rewrite check_axis_in_range. Qed.

Lemma resolve_first d s n : 0 ≤ n < d →
  resolve (d :: s) [SIndex n] = (λ r, Pick n :: r) <$> resolve s [].
Proof.
  intros. cbn. rewrite check_axis_in_range by done. cbn.
  by destruct (resolve s []).
Qed.

Lemma resolve_cell b ym yn no iy jy ch :
  0 ≤ iy < ym → 0 ≤ jy < yn → 0 ≤ ch < no →
  resolve [b; ym; yn; no] [SFull; SIndex iy; SIndex jy; SIndex ch]
  = Ok [Keep 0 b; Pick iy; Pick jy; Pick ch].
Proof. intros. cbn. by rewrite !check_axis_in_range. Qed.

Lemma bc_dim_same a : bc_dim a a = Ok a.
Proof. unfold bc_dim. by rewrite Z.eqb_refl. Qed.

Lemma bc_dim_one_l b : bc_dim 1 b = Ok b.
Proof. unfold bc_dim. destruct (Z.eqb_spec 1 b); [by subst | done]. Qed.

Lemma bc_dim_one_r a : bc_dim a 1 = Ok a.
Proof.
  unfold bc_dim. destruct (Z.eqb_spec a 1); [done|].
  by rewrite Z.eqb_refl.
Qed.

Lemma bc_dim_Ok a b c :
  bc_dim a b = Ok c → (a = b ∧ c = a) ∨ (a = 1 ∧ c = b) ∨ (b = 1 ∧ c = a).
Proof.
  unfold bc_dim.
  destruct (Z.eqb_spec a b), (Z.eqb_spec a 1), (Z.eqb_spec b 1);
    intros [= <-]; auto.
Qed.


Lemma bc_axis_id d i : 0 ≤ i < d → bc_axis d i = i.
Proof. intros H. unfold bc_axis. destruct (Z.eqb_spec d 1); lia. Qed.

Lemma bc_axis_bounds_l a b c i :
  bc_dim a b = Ok c → 0 ≤ i < c → 0 ≤ bc_axis a i < a.
Proof.
  intros H Hi. unfold bc_axis.
  apply bc_dim_Ok in H. destruct (Z.eqb_spec a 1); lia.
Qed.

Lemma bc_axis_bounds_r a b c i :
  bc_dim a b = Ok c → 0 ≤ i < c → 0 ≤ bc_axis b i < b.
Proof.
  intros H Hi. unfold bc_axis.
  apply bc_dim_Ok in H. destruct (Z.eqb_spec b 1); lia.
Qed.

Lemma broadcast_shapes_3_3 a b c1 c2 c :
  bc_dim c1 c2 = Ok c → broadcast_shapes [a; b; c1] [a; b; c2] = Ok [a; b; c].
Proof. intros H. unfold broadcast_shapes. cbn. by rewrite H, !bc_dim_same. Qed.

Lemma broadcast_shapes_3_4 n a b c1 c2 c :
  bc_dim c1 c2 = Ok c → broadcast_shapes [a; b; c1] [n; a; b; c2] = Ok [n; a; b; c].
Proof. intros H. unfold broadcast_shapes. cbn. by rewrite H, !bc_dim_same. Qed.

Lemma broadcast_shapes_1_1 a : broadcast_shapes [a] [a] = Ok [a].
Proof. unfold broadcast_shapes. cbn. by rewrite bc_dim_same. Qed.

Lemma broadcast_shapes_4_1 n a b c l c' :
  bc_dim c l = Ok c' → broadcast_shapes [n; a; b; c] [l] = Ok [n; a; b; c'].
Proof. intros H. unfold broadcast_shapes. cbn. by rewrite H. Qed.

Lemma in_bounds_1 a i : in_bounds [a] [i] ↔ 0 ≤ i < a.
Proof.
  split.
  - intros H. by inversion H.
  - intros. solve_in_bounds.
Qed.

Lemma in_bounds_3 a b c i j k :
  in_bounds [a; b; c] [i; j; k] ↔ 0 ≤ i < a ∧ 0 ≤ j < b ∧ 0 ≤ k < c.
Proof.
  split.
  - intros H. inversion H as [|? ? ? ? ? H1]; subst.
    inversion H1 as [|? ? ? ? ? H2]; subst. inversion H2; subst. done.
  - intros (? & ? & ?). solve_in_bounds.
Qed.

Lemma in_bounds_4 a b c d i j k l :
  in_bounds [a; b; c; d] [i; j; k; l] ↔
  0 ≤ i < a ∧ 0 ≤ j < b ∧ 0 ≤ k < c ∧ 0 ≤ l < d.
Proof.
  split.
  - intros H. inversion H as [|? ? ? ? ? H1]; subst.
    apply in_bounds_3 in H1. tauto.
  - intros (? & ? & ? & ?). solve_in_bounds.
Qed.

Lemma in_bounds_1_inv a idx : in_bounds [a] idx → ∃ i, idx = [i] ∧ 0 ≤ i < a.
Proof.
  intros H. inversion H as [|? i ? r ? Hr]; subst. inversion Hr; subst. eauto.
Qed.

Lemma in_bounds_3_inv a b c idx : in_bounds [a; b; c] idx →
  ∃ i j k, idx = [i; j; k] ∧ 0 ≤ i < a ∧ 0 ≤ j < b ∧ 0 ≤ k < c.
Proof.
  intros H. inversion H as [|? i ? r ? Hr]; subst.
  inversion Hr as [|? j ? r' ? Hr']; subst.
  apply in_bounds_1_inv in Hr' as (k & -> & ?). exists i, j, k. done.
Qed.

Lemma in_bounds_4_inv a b c d idx : in_bounds [a; b; c; d] idx →
  ∃ i j k l, idx = [i; j; k; l] ∧ 0 ≤ i < a ∧ 0 ≤ j < b ∧ 0 ≤ k < c ∧ 0 ≤ l < d.
Proof.
  intros H. inversion H as [|? i ? r ? Hr]; subst.
  apply in_bounds_3_inv in Hr as (j & k & l & -> & ?). exists i, j, k, l. done.
Qed.

Lemma getslice_channel filters km kn ni no ch :
  shape filters = [km; kn; ni; no] → 0 ≤ ch < no →
  getslice filters [SFull; SFull; SFull; SIndex ch] = Ok (filter_slice filters km kn ni ch).
Proof. intros Hs Hch. unfold getslice. by rewrite Hs, resolve_channel. Qed.

Lemma getslice_chunk3 image xm xn ci km kn ix jx :
  shape image = [xm; xn; ci] →
  0 ≤ ix → 0 ≤ km → ix + km ≤ xm → 0 ≤ jx → 0 ≤ kn → jx + kn ≤ xn →
  getslice image [SRange ix (ix + km); SRange jx (jx + kn); SFull]
  = Ok (chunk3 image km kn ci ix jx).
Proof. intros Hs **. unfold getslice. by rewrite Hs, resolve_window3. Qed.

Lemma getslice_chunk4 images b xm xn ci km kn ix jx :
  shape images = [b; xm; xn; ci] →
  0 ≤ ix → 0 ≤ km → ix + km ≤ xm → 0 ≤ jx → 0 ≤ kn → jx + kn ≤ xn →
  getslice images [SFull; SRange ix (ix + km); SRange jx (jx + kn); SFull]
  = Ok (chunk4 images b km kn ci ix jx).
Proof. intros Hs **. unfold getslice. by rewrite Hs, resolve_window4. Qed.

Lemma item_filter_slice filters km kn ni cb ci ch h w c :
  bc_dim ni ci = Ok cb → 0 ≤ h < km → 0 ≤ w < kn → 0 ≤ c < cb →
  item (filter_slice filters km kn ni ch) (bc_index [km; kn; ni] [h; w; c])
  = item filters [h; w; bc_axis ni c; ch].
Proof.
  intros Hbc Hh Hw Hc. pose proof (bc_axis_bounds_l _ _ _ _ Hbc Hc).
  unfold filter_slice. cbn [bc_index bc_pick length drop Nat.sub].
  rewrite (bc_axis_id km), (bc_axis_id kn) by done.
  rewrite item_build by solve_in_bounds. done.
Qed.

Lemma item_chunk3 image km kn ni cb ci ix jx h w c :
  bc_dim ni ci = Ok cb → 0 ≤ h < km → 0 ≤ w < kn → 0 ≤ c < cb →
  item (chunk3 image km kn ci ix jx) (bc_index [km; kn; ci] [h; w; c])
  = item image [ix + h; jx + w; bc_axis ci c].
Proof.
  intros Hbc Hh Hw Hc. pose proof (bc_axis_bounds_r _ _ _ _ Hbc Hc).
  unfold chunk3. cbn [bc_index bc_pick length drop Nat.sub].
  rewrite (bc_axis_id km), (bc_axis_id kn) by done.
  rewrite item_build by solve_in_bounds. done.
Qed.

Lemma np_multiply_Ok a b s :
  broadcast_shapes (shape a) (shape b) = Ok s →
  np_multiply a b =
  Ok (build s (λ idx, item a (bc_index (shape a) idx) * item b (bc_index (shape b) idx))).
Proof. intros H. unfold np_multiply, broadcast_op. by rewrite H. Qed.


Lemma np_multiply_product3 image filters km kn ni ci cb ix jx ch :
  bc_dim ni ci = Ok cb →
  np_multiply (filter_slice filters km kn ni ch) (chunk3 image km kn ci ix jx)
  = Ok (product3 image filters km kn ni ci cb ix jx ch).
Proof. intros Hbc. apply np_multiply_Ok. simpl. by apply broadcast_shapes_3_3. Qed.

(** One cell of [filter_image]: [np.sum(filters[:,:,:,ch] * chunk)]. *)
Lemma np_sum_product3 image filters km kn ni ci cb ix jx ch :
  bc_dim ni ci = Ok cb →
  np_sum (product3 image filters km kn ni ci cb ix jx ch)
  = window image filters [] km kn cb ni ci ix jx ch.
Proof.
  intros Hbc. unfold np_sum, product3. cbn [data build].
  rewrite sum_indices3. unfold window.
  apply sumZ_ext; intros h Hh. apply sumZ_ext; intros w Hw.
  apply sumZ_ext; intros c Hc.
  by rewrite (item_filter_slice _ _ _ _ cb ci), (item_chunk3 _ _ _ ni cb).
Qed.

(** ** [filter_image] *)

Lemma extent_pos x k s : 1 ≤ s → k ≤ x → 1 ≤ 1 + (x - k) / s.
Proof. intros. assert (0 ≤ (x - k) / s) by (apply Z.div_pos; lia). lia. Qed.

Lemma stride_in_window x k s i :
  1 ≤ s → k ≤ x → 0 ≤ i < 1 + (x - k) / s → 0 ≤ i * s ∧ i * s + k ≤ x.
Proof.
  intros Hs Hk Hi. pose proof (Z.mul_div_le (x - k) s ltac:(lia)). nia.
Qed.

Lemma range_stop_simpl x k s : 1 + (x - k + 1 - 1) / s = 1 + (x - k) / s.
Proof. do 2 f_equal. lia. Qed.

Section FilterImage.
Variables (image filters : ndarray) (xm xn ci km kn ni no cb sm sn : Z).
Hypothesis Himage : shape image = [xm; xn; ci].
Hypothesis Hfilters : shape filters = [km; kn; ni; no].
Hypothesis Hbc : bc_dim ni ci = Ok cb.
Hypothesis Hsm : 1 ≤ sm.
Hypothesis Hsn : 1 ≤ sn.
Hypothesis Hkm : 0 ≤ km ≤ xm.
Hypothesis Hkn : 0 ≤ kn ≤ xn.
Hypothesis Hno : 0 ≤ no.

Local Abbreviation filter_image_value :=
  (filter_image_value image filters ci km kn ni cb sm sn).

Lemma filter_image_channels y iy jy :
  wf y → shape y = [1 + (xm - km) / sm; 1 + (xn - kn) / sn; no] →
  0 ≤ iy < 1 + (xm - km) / sm → 0 ≤ jy < 1 + (xn - kn) / sn →
  ∃ y', foldM (λ y channel,
          f ← getslice filters [SFull; SFull; SFull; SIndex channel];
          p ← np_multiply f (chunk3 image km kn ci (iy * sm) (jy * sn));
          setitem y [iy; jy; channel] (np_sum p)) (seqZ 0 no) y = Ok y' ∧
        fills filter_image_value (λ idx, ∃ c, idx = [iy; jy; c]) y y'.
Proof.
  intros Hwf Hs Hiy Hjy.
  edestruct (foldM_fills filter_image_value (λ c idx, idx = [iy; jy; c]))
    as (y' & Hy' & Hfill); [| exact Hwf | exact Hs |].
  2:{ exists y'. split; [exact Hy'|]. eapply fills_weaken; [|exact Hfill].
      intros idx Hin [c ->]. rewrite Hs in Hin. apply in_bounds_3 in Hin.
      exists c. split; [apply elem_of_seqZ; lia | done]. }
  intros c y0 Hc Hwf0 Hs0. apply elem_of_seqZ in Hc. cbv beta.
  rewrite (getslice_channel _ _ _ _ _ _ Hfilters) by lia.
  rewrite bind_Ok, (np_multiply_product3 _ _ _ _ _ _ _ _ _ _ Hbc), bind_Ok.
  rewrite np_sum_product3 by done.
  unfold setitem. rewrite Hs0, check_index_in_bounds by solve_in_bounds.
  rewrite bind_Ok. eexists. split; [done|].
  apply fills_write; [done | rewrite Hs0; solve_in_bounds | done].
Qed.

Lemma filter_image_cols y iy :
  wf y → shape y = [1 + (xm - km) / sm; 1 + (xn - kn) / sn; no] →
  0 ≤ iy < 1 + (xm - km) / sm →
  ∃ y', foldM (λ y '(jy, jx),
          chunk ← getslice image
                    [SRange (iy * sm) (iy * sm + km); SRange jx (jx + kn); SFull];
          chans ← py_range 0 no 1;
          foldM (λ y channel,
            f ← getslice filters [SFull; SFull; SFull; SIndex channel];
            p ← np_multiply f chunk;
            setitem y [iy; jy; channel] (np_sum p)) chans y)
          ((λ k, (k, k * sn)) <$> seqZ 0 (1 + (xn - kn) / sn)) y = Ok y' ∧
        fills filter_image_value (λ idx, ∃ j c, idx = [iy; j; c]) y y'.
Proof.
  intros Hwf Hs Hiy.
  edestruct (foldM_fills filter_image_value
               (λ (x : Z * Z) idx, ∃ c, idx = [iy; x.1; c]))
    as (y' & Hy' & Hfill); [| exact Hwf | exact Hs |].
  2:{ exists y'. split; [exact Hy'|]. eapply fills_weaken; [|exact Hfill].
      intros idx Hin (j & c & ->). rewrite Hs in Hin. apply in_bounds_3 in Hin.
      exists (j, j * sn). split; [|by exists c].
      apply list_elem_of_fmap. exists j. split; [done|]. apply elem_of_seqZ. lia. }
  intros x y0 Hx Hwf0 Hs0.
  apply list_elem_of_fmap in Hx as (jy & -> & Hjy). apply elem_of_seqZ in Hjy.
  cbv beta iota. cbn [fst].
  destruct (stride_in_window xm km sm iy) as [? ?]; [lia..|].
  destruct (stride_in_window xn kn sn jy) as [? ?]; [lia..|].
  rewrite (getslice_chunk3 _ _ _ _ _ _ _ _ Himage) by lia.
  rewrite bind_Ok, py_range_upto, bind_Ok.
  apply filter_image_channels; [done | done | lia | lia].
Qed.

Lemma filter_image_rows y :
  wf y → shape y = [1 + (xm - km) / sm; 1 + (xn - kn) / sn; no] →
  ∃ y', foldM (λ y '(iy, ix),
          cols ← py_range 0 (xn - kn + 1) sn;
          foldM (λ y '(jy, jx),
            chunk ← getslice image [SRange ix (ix + km); SRange jx (jx + kn); SFull];
            chans ← py_range 0 no 1;
            foldM (λ y channel,
              f ← getslice filters [SFull; SFull; SFull; SIndex channel];
              p ← np_multiply f chunk;
              setitem y [iy; jy; channel] (np_sum p)) chans y)
            (enumerate cols) y)
          ((λ k, (k, k * sm)) <$> seqZ 0 (1 + (xm - km) / sm)) y = Ok y' ∧
        fills filter_image_value (λ idx, in_bounds (shape y) idx) y y'.
Proof.
  intros Hwf Hs.
  edestruct (foldM_fills filter_image_value
               (λ (x : Z * Z) idx, ∃ j c, idx = [x.1; j; c]))
    as (y' & Hy' & Hfill); [| exact Hwf | exact Hs |].
  2:{ exists y'. split; [exact Hy'|]. eapply fills_weaken; [|exact Hfill].
      intros idx Hin _. rewrite Hs in Hin.
      apply in_bounds_3_inv in Hin as (i & j & c & -> & Hi & _).
      exists (i, i * sm). split; [|by exists j, c].
      apply list_elem_of_fmap. exists i. split; [done|]. apply elem_of_seqZ. lia. }
  intros x y0 Hx Hwf0 Hs0.
  apply list_elem_of_fmap in Hx as (iy & -> & Hiy). apply elem_of_seqZ in Hiy.
  cbv beta iota. cbn [fst].
  rewrite (py_range_stride (xn - kn + 1) sn) by lia.
  rewrite bind_Ok, enumerate_fmap_seqZ, range_stop_simpl.
  apply filter_image_cols; [done | done | lia].
Qed.

(** [filter_image] on a well-shaped input: it returns, the result has the
    expected frame, and every cell holds its windowed dot product. *)
Lemma filter_image_correct :
  ∃ y, filter_image image filters (sm, sn) = Ok y ∧ wf y ∧
       shape y = [1 + (xm - km) / sm; 1 + (xn - kn) / sn; no] ∧
       ∀ idx, in_bounds (shape y) idx → item y idx = filter_image_value idx.
Proof.
  pose proof (extent_pos xm km sm Hsm ltac:(lia)).
  pose proof (extent_pos xn kn sn Hsn ltac:(lia)).
  assert (Hnn : Forall (λ d, 0 ≤ d) [1 + (xm - km) / sm; 1 + (xn - kn) / sn; no])
    by (repeat (apply List.Forall_cons; [lia|]); apply List.Forall_nil).
  unfold filter_image. rewrite Himage, Hfilters. cbn [unpack3 unpack4].
  rewrite !bind_Ok. rewrite !floordiv_Ok, !bind_Ok by lia.
  rewrite (np_zeros_Ok _ Hnn), bind_Ok.
  rewrite (py_range_stride (xm - km + 1) sm) by lia.
  rewrite bind_Ok, enumerate_fmap_seqZ, range_stop_simpl.
  destruct (filter_image_rows _ (wf_zeros _ Hnn) eq_refl) as (y' & Hy' & Hfill).
  exists y'. split; [exact Hy'|]. split; [by eapply fills_wf, wf_zeros|].
  destruct Hfill as (Hs & _ & Hval). split; [exact Hs|].
  intros idx Hin. rewrite Hs in Hin. by apply Hval.
Qed.

End FilterImage.

(** ** [filter_images_v2] *)

Lemma item_chunk4 images b km kn ni cb ci ix jx n h w c :
  bc_dim ni ci = Ok cb → 0 ≤ n < b → 0 ≤ h < km → 0 ≤ w < kn → 0 ≤ c < cb →
  item (chunk4 images b km kn ci ix jx) (bc_index [b; km; kn; ci] [n; h; w; c])
  = item images [n; ix + h; jx + w; bc_axis ci c].
Proof.
  intros Hbc Hn Hh Hw Hc. pose proof (bc_axis_bounds_r _ _ _ _ Hbc Hc).
  unfold chunk4. cbn [bc_index bc_pick length drop Nat.sub].
  rewrite (bc_axis_id b), (bc_axis_id km), (bc_axis_id kn) by done.
  rewrite item_build by solve_in_bounds. done.
Qed.

Lemma np_multiply_product4 images filters b km kn ni ci cb ix jx ch :
  bc_dim ni ci = Ok cb →
  np_multiply (filter_slice filters km kn ni ch) (chunk4 images b km kn ci ix jx)
  = Ok (product4 images filters b km kn ni ci cb ix jx ch).
Proof. intros Hbc. apply np_multiply_Ok. simpl. by apply broadcast_shapes_3_4. Qed.

Lemma np_sum_axes123_product4 images filters b km kn ni ci cb ix jx ch :
  np_sum_axes123 (product4 images filters b km kn ni ci cb ix jx ch)
  = Ok (sums4 images filters b km kn ni ci cb ix jx ch).
Proof. done. Qed.

Lemma item_sums4 images filters b km kn ni ci cb ix jx ch n :
  bc_dim ni ci = Ok cb → 0 ≤ n < b →
  item (sums4 images filters b km kn ni ci cb ix jx ch) [n]
  = window images filters [n] km kn cb ni ci ix jx ch.
Proof.
  intros Hbc Hn. unfold sums4. rewrite item_build by solve_in_bounds.
  rewrite sum_indices3. unfold window.
  apply sumZ_ext; intros h Hh. apply sumZ_ext; intros w Hw.
  apply sumZ_ext; intros c Hc.
  cbn [app]. unfold product4. rewrite item_build by solve_in_bounds.
  change (bc_index [km; kn; ni] [n; h; w; c]) with (bc_index [km; kn; ni] [h; w; c]).
  by rewrite (item_filter_slice _ _ _ _ cb ci), (item_chunk4 _ _ _ _ ni cb).
Qed.

Lemma setslice_batch_fills F y v b ym yn no iy jy ch :
  wf y → shape y = [b; ym; yn; no] → shape v = [b] →
  0 ≤ iy < ym → 0 ≤ jy < yn → 0 ≤ ch < no →
  (∀ n, 0 ≤ n < b → F [n; iy; jy; ch] = item v [n]) →
  ∃ y', setslice y [SFull; SIndex iy; SIndex jy; SIndex ch] v = Ok y' ∧
        fills F (λ idx, ∃ n, idx = [n; iy; jy; ch]) y y'.
Proof.
  intros Hwf Hs Hv Hiy Hjy Hch HF. unfold setslice.
  rewrite Hs, resolve_cell, bind_Ok by done. cbn [sel_shape].
  rewrite Hv, broadcast_shapes_1_1, bind_Ok, bool_decide_eq_true_2 by done.
  eexists. split; [done|].
  eapply fills_weaken; [|apply (foldl_fills F
     (λ x idx, idx = sel_index [Keep 0 b; Pick iy; Pick jy; Pick ch] x) _ _
     [b; ym; yn; no]); [|done..]].
  - intros idx Hin [n ->]. rewrite Hs in Hin. apply in_bounds_4 in Hin.
    exists [n]. split; [|done]. apply elem_of_indices. solve_in_bounds.
  - intros x y0 Hx Hwf0 Hs0.
    apply elem_of_indices, in_bounds_1_inv in Hx as (n & -> & Hn).
    cbn [sel_index bc_index length drop Nat.sub bc_pick]. rewrite bc_axis_id by done.
    apply fills_write; [done | rewrite Hs0; solve_in_bounds |].
    by apply HF.
Qed.

Lemma np_iadd_bias y biases b ym yn no l :
  shape y = [b; ym; yn; no] → shape biases = [l] → bc_dim no l = Ok no →
  np_iadd y biases =
  Ok (build [b; ym; yn; no]
        (λ idx, item y (bc_index [b; ym; yn; no] idx) + item biases (bc_index [l] idx))).
Proof.
  intros Hy Hb Hbc. unfold np_iadd, np_add, broadcast_op. rewrite Hy, Hb.
  rewrite (broadcast_shapes_4_1 _ _ _ _ _ _ Hbc), !bind_Ok.
  by rewrite bool_decide_eq_true_2.
Qed.


Lemma item_add_bias y biases b ym yn no l n i j c :
  shape y = [b; ym; yn; no] → in_bounds [b; ym; yn; no] [n; i; j; c] →
  item (build [b; ym; yn; no]
          (λ idx, item y (bc_index [b; ym; yn; no] idx) + item biases (bc_index [l] idx)))
       [n; i; j; c]
  = item y [n; i; j; c] + item biases [bc_axis l c].
Proof.
  intros Hy Hin. rewrite item_build by done. apply in_bounds_4 in Hin.
  cbn [bc_index bc_pick length drop Nat.sub].
  by rewrite (bc_axis_id b), (bc_axis_id ym), (bc_axis_id yn), (bc_axis_id no) by lia.
Qed.

Lemma bind_intro {A B} (m : result A) (k : A → result B) a r :
  m = Ok a → k a = r → m ≫= k = r.
Proof. by intros -> <-. Qed.

Section FilterImagesV2.
Variables (images filters biases : ndarray).
Variables (b xm xn ci km kn ni no cb l sm sn : Z).
Hypothesis Himages : shape images = [b; xm; xn; ci].
Hypothesis Hfilters : shape filters = [km; kn; ni; no].
Hypothesis Hbiases : shape biases = [l].
Hypothesis Hbc : bc_dim ni ci = Ok cb.
Hypothesis Hbl : bc_dim no l = Ok no.
Hypothesis Hsm : 1 ≤ sm.
Hypothesis Hsn : 1 ≤ sn.
Hypothesis Hkm : 0 ≤ km ≤ xm.
Hypothesis Hkn : 0 ≤ kn ≤ xn.
Hypothesis Hno : 0 ≤ no.
Hypothesis Hb : 0 ≤ b.

Local Abbreviation batch_value := (batch_value images filters ci km kn ni cb sm sn).

Lemma filter_images_v2_channels y iy jy :
  wf y → shape y = [b; 1 + (xm - km) / sm; 1 + (xn - kn) / sn; no] →
  0 ≤ iy < 1 + (xm - km) / sm → 0 ≤ jy < 1 + (xn - kn) / sn →
  ∃ y', foldM (λ y channel,
          f ← getslice filters [SFull; SFull; SFull; SIndex channel];
          p ← np_multiply f (chunk4 images b km kn ci (iy * sm) (jy * sn));
          v ← np_sum_axes123 p;
          setslice y [SFull; SIndex iy; SIndex jy; SIndex channel] v) (seqZ 0 no) y
        = Ok y' ∧
        fills batch_value (λ idx, ∃ n c, idx = [n; iy; jy; c]) y y'.
Proof.
  intros Hwf Hs Hiy Hjy.
  edestruct (foldM_fills batch_value (λ c idx, ∃ n, idx = [n; iy; jy; c]))
    as (y' & Hy' & Hfill); [| exact Hwf | exact Hs |].
  2:{ exists y'. split; [exact Hy'|]. eapply fills_weaken; [|exact Hfill].
      intros idx Hin (n & c & ->). rewrite Hs in Hin. apply in_bounds_4 in Hin.
      exists c. split; [apply elem_of_seqZ; lia | by exists n]. }
  intros c y0 Hc Hwf0 Hs0. apply elem_of_seqZ in Hc. cbv beta.
  rewrite (getslice_channel _ _ _ _ _ _ Hfilters) by lia.
  rewrite bind_Ok, (np_multiply_product4 _ _ _ _ _ _ _ _ _ _ _ Hbc), bind_Ok.
  rewrite np_sum_axes123_product4, bind_Ok.
  apply (setslice_batch_fills _ _ _ b (1 + (xm - km) / sm) (1 + (xn - kn) / sn) no);
    [done | done | done | lia | lia | lia |].
  intros n Hn. rewrite item_sums4 by done. done.
Qed.

Lemma filter_images_v2_cols y iy :
  wf y → shape y = [b; 1 + (xm - km) / sm; 1 + (xn - kn) / sn; no] →
  0 ≤ iy < 1 + (xm - km) / sm →
  ∃ y', foldM (λ y '(jy, jx),
          chunk ← getslice images
                    [SFull; SRange (iy * sm) (iy * sm + km); SRange jx (jx + kn); SFull];
          chans ← py_range 0 no 1;
          foldM (λ y channel,
            f ← getslice filters [SFull; SFull; SFull; SIndex channel];
            p ← np_multiply f chunk;
            v ← np_sum_axes123 p;
            setslice y [SFull; SIndex iy; SIndex jy; SIndex channel] v) chans y)
          ((λ k, (k, k * sn)) <$> seqZ 0 (1 + (xn - kn) / sn)) y = Ok y' ∧
        fills batch_value (λ idx, ∃ n j c, idx = [n; iy; j; c]) y y'.
Proof.
  intros Hwf Hs Hiy.
  edestruct (foldM_fills batch_value
               (λ (x : Z * Z) idx, ∃ n c, idx = [n; iy; x.1; c]))
    as (y' & Hy' & Hfill); [| exact Hwf | exact Hs |].
  2:{ exists y'. split; [exact Hy'|]. eapply fills_weaken; [|exact Hfill].
      intros idx Hin (n & j & c & ->). rewrite Hs in Hin. apply in_bounds_4 in Hin.
      exists (j, j * sn). split; [|by exists n, c].
      apply list_elem_of_fmap. exists j. split; [done|]. apply elem_of_seqZ. lia. }
  intros x y0 Hx Hwf0 Hs0.
  apply list_elem_of_fmap in Hx as (jy & -> & Hjy). apply elem_of_seqZ in Hjy.
  cbv beta iota. cbn [fst].
  destruct (stride_in_window xm km sm iy) as [? ?]; [lia..|].
  destruct (stride_in_window xn kn sn jy) as [? ?]; [lia..|].
  rewrite (getslice_chunk4 _ _ _ _ _ _ _ _ _ Himages) by lia.
  rewrite bind_Ok, py_range_upto, bind_Ok.
  apply filter_images_v2_channels; [done | done | lia | lia].
Qed.

Lemma filter_images_v2_rows y :
  wf y → shape y = [b; 1 + (xm - km) / sm; 1 + (xn - kn) / sn; no] →
  ∃ y', foldM (λ y '(iy, ix),
          cols ← py_range 0 (xn - kn + 1) sn;
          foldM (λ y '(jy, jx),
            chunk ← getslice images
                      [SFull; SRange ix (ix + km); SRange jx (jx + kn); SFull];
            chans ← py_range 0 no 1;
            foldM (λ y channel,
              f ← getslice filters [SFull; SFull; SFull; SIndex channel];
              p ← np_multiply f chunk;
              v ← np_sum_axes123 p;
              setslice y [SFull; SIndex iy; SIndex jy; SIndex channel] v) chans y)
            (enumerate cols) y)
          ((λ k, (k, k * sm)) <$> seqZ 0 (1 + (xm - km) / sm)) y = Ok y' ∧
        fills batch_value (λ idx, in_bounds (shape y) idx) y y'.
Proof.
  intros Hwf Hs.
  edestruct (foldM_fills batch_value
               (λ (x : Z * Z) idx, ∃ n j c, idx = [n; x.1; j; c]))
    as (y' & Hy' & Hfill); [| exact Hwf | exact Hs |].
  2:{ exists y'. split; [exact Hy'|]. eapply fills_weaken; [|exact Hfill].
      intros idx Hin _. rewrite Hs in Hin.
      apply in_bounds_4_inv in Hin as (n & i & j & c & -> & _ & Hi & _).
      exists (i, i * sm). split; [|by exists n, j, c].
      apply list_elem_of_fmap. exists i. split; [done|]. apply elem_of_seqZ. lia. }
  intros x y0 Hx Hwf0 Hs0.
  apply list_elem_of_fmap in Hx as (iy & -> & Hiy). apply elem_of_seqZ in Hiy.
  cbv beta iota. cbn [fst].
  rewrite (py_range_stride (xn - kn + 1) sn) by lia.
  rewrite bind_Ok, enumerate_fmap_seqZ, range_stop_simpl.
  apply filter_images_v2_cols; [done | done | lia].
Qed.

(** The loop nest of [filter_images_v2] runs to completion and leaves the
    windowed dot products in [y]; what remains is [y += biases]. *)
Lemma filter_images_v2_loops :
  ∃ y, filter_images_v2 images filters biases (sm, sn) = np_iadd y biases ∧ wf y ∧
       shape y = [b; 1 + (xm - km) / sm; 1 + (xn - kn) / sn; no] ∧
       ∀ idx, in_bounds (shape y) idx → item y idx = batch_value idx.
Proof.
  pose proof (extent_pos xm km sm Hsm ltac:(lia)).
  pose proof (extent_pos xn kn sn Hsn ltac:(lia)).
  assert (Hnn : Forall (λ d, 0 ≤ d) [b; 1 + (xm - km) / sm; 1 + (xn - kn) / sn; no])
    by (repeat (apply List.Forall_cons; [lia|]); apply List.Forall_nil).
  unfold filter_images_v2. rewrite Himages, Hfilters. cbn [unpack3 unpack4].
  rewrite !bind_Ok. rewrite !floordiv_Ok, !bind_Ok by lia.
  rewrite (np_zeros_Ok _ Hnn), bind_Ok.
  rewrite (py_range_stride (xm - km + 1) sm) by lia.
  rewrite bind_Ok, enumerate_fmap_seqZ, range_stop_simpl.
  destruct (filter_images_v2_rows _ (wf_zeros _ Hnn) eq_refl) as (y' & Hy' & Hfill).
  exists y'. split; [by eapply bind_intro|].
  split; [by eapply fills_wf, wf_zeros|].
  destruct Hfill as (Hs & _ & Hval). split; [exact Hs|].
  intros idx Hin. rewrite Hs in Hin. by apply Hval.
Qed.

(** [filter_images_v2] on a well-shaped input. *)
Lemma filter_images_v2_correct :
  ∃ y, filter_images_v2 images filters biases (sm, sn) = Ok y ∧ wf y ∧
       shape y = [b; 1 + (xm - km) / sm; 1 + (xn - kn) / sn; no] ∧
       ∀ n i j c, in_bounds (shape y) [n; i; j; c] →
         item y [n; i; j; c] = batch_value [n; i; j; c] + item biases [bc_axis l c].
Proof.
  destruct filter_images_v2_loops as (y' & -> & Hwf & Hs & Hval).
  pose proof Hwf as [Hnn _]. rewrite Hs in Hnn.
  rewrite (np_iadd_bias _ _ _ _ _ _ _ Hs Hbiases Hbl).
  eexists. split; [done|]. split; [by apply wf_build|]. split; [done|].
  intros n i j c Hin. cbn [shape build] in Hin.
  rewrite item_add_bias by done. f_equal. apply Hval. by rewrite Hs.
Qed.

End FilterImagesV2.

(** ** [filter_images_v3] *)

Lemma foldM_acc {A} (body : Z → A → result Z) (gv : A → Z) l t :
  (∀ k t, k ∈ l → body t k = Ok (t + gv k)) →
  foldM body l t = Ok (t + py_sum (gv <$> l)).
Proof.
  revert t. induction l as [|x l IH]; intros t H; simpl.
  - by rewrite Z.add_0_r.
  - rewrite H by left. rewrite bind_Ok, IH.
    + by rewrite <- Z.add_assoc.
    + intros; apply H; by right.
Qed.

Lemma getitem_in_bounds a idx :
  in_bounds (shape a) idx → getitem a idx = Ok (item a idx).
Proof. intros H. unfold getitem. by rewrite check_index_in_bounds. Qed.

Section FilterImagesV3.
Variables (images filters biases : ndarray).
Variables (b xm xn ci km kn ni no l sm sn : Z).
Hypothesis Himages : shape images = [b; xm; xn; ci].
Hypothesis Hfilters : shape filters = [km; kn; ni; no].
Hypothesis Hbiases : shape biases = [l].
Hypothesis Hni : ni ≤ ci.
Hypothesis Hbl : bc_dim no l = Ok no.
Hypothesis Hsm : 1 ≤ sm.
Hypothesis Hsn : 1 ≤ sn.
Hypothesis Hkm : 0 ≤ km ≤ xm.
Hypothesis Hkn : 0 ≤ kn ≤ xn.
Hypothesis Hno : 0 ≤ no.
Hypothesis Hb : 0 ≤ b.

Local Abbreviation scalar_value := (scalar_value images filters km kn ni sm sn).

Lemma filter_images_v3_tmp ix jx n ch :
  0 ≤ n < b → 0 ≤ ch < no →
  (hs ← py_range 0 km 1;
   foldM (λ tmp h,
     ws ← py_range 0 kn 1;
     foldM (λ tmp w,
       ichans ← py_range 0 ni 1;
       foldM (λ tmp input_chan,
         c ← getitem (chunk4 images b km kn ci ix jx) [n; h; w; input_chan];
         f ← getitem filters [h; w; input_chan; ch];
         Ok (tmp + c * f)) ichans tmp) ws tmp) hs 0)
  = Ok (scalar_window images filters km kn ni n ix jx ch).
Proof.
  intros Hn Hch. rewrite (py_range_upto km), (py_range_upto kn), (py_range_upto ni).
  rewrite bind_Ok.
  rewrite (foldM_acc _ (λ h, sumZ kn (λ w, sumZ ni (λ k,
             item images [n; ix + h; jx + w; k] * item filters [h; w; k; ch])))); [done|].
  intros h t Hh. apply elem_of_seqZ in Hh. rewrite bind_Ok.
  apply foldM_acc. intros w t' Hw. apply elem_of_seqZ in Hw.
  rewrite bind_Ok.
  apply foldM_acc. intros k t'' Hk. apply elem_of_seqZ in Hk.
  rewrite !getitem_in_bounds by (rewrite ?Hfilters; cbn [shape chunk4 build]; solve_in_bounds).
  rewrite !bind_Ok. unfold chunk4. rewrite item_build by solve_in_bounds. done.
Qed.

Lemma filter_images_v3_items y iy jy ch :
  wf y → shape y = [b; 1 + (xm - km) / sm; 1 + (xn - kn) / sn; no] →
  0 ≤ iy < 1 + (xm - km) / sm → 0 ≤ jy < 1 + (xn - kn) / sn → 0 ≤ ch < no →
  ∃ y', foldM (λ y item,
          hs ← py_range 0 km 1;
          tmp ← foldM (λ tmp h,
            ws ← py_range 0 kn 1;
            foldM (λ tmp w,
              ichans ← py_range 0 ni 1;
              foldM (λ tmp input_chan,
                c ← getitem (chunk4 images b km kn ci (iy * sm) (jy * sn))
                            [item; h; w; input_chan];
                f ← getitem filters [h; w; input_chan; ch];
                Ok (tmp + c * f)) ichans tmp) ws tmp) hs 0;
          setitem y [item; iy; jy; ch] tmp) (seqZ 0 b) y = Ok y' ∧
        fills scalar_value (λ idx, ∃ n, idx = [n; iy; jy; ch]) y y'.
Proof.
  intros Hwf Hs Hiy Hjy Hch.
  edestruct (foldM_fills scalar_value (λ n idx, idx = [n; iy; jy; ch]))
    as (y' & Hy' & Hfill); [| exact Hwf | exact Hs |].
  2:{ exists y'. split; [exact Hy'|]. eapply fills_weaken; [|exact Hfill].
      intros idx Hin [n ->]. rewrite Hs in Hin. apply in_bounds_4 in Hin.
      exists n. split; [apply elem_of_seqZ; lia | done]. }
  intros n y0 Hn Hwf0 Hs0. apply elem_of_seqZ in Hn. cbv beta.
  eexists. split.
  - eapply bind_intro; [apply (py_range_upto km)|]. cbv beta.
    eapply bind_intro.
    + pose proof (filter_images_v3_tmp (iy * sm) (jy * sn) n ch ltac:(lia) Hch) as Ht.
      rewrite (py_range_upto km), bind_Ok in Ht. exact Ht.
    + unfold setitem. rewrite Hs0, check_index_in_bounds by solve_in_bounds. done.
  - apply fills_write; [done | rewrite Hs0; solve_in_bounds | done].
Qed.

Lemma filter_images_v3_channels y iy jy :
  wf y → shape y = [b; 1 + (xm - km) / sm; 1 + (xn - kn) / sn; no] →
  0 ≤ iy < 1 + (xm - km) / sm → 0 ≤ jy < 1 + (xn - kn) / sn →
  ∃ y', foldM (λ y output_chan,
          items ← py_range 0 b 1;
          foldM (λ y item,
            hs ← py_range 0 km 1;
            tmp ← foldM (λ tmp h,
              ws ← py_range 0 kn 1;
              foldM (λ tmp w,
                ichans ← py_range 0 ni 1;
                foldM (λ tmp input_chan,
                  c ← getitem (chunk4 images b km kn ci (iy * sm) (jy * sn))
                              [item; h; w; input_chan];
                  f ← getitem filters [h; w; input_chan; output_chan];
                  Ok (tmp + c * f)) ichans tmp) ws tmp) hs 0;
            setitem y [item; iy; jy; output_chan] tmp) items y) (seqZ 0 no) y = Ok y' ∧
        fills scalar_value (λ idx, ∃ n c, idx = [n; iy; jy; c]) y y'.
Proof.
  intros Hwf Hs Hiy Hjy.
  edestruct (foldM_fills scalar_value (λ c idx, ∃ n, idx = [n; iy; jy; c]))
    as (y' & Hy' & Hfill); [| exact Hwf | exact Hs |].
  2:{ exists y'. split; [exact Hy'|]. eapply fills_weaken; [|exact Hfill].
      intros idx Hin (n & c & ->). rewrite Hs in Hin. apply in_bounds_4 in Hin.
      exists c. split; [apply elem_of_seqZ; lia | by exists n]. }
  intros c y0 Hc Hwf0 Hs0. apply elem_of_seqZ in Hc. cbv beta.
  rewrite (py_range_upto b), bind_Ok.
  apply filter_images_v3_items; [done | done | lia | lia | lia].
Qed.

Lemma filter_images_v3_cols y iy :
  wf y → shape y = [b; 1 + (xm - km) / sm; 1 + (xn - kn) / sn; no] →
  0 ≤ iy < 1 + (xm - km) / sm →
  ∃ y', foldM (λ y '(jy, jx),
          chunk ← getslice images
                    [SFull; SRange (iy * sm) (iy * sm + km); SRange jx (jx + kn); SFull];
          ochans ← py_range 0 no 1;
          foldM (λ y output_chan,
            items ← py_range 0 b 1;
            foldM (λ y item,
              hs ← py_range 0 km 1;
              tmp ← foldM (λ tmp h,
                ws ← py_range 0 kn 1;
                foldM (λ tmp w,
                  ichans ← py_range 0 ni 1;
                  foldM (λ tmp input_chan,
                    c ← getitem chunk [item; h; w; input_chan];
                    f ← getitem filters [h; w; input_chan; output_chan];
                    Ok (tmp + c * f)) ichans tmp) ws tmp) hs 0;
              setitem y [item; iy; jy; output_chan] tmp) items y) ochans y)
          ((λ k, (k, k * sn)) <$> seqZ 0 (1 + (xn - kn) / sn)) y = Ok y' ∧
        fills scalar_value (λ idx, ∃ n j c, idx = [n; iy; j; c]) y y'.
Proof.
  intros Hwf Hs Hiy.
  edestruct (foldM_fills scalar_value
               (λ (x : Z * Z) idx, ∃ n c, idx = [n; iy; x.1; c]))
    as (y' & Hy' & Hfill); [| exact Hwf | exact Hs |].
  2:{ exists y'. split; [exact Hy'|]. eapply fills_weaken; [|exact Hfill].
      intros idx Hin (n & j & c & ->). rewrite Hs in Hin. apply in_bounds_4 in Hin.
      exists (j, j * sn). split; [|by exists n, c].
      apply list_elem_of_fmap. exists j. split; [done|]. apply elem_of_seqZ. lia. }
  intros x y0 Hx Hwf0 Hs0.
  apply list_elem_of_fmap in Hx as (jy & -> & Hjy). apply elem_of_seqZ in Hjy.
  cbv beta iota. cbn [fst].
  destruct (stride_in_window xm km sm iy) as [? ?]; [lia..|].
  destruct (stride_in_window xn kn sn jy) as [? ?]; [lia..|].
  rewrite (getslice_chunk4 _ _ _ _ _ _ _ _ _ Himages) by lia.
  rewrite bind_Ok, (py_range_upto no), bind_Ok.
  apply filter_images_v3_channels; [done | done | lia | lia].
Qed.

Lemma filter_images_v3_rows y :
  wf y → shape y = [b; 1 + (xm - km) / sm; 1 + (xn - kn) / sn; no] →
  ∃ y', foldM (λ y '(iy, ix),
          cols ← py_range 0 (xn - kn + 1) sn;
          foldM (λ y '(jy, jx),
            chunk ← getslice images
                      [SFull; SRange ix (ix + km); SRange jx (jx + kn); SFull];
            ochans ← py_range 0 no 1;
            foldM (λ y output_chan,
              items ← py_range 0 b 1;
              foldM (λ y item,
                hs ← py_range 0 km 1;
                tmp ← foldM (λ tmp h,
                  ws ← py_range 0 kn 1;
                  foldM (λ tmp w,
                    ichans ← py_range 0 ni 1;
                    foldM (λ tmp input_chan,
                      c ← getitem chunk [item; h; w; input_chan];
                      f ← getitem filters [h; w; input_chan; output_chan];
                      Ok (tmp + c * f)) ichans tmp) ws tmp) hs 0;
                setitem y [item; iy; jy; output_chan] tmp) items y) ochans y)
            (enumerate cols) y)
          ((λ k, (k, k * sm)) <$> seqZ 0 (1 + (xm - km) / sm)) y = Ok y' ∧
        fills scalar_value (λ idx, in_bounds (shape y) idx) y y'.
Proof.
  intros Hwf Hs.
  edestruct (foldM_fills scalar_value
               (λ (x : Z * Z) idx, ∃ n j c, idx = [n; x.1; j; c]))
    as (y' & Hy' & Hfill); [| exact Hwf | exact Hs |].
  2:{ exists y'. split; [exact Hy'|]. eapply fills_weaken; [|exact Hfill].
      intros idx Hin _. rewrite Hs in Hin.
      apply in_bounds_4_inv in Hin as (n & i & j & c & -> & _ & Hi & _).
      exists (i, i * sm). split; [|by exists n, j, c].
      apply list_elem_of_fmap. exists i. split; [done|]. apply elem_of_seqZ. lia. }
  intros x y0 Hx Hwf0 Hs0.
  apply list_elem_of_fmap in Hx as (iy & -> & Hiy). apply elem_of_seqZ in Hiy.
  cbv beta iota. cbn [fst].
  rewrite (py_range_stride (xn - kn + 1) sn) by lia.
  rewrite bind_Ok, enumerate_fmap_seqZ, range_stop_simpl.
  apply filter_images_v3_cols; [done | done | lia].
Qed.

(** The loop nest of [filter_images_v3] runs to completion whenever the image
    has at least the filter bank's input channels. *)
Lemma filter_images_v3_loops :
  ∃ y, filter_images_v3 images filters biases (sm, sn) = np_iadd y biases ∧ wf y ∧
       shape y = [b; 1 + (xm - km) / sm; 1 + (xn - kn) / sn; no] ∧
       ∀ idx, in_bounds (shape y) idx → item y idx = scalar_value idx.
Proof.
  pose proof (extent_pos xm km sm Hsm ltac:(lia)).
  pose proof (extent_pos xn kn sn Hsn ltac:(lia)).
  assert (Hnn : Forall (λ d, 0 ≤ d) [b; 1 + (xm - km) / sm; 1 + (xn - kn) / sn; no])
    by (repeat (apply List.Forall_cons; [lia|]); apply List.Forall_nil).
  unfold filter_images_v3. rewrite Himages, Hfilters. cbn [unpack3 unpack4].
  rewrite !bind_Ok. rewrite !floordiv_Ok, !bind_Ok by lia.
  rewrite (np_zeros_Ok _ Hnn), bind_Ok.
  rewrite (py_range_stride (xm - km + 1) sm) by lia.
  rewrite bind_Ok, enumerate_fmap_seqZ, range_stop_simpl.
  destruct (filter_images_v3_rows _ (wf_zeros _ Hnn) eq_refl) as (y' & Hy' & Hfill).
  exists y'. split; [by eapply bind_intro|].
  split; [by eapply fills_wf, wf_zeros|].
  destruct Hfill as (Hs & _ & Hval). split; [exact Hs|].
  intros idx Hin. rewrite Hs in Hin. by apply Hval.
Qed.

(** [filter_images_v3] on a well-shaped input. *)
Lemma filter_images_v3_correct :
  ∃ y, filter_images_v3 images filters biases (sm, sn) = Ok y ∧ wf y ∧
       shape y = [b; 1 + (xm - km) / sm; 1 + (xn - kn) / sn; no] ∧
       ∀ n i j c, in_bounds (shape y) [n; i; j; c] →
         item y [n; i; j; c] = scalar_value [n; i; j; c] + item biases [bc_axis l c].
Proof.
  destruct filter_images_v3_loops as (y' & -> & Hwf & Hs & Hval).
  pose proof Hwf as [Hnn _]. rewrite Hs in Hnn.
  rewrite (np_iadd_bias _ _ _ _ _ _ _ Hs Hbiases Hbl).
  eexists. split; [done|]. split; [by apply wf_build|]. split; [done|].
  intros n i j c Hin. cbn [shape build] in Hin.
  rewrite item_add_bias by done. f_equal. apply Hval. by rewrite Hs.
Qed.

End FilterImagesV3.

Lemma iterate_batch batch b xm xn ci :
  shape batch = [b; xm; xn; ci] →
  iterate batch = Ok (image_at batch xm xn ci <$> seqZ 0 b).
Proof.
  intros Hs. unfold iterate. rewrite Hs. apply mapM_pure.
  intros n Hn. apply elem_of_seqZ in Hn.
  unfold getslice. rewrite Hs. cbn [resolve resolve_spec].
  rewrite check_axis_in_range by lia. done.
Qed.

Lemma window_image_at batch filters xm xn ci km kn cb ni ix jx ch n :
  bc_dim ni ci = Ok cb → 0 ≤ ix → ix + km ≤ xm → 0 ≤ jx → jx + kn ≤ xn →
  window (image_at batch xm xn ci n) filters [] km kn cb ni ci ix jx ch
  = window batch filters [n] km kn cb ni ci ix jx ch.
Proof.
  intros Hbc ? ? ? ?. unfold window.
  apply sumZ_ext; intros h Hh. apply sumZ_ext; intros w Hw.
  apply sumZ_ext; intros c Hc. pose proof (bc_axis_bounds_r _ _ _ _ Hbc Hc).
  cbn [app]. unfold image_at. rewrite item_build by solve_in_bounds. done.
Qed.

Lemma np_array_Ok y ys s :
  Forall (λ a, shape a = s) (y :: ys) →
  np_array (y :: ys) = Ok (NdArray (Z.of_nat (length (y :: ys)) :: s)
                                   (mjoin (data <$> y :: ys))).
Proof.
  intros H. unfold np_array.
  assert (Hy : shape y = s) by by inversion H.
  rewrite (proj2 (forallb_forall _ _)); [by rewrite Hy|].
  intros a Ha. apply bool_decide_eq_true_2. rewrite Forall_forall in H.
  rewrite Hy. apply H. by apply list_elem_of_In.
Qed.

Lemma length_stack (ys : list ndarray) s :
  Forall (λ a, wf a ∧ shape a = s) ys →
  Z.of_nat (length (mjoin (data <$> ys))) = Z.of_nat (length ys) * size s.
Proof.
  induction 1 as [|y ys [[_ Hl] Hs] _ IH]; [done|].
  change (mjoin (data <$> y :: ys)) with (data y ++ mjoin (data <$> ys)).
  rewrite length_app. cbn [length].
  rewrite Hs in Hl. rewrite Nat2Z.inj_add, IH, Hl, Nat2Z.inj_succ. lia.
Qed.

Lemma item_stack (ys : list ndarray) d s n y idx :
  Forall (λ a, wf a ∧ shape a = s) ys →
  0 ≤ n → ys !! Z.to_nat n = Some y → in_bounds s idx →
  item (NdArray (d :: s) (mjoin (data <$> ys))) (n :: idx) = item y idx.
Proof.
  intros Hall Hn Hy Hin. unfold item. cbn [shape data ravel].
  assert (Hyin : wf y ∧ shape y = s).
  { rewrite Forall_forall in Hall. apply Hall. by eapply list_elem_of_lookup_2. }
  destruct Hyin as [[_ Hlen] Hs]. rewrite Hs in *.
  pose proof (ravel_bounds _ _ Hin) as Hr.
  pose proof (size_nonneg _ (in_bounds_nonneg _ _ Hin)) as Hsz.
  apply nth_lookup_Some.
  replace (Z.to_nat (n * size s + ravel s idx))
    with (Z.to_nat n * Z.to_nat (size s) + Z.to_nat (ravel s idx))%nat by nia.
  apply (join_lookup_Some_same_length' (Z.to_nat (size s))); [| lia |].
  - apply Forall_fmap. eapply Forall_impl; [exact Hall|].
    intros a [[_ Ha] Hsa]. cbn. rewrite Hsa in Ha. lia.
  - exists (data y). split; [by rewrite list_lookup_fmap, Hy|].
    destruct (lookup_lt_is_Some_2 (data y) (Z.to_nat (ravel s idx))) as [x Hx]; [lia|].
    by rewrite (nth_lookup_Some _ _ 0 _ Hx).
Qed.

Section FilterImagesV1.
Variables (batch filters biases : ndarray).
Variables (b xm xn ci km kn ni no cb l sm sn : Z).
Hypothesis Hbatch : shape batch = [b; xm; xn; ci].
Hypothesis Hfilters : shape filters = [km; kn; ni; no].
Hypothesis Hbiases : shape biases = [l].
Hypothesis Hbc : bc_dim ni ci = Ok cb.
Hypothesis Hbl : bc_dim no l = Ok no.
Hypothesis Hsm : 1 ≤ sm.
Hypothesis Hsn : 1 ≤ sn.
Hypothesis Hkm : 0 ≤ km ≤ xm.
Hypothesis Hkn : 0 ≤ kn ≤ xn.
Hypothesis Hno : 0 ≤ no.
Hypothesis Hb : 1 ≤ b.

(** The list comprehension and [np.array] of [filter_images_v1] succeed on a
    non-empty batch; what remains is [outputs + biases]. *)
Lemma filter_images_v1_stack :
  ∃ y, filter_images_v1 batch filters biases (sm, sn) = np_add y biases ∧ wf y ∧
       shape y = [b; 1 + (xm - km) / sm; 1 + (xn - kn) / sn; no] ∧
       ∀ idx, in_bounds (shape y) idx →
         item y idx = batch_value batch filters ci km kn ni cb sm sn idx.
Proof.
  pose proof (extent_pos xm km sm Hsm ltac:(lia)).
  pose proof (extent_pos xn kn sn Hsn ltac:(lia)).
  set (s3 := [1 + (xm - km) / sm; 1 + (xn - kn) / sn; no]).
  assert (Hnn : Forall (λ d, 0 ≤ d) (b :: s3))
    by (repeat (apply List.Forall_cons; [lia|]); apply List.Forall_nil).
  unfold filter_images_v1. rewrite (iterate_batch _ _ _ _ _ Hbatch), bind_Ok.
  destruct (mapM_Forall2 (λ image, filter_image image filters (sm, sn))
              (λ image y, wf y ∧ shape y = s3 ∧
                 ∀ idx, in_bounds s3 idx →
                   item y idx = filter_image_value image filters ci km kn ni cb sm sn idx)
              (image_at batch xm xn ci <$> seqZ 0 b)) as (ys & Hys & HQ).
  { intros x Hx. apply list_elem_of_fmap in Hx as (n & -> & Hn).
    destruct (filter_image_correct (image_at batch xm xn ci n) filters
                xm xn ci km kn ni no cb sm sn) as (y & Hy & Hwf & Hs & Hval);
      [done..|].
    exists y. split; [done|]. split; [done|]. split; [done|].
    intros idx Hin. apply Hval. by rewrite Hs. }
  rewrite Hys, bind_Ok.
  assert (Hall : Forall (λ a, wf a ∧ shape a = s3) ys).
  { clear Hys. induction HQ as [|? ? ? ? (? & ? & _)]; constructor; auto. }
  assert (Hlen : Z.of_nat (length ys) = b).
  { rewrite <- (Forall2_length _ _ _ HQ), length_fmap, length_seqZ. lia. }
  destruct ys as [|y0 ys']; [simpl in Hlen; lia|].
  rewrite (np_array_Ok _ _ s3), bind_Ok
    by (eapply Forall_impl; [exact Hall | by intros ? [_ ?]]).
  eexists. split; [done|]. cbn [shape]. rewrite Hlen.
  split. { split; [done|]. cbn [shape data]. by rewrite (length_stack _ s3), Hlen. }
  split; [done|].
  intros idx Hin. apply in_bounds_4_inv in Hin as (n & i & j & c & -> & Hn & Hi & Hj & Hc).
  assert (Himg : (image_at batch xm xn ci <$> seqZ 0 b) !! Z.to_nat n
                 = Some (image_at batch xm xn ci n)).
  { rewrite list_lookup_fmap, lookup_seqZ_lt by lia. cbn. do 2 f_equal. lia. }
  destruct (Forall2_lookup_l _ _ _ _ _ HQ Himg) as (y & Hy & _ & _ & Hval).
  rewrite (item_stack _ b s3 n y) by (done || lia || solve_in_bounds).
  rewrite Hval by solve_in_bounds. cbn [filter_image_value batch_value].
  destruct (stride_in_window xm km sm i) as [? ?]; [lia..|].
  destruct (stride_in_window xn kn sn j) as [? ?]; [lia..|].
  by apply window_image_at.
Qed.

(** [filter_images_v1] on a well-shaped, non-empty batch. *)
Lemma filter_images_v1_correct :
  ∃ y, filter_images_v1 batch filters biases (sm, sn) = Ok y ∧ wf y ∧
       shape y = [b; 1 + (xm - km) / sm; 1 + (xn - kn) / sn; no] ∧
       ∀ n i j c, in_bounds (shape y) [n; i; j; c] →
         item y [n; i; j; c] =
         batch_value batch filters ci km kn ni cb sm sn [n; i; j; c]
         + item biases [bc_axis l c].
Proof.
  destruct filter_images_v1_stack as (y' & -> & Hwf & Hs & Hval).
  pose proof Hwf as [Hnn _]. rewrite Hs in Hnn.
  unfold np_add, broadcast_op. rewrite Hs, Hbiases.
  rewrite (broadcast_shapes_4_1 _ _ _ _ _ _ Hbl), bind_Ok.
  eexists. split; [done|]. split; [by apply wf_build|]. split; [done|].
  intros n i j c Hin. cbn [shape build] in Hin.
  rewrite item_add_bias by done. f_equal. apply Hval. by rewrite Hs.
Qed.

End FilterImagesV1.

Lemma wf_shape4 a d0 d1 d2 d3 :
  wf a → shape a = [d0; d1; d2; d3] → 0 ≤ d0 ∧ 0 ≤ d1 ∧ 0 ≤ d2 ∧ 0 ≤ d3.
Proof.
  intros [H _] Hs. rewrite Hs in H.
  rewrite !Forall_cons in H. tauto.
Qed.

Lemma window_contract images filters biases kH kW Cin sH sW n i j c :
  window images filters [n] kH kW Cin Cin Cin (i * sH) (j * sW) c + item biases [c]
  = contract images filters biases kH kW Cin sH sW n i j c.
Proof.
  unfold window, contract. rewrite Z.add_comm. f_equal.
  apply sumZ_ext; intros dh _. apply sumZ_ext; intros dw _.
  apply sumZ_ext; intros k Hk. rewrite bc_axis_id by done. cbn [app]. lia.
Qed.

Lemma scalar_contract images filters biases kH kW Cin sH sW n i j c :
  scalar_window images filters kH kW Cin n (i * sH) (j * sW) c + item biases [c]
  = contract images filters biases kH kW Cin sH sW n i j c.
Proof. unfold scalar_window, contract. lia. Qed.

(** Every variant meets the contract on a valid input; the per-image variant
    needs a non-empty batch. *)
Lemma run_contract v images filters biases strides B H W Cin kH kW Cout sH sW :
  valid_input images filters biases strides B H W Cin kH kW Cout sH sW →
  (v = V1 → 1 ≤ B) →
  ∃ y, run v images filters biases strides = Ok y ∧ wf y ∧
       shape y = [B; out_extent H kH sH; out_extent W kW sW; Cout] ∧
       ∀ n i j c, 0 ≤ n < B → 0 ≤ i < out_extent H kH sH →
         0 ≤ j < out_extent W kW sW → 0 ≤ c < Cout →
         item y [n; i; j; c] = contract images filters biases kH kW Cin sH sW n i j c.
Proof.
  intros (Hwi & Hwf & Hwb & Hi & Hf & Hb & -> & HsH & HsW & HkH & HkW) HB.
  destruct (wf_shape4 _ _ _ _ _ Hwi Hi) as (? & ? & ? & ?).
  destruct (wf_shape4 _ _ _ _ _ Hwf Hf) as (? & ? & ? & ?).
  unfold out_extent. destruct v; cbn [run].
  - specialize (HB eq_refl).
    destruct (filter_images_v1_correct images filters biases B H W Cin kH kW Cin
                Cout Cin Cout sH sW) as (y & Hy & Hwy & Hs & Hval);
      [done | done | done | apply bc_dim_same | apply bc_dim_same | lia..|].
    exists y. split; [done|]. split; [done|]. split; [done|].
    intros n i j c Hn Hi' Hj Hc.
    rewrite Hval by (rewrite Hs; solve_in_bounds).
    rewrite bc_axis_id by done. apply window_contract.
  - destruct (filter_images_v2_correct images filters biases B H W Cin kH kW Cin
                Cout Cin Cout sH sW) as (y & Hy & Hwy & Hs & Hval);
      [done | done | done | apply bc_dim_same | apply bc_dim_same | lia..|].
    exists y. split; [done|]. split; [done|]. split; [done|].
    intros n i j c Hn Hi' Hj Hc.
    rewrite Hval by (rewrite Hs; solve_in_bounds).
    rewrite bc_axis_id by done. apply window_contract.
  - destruct (filter_images_v3_correct images filters biases B H W Cin kH kW Cin
                Cout Cout sH sW) as (y & Hy & Hwy & Hs & Hval);
      [done | done | done | lia | apply bc_dim_same | lia..|].
    exists y. split; [done|]. split; [done|]. split; [done|].
    intros n i j c Hn Hi' Hj Hc.
    rewrite Hval by (rewrite Hs; solve_in_bounds).
    rewrite bc_axis_id by done. apply scalar_contract.
Qed.


(** ** Bias, empty batches and broadcast channels *)

Lemma item_all_zero a idx : (∀ x, x ∈ data a → x = 0) → item a idx = 0.
Proof.
  intros H. unfold item. rewrite nth_lookup.
  destruct (data a !! _) as [x|] eqn:E; [|done].
  apply H. by eapply list_elem_of_lookup_2.
Qed.


Lemma wf_empty a : wf a → size (shape a) = 0 → data a = [].
Proof. intros [_ Hl] Hs. apply length_zero_iff_nil. lia. Qed.


(** C9.  On an empty image batch with an otherwise valid filter bank, bias
    vector and strides, [filter_images_v2] completes and returns an array of
    shape (0, 1 + floor((H-kH)/sH), 1 + floor((W-kW)/sW), Cout) that holds no
    element. *)
Theorem filter_images_v2_empty_batch images filters biases strides
    H W Cin kH kW Cout sH sW :
  valid_input images filters biases strides 0 H W Cin kH kW Cout sH sW →
  filter_images_v2 images filters biases strides
  = Ok (NdArray [0; 1 + (H - kH) / sH; 1 + (W - kW) / sW; Cout] []).
Proof.
  intros Hvalid.
  destruct (run_contract V2 _ _ _ _ _ _ _ _ _ _ _ _ _ Hvalid) as (y & Hy & Hwf & Hs & _);
    [done|].
  cbn [run] in Hy. rewrite Hy. f_equal. destruct y as [s d]. cbn in *. subst s.
  f_equal. apply (wf_empty _ Hwf). done.
Qed.

(** C10.  [filter_image] does not refuse every disagreement of the two
    input-channel counts: when they differ and one of them is 1 (and the
    geometry is valid), the product of the filter slice and the image chunk
    broadcasts the size-1 channel axis, and the call returns an array of the
    normal output shape (outH, outW, Cout). *)
Theorem filter_image_broadcasts_channels image filters sH sW H W Ci kH kW Cf Cout :
  shape image = [H; W; Ci] → shape filters = [kH; kW; Cf; Cout] →
  1 ≤ sH → 1 ≤ sW → 0 ≤ kH ≤ H → 0 ≤ kW ≤ W → 0 ≤ Cout →
  Ci ≠ Cf → Ci = 1 ∨ Cf = 1 →
  ∃ y, filter_image image filters (sH, sW) = Ok y ∧
       shape y = [1 + (H - kH) / sH; 1 + (W - kW) / sW; Cout].
Proof.
  intros Hi Hf HsH HsW HkH HkW HCout _ Hone.
  assert (Hbc : ∃ cb, bc_dim Cf Ci = Ok cb).
  { destruct Hone as [-> | ->]; eauto using bc_dim_one_l, bc_dim_one_r. }
  destruct Hbc as [cb Hbc].
  destruct (filter_image_correct image filters H W Ci kH kW Cf Cout cb sH sW)
    as (y & Hy & _ & Hs & _); [done..|].
  by exists y.
Qed.

(** ** Inputs the variants refuse *)


Lemma mapM_head_Raise {A B} (f : A → result B) x l e :
  f x = Raise e → mapM f (x :: l) = Raise e.
Proof. intros H. simpl. by rewrite H. Qed.

Lemma bind_Raise {A B} (m : result A) (k : A → result B) e :
  m = Raise e → m ≫= k = Raise e.
Proof. by intros ->. Qed.


Lemma filter_image_negative_extent image filters sH sW H W Ci kH kW Cf Cout :
  shape image = [H; W; Ci] → shape filters = [kH; kW; Cf; Cout] →
  1 ≤ sH → 1 ≤ sW →
  out_extent H kH sH < 0 ∨ out_extent W kW sW < 0 →
  filter_image image filters (sH, sW) = Raise ValueError.
Proof.
  intros Hi Hf HsH HsW Hneg. unfold filter_image. rewrite Hi, Hf. cbn [unpack3 unpack4].
  rewrite !bind_Ok. rewrite !floordiv_Ok, !bind_Ok by lia.
  rewrite np_zeros_negative; [done|]. unfold out_extent in Hneg.
  rewrite !Exists_cons. tauto.
Qed.

Lemma filter_images_v2_negative_extent images filters biases sH sW B H W Ci kH kW Cf Cout :
  shape images = [B; H; W; Ci] → shape filters = [kH; kW; Cf; Cout] →
  1 ≤ sH → 1 ≤ sW →
  out_extent H kH sH < 0 ∨ out_extent W kW sW < 0 →
  filter_images_v2 images filters biases (sH, sW) = Raise ValueError.
Proof.
  intros Hi Hf HsH HsW Hneg. unfold filter_images_v2. rewrite Hi, Hf. cbn [unpack3 unpack4].
  rewrite !bind_Ok. rewrite !floordiv_Ok, !bind_Ok by lia.
  rewrite np_zeros_negative; [done|]. unfold out_extent in Hneg.
  rewrite !Exists_cons. tauto.
Qed.

Lemma filter_images_v3_negative_extent images filters biases sH sW B H W Ci kH kW Cf Cout :
  shape images = [B; H; W; Ci] → shape filters = [kH; kW; Cf; Cout] →
  1 ≤ sH → 1 ≤ sW →
  out_extent H kH sH < 0 ∨ out_extent W kW sW < 0 →
  filter_images_v3 images filters biases (sH, sW) = Raise ValueError.
Proof.
  intros Hi Hf HsH HsW Hneg. unfold filter_images_v3. rewrite Hi, Hf. cbn [unpack3 unpack4].
  rewrite !bind_Ok. rewrite !floordiv_Ok, !bind_Ok by lia.
  rewrite np_zeros_negative; [done|]. unfold out_extent in Hneg.
  rewrite !Exists_cons. tauto.
Qed.

(** The first image of a non-empty batch decides whether the list
    comprehension of [filter_images_v1] raises. *)
Lemma filter_images_v1_first_Raise batch filters biases strides B H W Ci e :
  shape batch = [B; H; W; Ci] → 1 ≤ B →
  filter_image (image_at batch H W Ci 0) filters strides = Raise e →
  filter_images_v1 batch filters biases strides = Raise e.
Proof.
  intros Hb HB Hfirst. unfold filter_images_v1.
  rewrite (iterate_batch _ _ _ _ _ Hb), bind_Ok.
  rewrite (seqZ_cons 0 B) by lia. rewrite fmap_cons.
  apply bind_Raise. by apply mapM_head_Raise.
Qed.

(** C5 (as amended).  When an output extent 1 + floor((H-kH)/sH) or
    1 + floor((W-kW)/sW) is negative, that is when the filter exceeds the image
    by more than one stride, [np.zeros] refuses the output shape:
    [filter_images_v2] and [filter_images_v3] raise ValueError, and so does
    [filter_images_v1] on a non-empty batch. *)
Theorem negative_extent_raises images filters biases sH sW B H W Ci kH kW Cf Cout :
  shape images = [B; H; W; Ci] → shape filters = [kH; kW; Cf; Cout] →
  1 ≤ sH → 1 ≤ sW →
  out_extent H kH sH < 0 ∨ out_extent W kW sW < 0 →
  run V2 images filters biases (sH, sW) = Raise ValueError ∧
  run V3 images filters biases (sH, sW) = Raise ValueError ∧
  (1 ≤ B → run V1 images filters biases (sH, sW) = Raise ValueError).
Proof.
  intros Hi Hf HsH HsW Hneg. cbn [run]. split; [|split].
  - by eapply filter_images_v2_negative_extent.
  - by eapply filter_images_v3_negative_extent.
  - intros HB. eapply filter_images_v1_first_Raise; [done..|].
    by eapply filter_image_negative_extent.
Qed.




Section ChannelMismatch.
Variables (filters biases : ndarray) (sH sW B H W Ci kH kW Cf Cout : Z).
Hypothesis Hf : shape filters = [kH; kW; Cf; Cout].
Hypothesis HsH : 1 ≤ sH.
Hypothesis HsW : 1 ≤ sW.
Hypothesis HkH : 0 ≤ kH ≤ H.
Hypothesis HkW : 0 ≤ kW ≤ W.
Hypothesis HCout : 1 ≤ Cout.




End ChannelMismatch.


Lemma call_variant_run G v images filters biases strides :
  call_variant G v images filters biases strides = run v images filters biases strides.
Proof.
  unfold call_variant, load.
  destruct v; by simplify_map_eq.
Qed.

(** ** The heap-level functions against the value-level ones *)

Lemma extends_refl h : Store.extends h h.
Proof. by intros a _. Qed.

Lemma extends_trans h1 h2 h3 :
  Store.extends h1 h2 → Store.extends h2 h3 → Store.extends h1 h3.
Proof.
  intros H12 H23 a Ha. rewrite <- (H12 a Ha). apply H23.
  apply lookup_lt_is_Some.
  rewrite (H12 a Ha).
  by apply lookup_lt_is_Some.
Qed.

Lemma extends_length h h' : Store.extends h h' → (length h ≤ length h')%nat.
Proof.
  intros H. destruct (decide (length h ≤ length h')%nat) as [|Hn]; [done|].
  assert (Hlt : (length h' < length h)%nat) by lia.
  specialize (H _ Hlt). rewrite lookup_ge_None_2 in H by lia.
  symmetry in H. apply lookup_ge_None_1 in H. lia.
Qed.

Lemma extends_app h l : Store.extends h (h ++ l).
Proof. intros a Ha. by rewrite lookup_app_l. Qed.

Lemma extends_insert h h' a x :
  Store.extends h h' → (length h ≤ a)%nat → Store.extends h (<[a := x]> h').
Proof. intros H Ha b Hb. rewrite list_lookup_insert_ne by lia. by apply H. Qed.

Lemma valid_extends h h' r : Store.valid h r → Store.extends h h' → Store.valid h' r.
Proof. intros [Hb Hs] H%extends_length. split; [lia | done]. Qed.

Lemma contents_extends h h' r :
  Store.valid h r → Store.extends h h' → Store.contents h' r = Store.contents h r.
Proof.
  intros [Hb _] H. unfold Store.contents. f_equal.
  rewrite !list_lookup_total_alt, (H _ Hb). done.
Qed.

Lemma contents_owner h a x :
  h !! a = Some x → wf x → Store.contents h (Store.Ref a (shape x) id) = x.
Proof.
  intros Ha Hx. unfold Store.contents. simpl.
  rewrite list_lookup_total_alt, Ha. simpl.
  apply ndarray_ext; [apply wf_build, Hx | done | done |].
  simpl. intros idx Hidx. by apply item_build.
Qed.

Lemma sim_bind {A B A' B'} (R : A → A' → Store.heap → Prop)
    (Q : B → B' → Store.heap → Prop) p (m : Store.M A') k (k' : A' → Store.M B') h :
  Store.sim R p (m h) →
  (∀ x x' h', R x x' h' → Store.sim Q (k x) (k' x' h')) →
  Store.sim Q (p ≫= k) ((m ≫= k') h).
Proof.
  unfold mbind at 2, Store.M_bind. destruct p as [x|e]; simpl.
  - intros (x' & h' & -> & HR) Hk. by apply Hk.
  - by intros ->.
Qed.

Lemma sim_then {A B A'} (R : A → A' → Store.heap → Prop)
    (Q : A → B → Store.heap → Prop) p (m : Store.M A') (k' : A' → Store.M B) h :
  Store.sim R p (m h) →
  (∀ x x' h', R x x' h' → Store.sim Q (Ok x) (k' x' h')) →
  Store.sim Q p ((m ≫= k') h).
Proof.
  unfold mbind, Store.M_bind. destruct p as [x|e]; simpl.
  - intros (x' & h' & -> & HR) Hk. by apply Hk.
  - by intros ->.
Qed.

Lemma sim_lift {A} (r : result A) h :
  Store.sim (λ x x' h', x' = x ∧ h' = h) r (Store.lift r h).
Proof. destruct r; simpl; eauto. Qed.

Lemma sim_weaken {A B} (R R' : A → B → Store.heap → Prop) p m :
  Store.sim R p m → (∀ x y h, R x y h → R' x y h) → Store.sim R' p m.
Proof. destruct p; simpl; [|done]. intros (y & h' & -> & HR) H. eauto. Qed.

Lemma sim_fold_each {A S S'} (I : S → S' → Store.heap → Prop)
    (f : S → A → result S) (body : S' → A → Store.M S') l :
  (∀ x s s' h, x ∈ l → I s s' h → Store.sim I (f s x) (body s' x h)) →
  ∀ s s' h, I s s' h → Store.sim I (foldM f l s) (Store.fold_each l body s' h).
Proof.
  induction l as [|x l IH]; intros Hbody s s' h HI.
  - simpl. eauto.
  - simpl. apply (sim_bind I); [apply Hbody; [left | done]|].
    intros. apply IH; [|done]. intros. apply Hbody; [by right | done].
Qed.

Lemma sim_map_each {A A' B B'} (P : A → A' → Prop) (I : Store.heap → Prop)
    (Q : B → B' → Store.heap → Prop)
    (f : A → result B) (g : A' → Store.M B') l l' :
  Forall2 P l l' →
  (∀ x x' h, P x x' → I h → Store.sim (λ y y' h', Q y y' h' ∧ I h'
      ∧ ∀ z z' , Q z z' h → Q z z' h') (f x) (g x' h)) →
  ∀ h, I h →
  Store.sim (λ ys ys' h', Forall2 (λ y y', Q y y' h') ys ys' ∧ I h' 
      ∧ ∀ z z', Q z z' h → Q z z' h')
    (mapM f l) (Store.map_each g l' h).
Proof.
  intros HF Hf. induction HF as [|x x' l l' HP HF IH]; intros h HI.
  - simpl. eauto 10.
  - simpl. eapply sim_bind; [by apply Hf|].
    intros y y' h1 (HQ & HI1 & Hmono1). simpl in *.
    eapply sim_bind; [by apply IH|].
    intros ys ys' h2 (HQs & HI2 & Hmono2). simpl.
    eexists _, _. split; [done|]. split_and!; [|done|by auto].
    constructor; [by apply Hmono2 | done].
Qed.

Lemma clip_bounds d i : 0 ≤ d → 0 ≤ clip d i ≤ d.
Proof. unfold clip. destruct (Z.ltb_spec i 0); lia. Qed.

Lemma resolve_spec_nonneg d sp a :
  0 ≤ d → resolve_spec d sp = Ok a →
  match a with
  | Keep lo n => 0 ≤ lo ∧ 0 ≤ n ∧ lo + n ≤ d
  | Pick i => 0 ≤ i < d
  end.
Proof.
  intros Hd. destruct sp as [|lo hi|i]; simpl.
  - intros [= <-]. lia.
  - intros [= <-]. pose proof (clip_bounds d lo Hd). pose proof (clip_bounds d hi Hd). lia.
  - destruct (check_axis d i) as [i'|] eqn:E; simpl; [|done].
    intros [= <-]. by eapply check_axis_Ok.
Qed.

Lemma resolve_in_bounds s sps sels :
  Forall (λ d, 0 ≤ d) s → resolve s sps = Ok sels →
  Forall (λ d, 0 ≤ d) (sel_shape sels) ∧
  ∀ idx, in_bounds (sel_shape sels) idx → in_bounds s (sel_index sels idx).
Proof.
  intros Hs. revert sps sels.
  induction Hs as [|d s Hd Hs IH]; intros [|sp sps] sels; simpl.
  - intros [= <-]. simpl. split; [constructor|]. intros idx _. constructor.
  - done.
  - destruct (resolve s []) as [r|] eqn:E; simpl; [|done]. intros [= <-].
    destruct (IH _ _ E) as [Hn Hidx]. simpl. split; [by constructor|].
    intros idx Hin. inversion Hin as [|? i ? idx' Hi Hin']; subst.
    constructor; [lia | by apply Hidx].
  - destruct (resolve_spec d sp) as [a|] eqn:Ea; simpl; [|done].
    destruct (resolve s sps) as [r|] eqn:E; simpl; [|done]. intros [= <-].
    destruct (IH _ _ E) as [Hn Hidx].
    pose proof (resolve_spec_nonneg _ _ _ Hd Ea) as Ha.
    destruct a as [lo n|i]; simpl.
    + split; [constructor; [lia | done]|].
      intros idx Hin. inversion Hin as [|? i ? idx' Hi Hin']; subst.
      constructor; [lia | by apply Hidx].
    + split; [done|]. intros idx Hin. constructor; [lia | by apply Hidx].
Qed.

(** A view denotes the slice of what its source denotes. *)
Lemma getslice_view h r sps :
  Store.valid h r →
  match getslice (Store.contents h r) sps with
  | Ok c => ∃ rc, Store.getslice r sps = Ok rc ∧ Store.valid h rc ∧ Store.contents h rc = c
  | Raise e => Store.getslice r sps = Raise e
  end.
Proof.
  intros [Hb Hs]. unfold getslice, Store.getslice. simpl.
  destruct (resolve (Store.rshape r) sps) as [sels|] eqn:E; simpl; [|done].
  destruct (resolve_in_bounds _ _ _ Hs E) as [Hn Hidx].
  eexists. split; [done|]. split; [by split|].
  unfold Store.contents, build. simpl. f_equal.
  apply list_fmap_ext. intros _ idx Hin%list_elem_of_lookup_2%elem_of_indices.
  simpl. symmetry.
  apply (item_build (Store.rshape r)
           (λ j, item (h !!! Store.base r) (Store.rmap r j))). by apply Hidx.
Qed.

Lemma sim_getslice h hh r sps :
  Store.valid h r →
  Store.sim (λ c rc hh', hh' = hh ∧ Store.valid h rc ∧ Store.contents h rc = c)
    (getslice (Store.contents h r) sps) (Store.lift (Store.getslice r sps) hh).
Proof.
  intros Hr. pose proof (getslice_view h r sps Hr) as H. unfold Store.sim, Store.lift.
  destruct (getslice (Store.contents h r) sps) as [c|e].
  - destruct H as (rc & -> & ?). eauto.
  - by rewrite H.
Qed.

Lemma sim_alloc h x :
  wf x →
  ∃ r h', Store.alloc x h = Ok (r, h') ∧ h' = h ++ [x] ∧ Store.base r = length h
    ∧ Store.valid h' r ∧ Store.contents h' r = x.
Proof.
  intros Hx. eexists _, _. split; [done|]. split; [done|]. split; [done|]. split.
  - split; [simpl; rewrite length_app; simpl; lia | apply Hx].
  - apply contents_owner; [|done]. by rewrite lookup_app_r, Nat.sub_diag.
Qed.

Lemma broadcast_shapes_nonneg s1 s2 s :
  Forall (λ d, 0 ≤ d) s1 → Forall (λ d, 0 ≤ d) s2 →
  broadcast_shapes s1 s2 = Ok s → Forall (λ d, 0 ≤ d) s.
Proof.
  unfold broadcast_shapes. intros H1%Forall_reverse H2%Forall_reverse.
  destruct (bc_rev (reverse s1) (reverse s2)) as [r|] eqn:E; simpl; [|done].
  intros [= <-]. apply Forall_reverse.
  revert H1 H2 r E. generalize (reverse s1) (reverse s2). clear.
  induction l as [|a l IH]; intros [|b l0] H1 H2 r; simpl.
  - by intros [= <-].
  - by intros [= <-].
  - by intros [= <-].
  - destruct (bc_dim a b) as [d|] eqn:Ed; simpl; [|done].
    destruct (bc_rev l l0) as [r'|] eqn:Er; simpl; [|done]. intros [= <-].
    inversion H1; inversion H2; subst. constructor; [|by eapply IH].
    unfold bc_dim in Ed. repeat case_match; simplify_eq; lia.
Qed.

Lemma holds_app h0 a s y hh l :
  Store.holds h0 a s y hh → Store.holds h0 a s y (hh ++ l).
Proof.
  intros (He & Ha & Hy & Hs & Hw). split_and!; try done.
  - eapply extends_trans; [done | apply extends_app].
  - rewrite lookup_app_l; [done|]. by eapply lookup_lt_Some.
Qed.

Lemma holds_contents h0 a s y hh :
  Store.holds h0 a s y hh → Store.contents hh (Store.Ref a s id) = y.
Proof. intros (He & Ha & Hy & <- & Hw). by apply contents_owner. Qed.

Lemma holds_valid h0 a s y hh :
  Store.holds h0 a s y hh → Store.valid hh (Store.Ref a s id).
Proof.
  intros (He & Ha & Hy & <- & Hw). split; [by eapply lookup_lt_Some | apply Hw].
Qed.

Lemma sim_zeros h s :
  Store.sim (λ y ry h', ry = Store.Ref (length h) s id ∧ Store.holds h (length h) s y h')
    (np_zeros s) (Store.np_zeros s h).
Proof.
  unfold Store.np_zeros, np_zeros, mbind, Store.M_bind.
  destruct (forallb (λ d, 0 <=? d) s) eqn:E; simpl; [|done].
  eexists _, _. split; [done|]. split; [done|].
  assert (Hs : Forall (λ d, 0 ≤ d) s).
  { apply Forall_forall. intros d Hd. rewrite forallb_forall in E.
    apply Z.leb_le, E. by apply list_elem_of_In. }
  split_and!; [apply extends_app | done | by rewrite lookup_app_r, Nat.sub_diag | done
              | by apply wf_zeros].
Qed.

Lemma sim_broadcast_op f h hh r1 r2 :
  Store.valid h r1 → Store.valid h r2 → Store.extends h hh →
  Store.sim (λ p rp hh', hh' = hh ++ [p] ∧ Store.base rp = length hh
               ∧ Store.valid hh' rp ∧ Store.contents hh' rp = p ∧ wf p)
    (broadcast_op f (Store.contents h r1) (Store.contents h r2))
    (Store.broadcast_op f r1 r2 hh).
Proof.
  intros H1 H2 He. unfold Store.broadcast_op, mbind, Store.M_bind. simpl.
  rewrite !(contents_extends h hh) by done.
  unfold broadcast_op. simpl.
  destruct (broadcast_shapes (Store.rshape r1) (Store.rshape r2)) as [s|] eqn:E;
    simpl; [|done].
  assert (Hw : wf (build s (λ idx,
     f (item (Store.contents h r1) (bc_index (Store.rshape r1) idx))
       (item (Store.contents h r2) (bc_index (Store.rshape r2) idx))))).
  { apply wf_build. eapply broadcast_shapes_nonneg; [apply H1 | apply H2 | done]. }
  destruct (sim_alloc hh _ Hw) as (r & h' & Ha & -> & Hb & Hv & Hc).
  eexists _, _. split; [exact Ha|]. done.
Qed.

Lemma sim_setitem h0 a s y hh idx v :
  Store.holds h0 a s y hh →
  Store.sim (λ y' _ hh', Store.holds h0 a s y' hh')
    (setitem y idx v) (Store.setitem (Store.Ref a s id) idx v hh).
Proof.
  intros (He & Ha & Hy & Hs & Hw).
  unfold Store.setitem, setitem, mbind at 2, Store.M_bind. simpl. rewrite Hs.
  destruct (check_index s idx) as [idx'|] eqn:E; simpl; [|done].
  eexists _, _. split; [done|].
  rewrite list_lookup_total_alt, Hy. simpl.
  split_and!; [by apply extends_insert | done | | done | by apply wf_write].
  apply list_lookup_insert_eq. by eapply lookup_lt_Some.
Qed.

Lemma M_bind_Ok {A B} (m : Store.M A) (k : A → Store.M B) h x h' :
  m h = Ok (x, h') → (m ≫= k) h = k x h'.
Proof. unfold mbind, Store.M_bind. by intros ->. Qed.

Lemma sim_filter_image h image filters strides :
  Store.valid h image → Store.valid h filters →
  Store.sim (λ out r h', Store.extends h h' ∧ (length h ≤ Store.base r)%nat
               ∧ Store.valid h' r ∧ Store.contents h' r = out ∧ wf out)
    (filter_image (Store.contents h image) (Store.contents h filters) strides)
    (Store.filter_image image filters strides h).
Proof.
  intros Hi Hf. destruct strides as [sm sn].
  unfold filter_image, Store.filter_image.
  eapply sim_bind; [apply sim_lift|]. intros [[xm xn] ?] ? ? [-> ->].
  eapply sim_bind; [apply sim_lift|]. intros [[[km kn] ni] no] ? ? [-> ->].
  eapply sim_bind; [apply sim_lift|]. intros qm ? ? [-> ->].
  eapply sim_bind; [apply sim_lift|]. intros qn ? ? [-> ->].
  eapply sim_bind; [apply sim_zeros|]. intros y ? h1 [-> Hy].
  eapply sim_bind; [apply sim_lift|]. intros rows ? ? [-> ->].
  set (s := [1 + qm; 1 + qn; no]) in *.
  eapply sim_then.
  { unfold Store.for_each.
    apply (sim_fold_each (λ y _ hh, Store.holds h (length h) s y hh)); [|exact Hy].
    clear y h1 Hy. intros [iy ix] y [] hh _ Hy.
    eapply sim_bind; [apply sim_lift|]. intros cols ? ? [-> ->].
    apply (sim_fold_each (λ y _ hh, Store.holds h (length h) s y hh)); [|exact Hy].
    clear y hh Hy. intros [jy jx] y [] hh _ Hy.
    eapply sim_bind; [by apply sim_getslice|]. intros chunk rc ? (-> & Hrc & <-).
    eapply sim_bind; [apply sim_lift|]. intros chans ? ? [-> ->].
    apply (sim_fold_each (λ y _ hh, Store.holds h (length h) s y hh)); [|exact Hy].
    clear y hh Hy. intros channel y [] hh _ Hy.
    eapply sim_bind; [by apply sim_getslice|]. intros f rf ? (-> & Hrf & <-).
    eapply sim_bind; [apply (sim_broadcast_op Z.mul); [done | done | apply Hy]|].
    intros p rp ? (-> & Hb & Hv & Hc & Hp).
    erewrite M_bind_Ok by reflexivity. rewrite Hc.
    apply sim_setitem. by apply holds_app. }
  intros y' [] h2 Hy'. simpl. eexists _, _. split; [done|].
  split_and!; [apply Hy' | done | by eapply holds_valid | by eapply holds_contents
              | apply Hy'].
Qed.

Lemma sim_getitem h hh r idx :
  Store.valid h r → Store.extends h hh →
  Store.sim (λ x x' hh', x' = x ∧ hh' = hh)
    (getitem (Store.contents h r) idx) (Store.getitem r idx hh).
Proof.
  intros Hr He. unfold Store.getitem. erewrite M_bind_Ok by reflexivity.
  rewrite (contents_extends h hh) by done. apply sim_lift.
Qed.

Lemma sim_sum_axes123 hh rp p :
  Store.valid hh rp → Store.contents hh rp = p →
  Store.sim (λ v rv hh', hh' = hh ++ [v] ∧ Store.valid hh' rv ∧ Store.contents hh' rv = v)
    (np_sum_axes123 p) (Store.np_sum_axes123 rp hh).
Proof.
  intros [Hb Hs] <-. unfold Store.np_sum_axes123. erewrite M_bind_Ok by reflexivity.
  unfold np_sum_axes123. simpl.
  destruct (Store.rshape rp) as [|b [|x1 [|x2 [|x3 [|]]]]] eqn:E; try done.
  unfold mbind, Store.M_bind. simpl.
  match goal with |- context [Store.alloc ?x] =>
    destruct (sim_alloc hh x) as (r & h' & Ha & -> & _ & Hv & Hc) end.
  { apply wf_build. inversion Hs. by repeat constructor. }
  eexists _, _. split; [exact Ha|]. done.
Qed.

Lemma foldl_write_fills {A} (pos : A → list Z) (val : A → Z) F l y :
  wf y → (∀ x, x ∈ l → in_bounds (shape y) (pos x) ∧ F (pos x) = val x) →
  fills F (λ idx, ∃ x, x ∈ l ∧ idx = pos x) y
    (foldl (λ acc x, write acc (pos x) (val x)) y l).
Proof.
  intros Hw H. apply (foldl_fills F (λ x idx, idx = pos x) _ _ (shape y)); [|done..].
  intros x y0 Hx Hw0 Hs0. destruct (H x Hx) as [Hin HF].
  apply fills_write; [done | by rewrite Hs0 | done].
Qed.

Lemma foldl_write_wf {A} (pos : A → list Z) (val : A → Z) l y :
  wf y →
  wf (foldl (λ acc x, write acc (pos x) (val x)) y l) ∧
  shape (foldl (λ acc x, write acc (pos x) (val x)) y l) = shape y.
Proof.
  revert y. induction l as [|x l IH]; intros y Hw; simpl; [done|].
  destruct (IH (write y (pos x) (val x))) as [H1 H2]; [by apply wf_write|]. done.
Qed.

Lemma sim_setslice h0 a s y hh sps rv v :
  Store.holds h0 a s y hh → Store.contents hh rv = v →
  Store.sim (λ y' _ hh', Store.holds h0 a s y' hh')
    (setslice y sps v) (Store.setslice (Store.Ref a s id) sps rv hh).
Proof.
  intros (He & Ha & Hy & Hs & Hw) <-.
  unfold Store.setslice, setslice. rewrite Hs. simpl.
  eapply sim_bind; [apply sim_lift|]. intros sels ? ? [-> ->].
  eapply sim_bind; [apply sim_lift|]. intros s' ? ? [-> ->].
  erewrite M_bind_Ok by reflexivity.
  destruct (bool_decide (s' = sel_shape sels)); simpl; [|done].
  eexists _, _. split; [done|].
  rewrite list_lookup_total_alt, Hy. simpl.
  match goal with |- Store.holds _ _ _ ?y' _ =>
    destruct (foldl_write_wf (sel_index sels)
      (λ idx, item (Store.contents hh rv) (bc_index (Store.rshape rv) idx))
      (indices (sel_shape sels)) y Hw) as [Hw' Hs'] end.
  split_and!; [by apply extends_insert | done | | congruence | done].
  apply list_lookup_insert_eq. by eapply lookup_lt_Some.
Qed.

Lemma sim_iadd h0 a s y hh rb b :
  Store.holds h0 a s y hh → Store.contents hh rb = b →
  Store.sim (λ y' _ hh', Store.holds h0 a s y' hh')
    (np_iadd y b) (Store.np_iadd (Store.Ref a s id) rb hh).
Proof.
  intros Hh <-. pose proof (holds_contents _ _ _ _ _ Hh) as Hc.
  destruct Hh as (He & Ha & Hy & Hs & Hw).
  unfold Store.np_iadd, np_iadd, np_add, broadcast_op. rewrite Hs. simpl.
  unfold mbind at 3, Store.M_bind. simpl.
  destruct (broadcast_shapes s (Store.rshape rb)) as [s'|] eqn:E; simpl; [|done].
  erewrite M_bind_Ok by reflexivity.
  destruct (bool_decide_reflect (s' = s)) as [-> | Hne]; simpl; [|done].
  rewrite Hc. eexists _, _. split; [done|].
  rewrite list_lookup_total_alt, Hy. simpl.
  set (val := λ idx, item y (bc_index s idx)
                     + item (Store.contents hh rb) (bc_index (Store.rshape rb) idx)).
  destruct (foldl_write_wf id val (indices s) y Hw) as [Hw' Hs'].
  assert (Hfill : fills val (λ idx, ∃ x, x ∈ indices s ∧ idx = id x) y
                    (foldl (λ acc x, write acc (id x) (val x)) y (indices s))).
  { apply foldl_write_fills; [done|]. intros x Hx%elem_of_indices. by rewrite Hs. }
  assert (Heq : foldl (λ acc x, write acc (id x) (val x)) y (indices s) = build s val).
  { apply ndarray_ext; [done | apply wf_build; rewrite <- Hs; apply Hw
                       | by rewrite Hs' |].
    intros idx Hin. rewrite Hs', Hs in Hin. rewrite item_build by done.
    destruct Hfill as (_ & _ & Hf). rewrite Hs in Hf.
    apply (Hf idx Hin). exists idx. split; [by apply elem_of_indices | done]. }
  match goal with |- Store.holds _ _ _ _ (<[a := ?t]> hh) =>
    change t with (foldl (λ acc x, write acc (id x) (val x)) y (indices s)) end.
  rewrite Heq.
  split_and!; [by apply extends_insert | done | | done
              | apply wf_build; rewrite <- Hs; apply Hw].
  apply list_lookup_insert_eq. by eapply lookup_lt_Some.
Qed.

Lemma sim_filter_images_v2 h images filters biases strides :
  Store.valid h images → Store.valid h filters → Store.valid h biases →
  Store.sim (λ out r h', Store.extends h h' ∧ (length h ≤ Store.base r)%nat
               ∧ Store.contents h' r = out)
    (filter_images_v2 (Store.contents h images) (Store.contents h filters)
       (Store.contents h biases) strides)
    (Store.filter_images_v2 images filters biases strides h).
Proof.
  intros Hi Hf Hb. destruct strides as [sm sn].
  unfold filter_images_v2, Store.filter_images_v2.
  eapply sim_bind; [apply sim_lift|]. intros [[[b xm] xn] ?] ? ? [-> ->].
  eapply sim_bind; [apply sim_lift|]. intros [[[km kn] ?] no] ? ? [-> ->].
  eapply sim_bind; [apply sim_lift|]. intros qm ? ? [-> ->].
  eapply sim_bind; [apply sim_lift|]. intros qn ? ? [-> ->].
  eapply sim_bind; [apply sim_zeros|]. intros y ? h1 [-> Hy].
  eapply sim_bind; [apply sim_lift|]. intros rows ? ? [-> ->].
  set (s := [b; 1 + qm; 1 + qn; no]) in *.
  eapply sim_bind.
  { unfold Store.for_each.
    apply (sim_fold_each (λ y _ hh, Store.holds h (length h) s y hh)); [|exact Hy].
    clear y h1 Hy. intros [iy ix] y [] hh _ Hy.
    eapply sim_bind; [apply sim_lift|]. intros cols ? ? [-> ->].
    apply (sim_fold_each (λ y _ hh, Store.holds h (length h) s y hh)); [|exact Hy].
    clear y hh Hy. intros [jy jx] y [] hh _ Hy.
    eapply sim_bind; [by apply sim_getslice|]. intros chunk rc ? (-> & Hrc & <-).
    eapply sim_bind; [apply sim_lift|]. intros chans ? ? [-> ->].
    apply (sim_fold_each (λ y _ hh, Store.holds h (length h) s y hh)); [|exact Hy].
    clear y hh Hy. intros channel y [] hh _ Hy.
    eapply sim_bind; [by apply sim_getslice|]. intros f rf ? (-> & Hrf & <-).
    eapply sim_bind; [apply (sim_broadcast_op Z.mul); [done | done | apply Hy]|].
    intros p rp ? (-> & _ & Hv & Hc & Hp).
    eapply sim_bind; [by apply sim_sum_axes123|].
    intros v rv ? (-> & Hvv & Hcv).
    apply sim_setslice; [by do 2 apply holds_app | done]. }
  intros y' [] h2 Hy'.
  eapply sim_then; [apply sim_iadd; [done | apply contents_extends; [done | apply Hy']]|].
  intros y2 [] h3 Hy2. simpl. eexists _, _. split; [done|].
  split_and!; [apply Hy2 | done | by eapply holds_contents].
Qed.

Lemma sim_filter_images_v3 h images filters biases strides :
  Store.valid h images → Store.valid h filters → Store.valid h biases →
  Store.sim (λ out r h', Store.extends h h' ∧ (length h ≤ Store.base r)%nat
               ∧ Store.contents h' r = out)
    (filter_images_v3 (Store.contents h images) (Store.contents h filters)
       (Store.contents h biases) strides)
    (Store.filter_images_v3 images filters biases strides h).
Proof.
  intros Hi Hf Hb. destruct strides as [sm sn].
  unfold filter_images_v3, Store.filter_images_v3.
  eapply sim_bind; [apply sim_lift|]. intros [[[b xm] xn] ?] ? ? [-> ->].
  eapply sim_bind; [apply sim_lift|]. intros [[[km kn] ni] no] ? ? [-> ->].
  eapply sim_bind; [apply sim_lift|]. intros qm ? ? [-> ->].
  eapply sim_bind; [apply sim_lift|]. intros qn ? ? [-> ->].
  eapply sim_bind; [apply sim_zeros|]. intros y ? h1 [-> Hy].
  eapply sim_bind; [apply sim_lift|]. intros rows ? ? [-> ->].
  set (s := [b; 1 + qm; 1 + qn; no]) in *.
  eapply sim_bind.
  { unfold Store.for_each.
    apply (sim_fold_each (λ y _ hh, Store.holds h (length h) s y hh)); [|exact Hy].
    clear y h1 Hy. intros [iy ix] y [] hh _ Hy.
    eapply sim_bind; [apply sim_lift|]. intros cols ? ? [-> ->].
    apply (sim_fold_each (λ y _ hh, Store.holds h (length h) s y hh)); [|exact Hy].
    clear y hh Hy. intros [jy jx] y [] hh _ Hy.
    eapply sim_bind; [by apply sim_getslice|]. intros chunk rc ? (-> & Hrc & <-).
    eapply sim_bind; [apply sim_lift|]. intros ochans ? ? [-> ->].
    apply (sim_fold_each (λ y _ hh, Store.holds h (length h) s y hh)); [|exact Hy].
    clear y hh Hy. intros output_chan y [] hh _ Hy.
    eapply sim_bind; [apply sim_lift|]. intros items ? ? [-> ->].
    apply (sim_fold_each (λ y _ hh, Store.holds h (length h) s y hh)); [|exact Hy].
    clear y hh Hy. intros item y [] hh _ Hy.
    eapply sim_bind; [apply sim_lift|]. intros hs ? ? [-> ->].
    eapply sim_bind.
    { apply (sim_fold_each (λ (t t' : Z) hh', t' = t ∧ hh' = hh)); [|done].
      intros hx t ? ? _ [-> ->].
      eapply sim_bind; [apply sim_lift|]. intros ws ? ? [-> ->].
      apply (sim_fold_each (λ (t t' : Z) hh', t' = t ∧ hh' = hh)); [|done].
      intros wx t0 ? ? _ [-> ->].
      eapply sim_bind; [apply sim_lift|]. intros ichans ? ? [-> ->].
      apply (sim_fold_each (λ (t t' : Z) hh', t' = t ∧ hh' = hh)); [|done].
      intros input_chan t1 ? ? _ [-> ->].
      eapply sim_bind; [apply sim_getitem; [done | apply Hy]|]. intros c ? ? [-> ->].
      eapply sim_bind; [apply sim_getitem; [done | apply Hy]|]. intros f ? ? [-> ->].
      simpl. eauto. }
    intros tmp ? ? [-> ->]. by apply sim_setitem. }
  intros y' [] h2 Hy'.
  eapply sim_then; [apply sim_iadd; [done | apply contents_extends; [done | apply Hy']]|].
  intros y2 [] h3 Hy2. simpl. eexists _, _. split; [done|].
  split_and!; [apply Hy2 | done | by eapply holds_contents].
Qed.

Lemma mapM_view {A B B'} (P : B → B' → Prop) (f : A → result B) (g : A → result B') l :
  (∀ x, match f x with
        | Ok y => ∃ y', g x = Ok y' ∧ P y y'
        | Raise e => g x = Raise e
        end) →
  match mapM f l with
  | Ok ys => ∃ ys', mapM g l = Ok ys' ∧ Forall2 P ys ys'
  | Raise e => mapM g l = Raise e
  end.
Proof.
  intros H. induction l as [|x l IH]; simpl; [by eauto|].
  specialize (H x). destruct (f x) as [y|e]; simpl.
  - destruct H as (y' & -> & HP). simpl.
    destruct (mapM f l) as [ys|e]; simpl.
    + destruct IH as (ys' & -> & HF). simpl. eauto.
    + by rewrite IH.
  - by rewrite H.
Qed.

Lemma sim_iterate h hh r :
  Store.valid h r →
  Store.sim (λ l l' hh', hh' = hh
               ∧ Forall2 (λ x rx, Store.valid h rx ∧ Store.contents h rx = x) l l')
    (iterate (Store.contents h r)) (Store.lift (Store.iterate r) hh).
Proof.
  intros Hr. unfold iterate, Store.iterate. simpl.
  destruct (Store.rshape r) as [|d s] eqn:E; [done|].
  pose proof (mapM_view (λ x rx, Store.valid h rx ∧ Store.contents h rx = x)
    (λ n, getslice (Store.contents h r) [SIndex n])
    (λ n, Store.getslice r [SIndex n]) (seqZ 0 d)) as H.
  unfold Store.sim, Store.lift.
  destruct (mapM _ (seqZ 0 d)) as [l|e].
  - destruct H as (l' & -> & HF); [intros n; by apply getslice_view|]. eauto.
  - rewrite H; [done|]. intros n; by apply getslice_view.
Qed.

Lemma sim_array hh ys rs :
  Forall2 (λ y r, Store.contents hh r = y ∧ wf y) ys rs →
  Store.sim (λ out r hh', hh' = hh ++ [out] ∧ Store.base r = length hh
               ∧ Store.valid hh' r ∧ Store.contents hh' r = out)
    (np_array ys) (Store.np_array rs hh).
Proof.
  intros HF. unfold Store.np_array. erewrite M_bind_Ok by reflexivity.
  assert (Heq : Store.contents hh <$> rs = ys).
  { clear -HF. induction HF as [|y r ys rs [Hc _] _ IH]; [done|].
    by rewrite fmap_cons, Hc, IH. }
  assert (Hwf : Forall wf ys).
  { clear -HF. induction HF as [|y r ys rs [_ Hw] _ IH]; constructor; auto. }
  rewrite Heq. clear HF Heq.
  unfold mbind, Store.M_bind. simpl.
  assert (Hout : ∀ out, np_array ys = Ok out → wf out).
  { unfold np_array. destruct ys as [|a l]; [intros out [= <-]; by repeat constructor|].
    destruct (forallb _ (a :: l)) eqn:Eall; [|done]. intros out [= <-].
    assert (Hall : Forall (λ x, wf x ∧ shape x = shape a) (a :: l)).
    { rewrite forallb_forall in Eall. rewrite Forall_forall in Hwf. apply Forall_forall.
      intros x Hx. split; [by apply Hwf|].
      apply list_elem_of_In, Eall, bool_decide_eq_true_1 in Hx. done. }
    split.
    - constructor; [lia|]. inversion Hwf as [|? ? [Ha _] _]. done.
    - apply (length_stack (a :: l) (shape a) Hall). }
  destruct (np_array ys) as [out|e]; simpl; [|done].
  destruct (sim_alloc hh out) as (r & h' & Ha & -> & Hb & Hv & Hc); [by apply Hout|].
  eexists _, _. split; [exact Ha|]. done.
Qed.

Lemma sim_filter_images_v1 h batch filters biases strides :
  Store.valid h batch → Store.valid h filters → Store.valid h biases →
  Store.sim (λ out r h', Store.extends h h' ∧ (length h ≤ Store.base r)%nat
               ∧ Store.contents h' r = out)
    (filter_images_v1 (Store.contents h batch) (Store.contents h filters)
       (Store.contents h biases) strides)
    (Store.filter_images_v1 batch filters biases strides h).
Proof.
  intros Hi Hf Hb. unfold filter_images_v1, Store.filter_images_v1.
  eapply sim_bind; [by apply sim_iterate|]. intros images rimages ? [-> Himgs].
  eapply sim_bind.
  { apply (sim_map_each (λ x rx, Store.valid h rx ∧ Store.contents h rx = x)
             (λ hh, Store.extends h hh)
             (λ out r hh, Store.valid hh r ∧ Store.contents hh r = out ∧ wf out));
      [exact Himgs | | apply extends_refl].
    intros x rx hh [Hvx <-] He.
    rewrite <- !(contents_extends h hh) by done.
    eapply sim_weaken;
      [apply sim_filter_image; by apply (valid_extends h hh)|].
    intros out r h' (He' & Hbase & Hv & Hc & Hw). simpl.
    split_and!; [done.. | by eapply extends_trans |].
    intros z z' (Hvz & Hcz & Hwz).
    split_and!; [by apply (valid_extends hh)
                | by rewrite (contents_extends hh) | done]. }
  intros outs routs h1 (HF & He & _).
  eapply sim_bind.
  { apply sim_array. eapply Forall2_impl; [exact HF|]. simpl. tauto. }
  intros out rout ? (-> & Hbase & Hv & Hc).
  assert (He' : Store.extends h (h1 ++ [out]))
    by (eapply extends_trans; [done | apply extends_app]).
  rewrite <- Hc at 1. rewrite <- (contents_extends h (h1 ++ [out]) biases) by done.
  eapply sim_weaken;
    [apply (sim_broadcast_op Z.add);
       [done | by apply (valid_extends h) | apply extends_refl]|].
  intros res r h' (-> & Hbr & Hvr & Hcr & _). simpl.
  split_and!; [by eapply extends_trans; [|apply extends_app] | | done].
  rewrite Hbr, length_app. apply extends_length in He. lia.
Qed.

(** Every variant, run on objects of a heap, returns what the value-level
    function returns on their contents, in a fresh object, and leaves every
    buffer that existed before the call as it was. *)
Lemma sim_run v h images filters biases strides :
  Store.valid h images → Store.valid h filters → Store.valid h biases →
  Store.sim (λ out r h', Store.extends h h' ∧ (length h ≤ Store.base r)%nat
               ∧ Store.contents h' r = out)
    (run v (Store.contents h images) (Store.contents h filters)
       (Store.contents h biases) strides)
    (Store.run v images filters biases strides h).
Proof.
  destruct v; [apply sim_filter_images_v1 | apply sim_filter_images_v2
              | apply sim_filter_images_v3].
Qed.

(** C8.  Every variant is deterministic and depends on no state outside its
    arguments.  Take two calls whose arguments denote the same arrays, in any
    two heaps, whatever else the heaps hold and whether the argument objects
    own their buffers or are views: both raise the same exception, or both
    return, the returned objects denote the same array, and no buffer that
    existed before a call is changed by it.  And the outcome of a call is the
    same under any two global namespaces of the notebook. *)
Theorem variants_deterministic v strides h1 h2 i1 f1 b1 i2 f2 b2 :
  Store.valid h1 i1 → Store.valid h1 f1 → Store.valid h1 b1 →
  Store.valid h2 i2 → Store.valid h2 f2 → Store.valid h2 b2 →
  Store.contents h1 i1 = Store.contents h2 i2 →
  Store.contents h1 f1 = Store.contents h2 f2 →
  Store.contents h1 b1 = Store.contents h2 b2 →
  match Store.run v i1 f1 b1 strides h1, Store.run v i2 f2 b2 strides h2 with
  | Ok (r1, h1'), Ok (r2, h2') =>
      Store.contents h1' r1 = Store.contents h2' r2 ∧
      Store.extends h1 h1' ∧ Store.extends h2 h2'
  | Raise e1, Raise e2 => e1 = e2
  | _, _ => False
  end ∧
  ∀ G1 G2 images filters biases,
    call_variant G1 v images filters biases strides
    = call_variant G2 v images filters biases strides.
Proof.
  intros Hi1 Hf1 Hb1 Hi2 Hf2 Hb2 Ei Ef Eb. split.
  - pose proof (sim_run v h1 i1 f1 b1 strides Hi1 Hf1 Hb1) as S1.
    pose proof (sim_run v h2 i2 f2 b2 strides Hi2 Hf2 Hb2) as S2.
    rewrite Ei, Ef, Eb in S1. unfold Store.sim in S1, S2.
    destruct (run v _ _ _ strides) as [out|e].
    + destruct S1 as (r1 & h1' & -> & He1 & _ & Hc1).
      destruct S2 as (r2 & h2' & -> & He2 & _ & Hc2).
      split_and!; [congruence | done..].
    + by rewrite S1, S2.
  - intros G1 G2 images filters biases. by rewrite !call_variant_run.
Qed.

(** ** The JAX layer [Conv2D] *)

Lemma conv2d_call_adds_ambient_biases conv G self batch out amb :
  conv batch (Conv2D.filters self) (Conv2D.strides self) (Conv2D.padding self) = Ok out →
  G !! "biases" = Some amb →
  Conv2D.call conv G self batch = np_add out amb.
Proof.
  intros Hc HG. unfold Conv2D.call, load. rewrite Hc, bind_Ok. by simplify_map_eq.
Qed.

Lemma conv2d_call_unbound_biases conv G self batch out :
  conv batch (Conv2D.filters self) (Conv2D.strides self) (Conv2D.padding self) = Ok out →
  G !! "biases" = None →
  Conv2D.call conv G self batch = Raise NameError.
Proof.
  intros Hc HG. unfold Conv2D.call, load. rewrite Hc, bind_Ok. by simplify_map_eq.
Qed.

(** ** The claims on concrete inputs *)

(** C1.  The per-image variant does not return an output batch on every valid
    input: on an empty batch with two output channels, [np.array([])] has shape
    (0,) and adding the bias vector of length 2 raises ValueError. *)
Lemma filter_images_v1_empty_batch_raises :
  valid_input ex_empty_batch ex_filters2 ex_biases2 (1, 1) 0 2 2 1 1 1 2 1 1 ∧
  filter_images_v1 ex_empty_batch ex_filters2 ex_biases2 (1, 1) = Raise ValueError.
Proof. split; [solve_valid | reflexivity]. Qed.

(** C2.  On that valid input the three variants do not agree: the per-image
    variant raises, the batched and the scalarised variants return the empty
    batch of shape (0, 2, 2, 2). *)
Lemma variants_differ_on_empty_batch :
  valid_input ex_empty_batch ex_filters2 ex_biases2 (1, 1) 0 2 2 1 1 1 2 1 1 ∧
  run V1 ex_empty_batch ex_filters2 ex_biases2 (1, 1) = Raise ValueError ∧
  run V2 ex_empty_batch ex_filters2 ex_biases2 (1, 1) = Ok (NdArray [0; 2; 2; 2] []) ∧
  run V3 ex_empty_batch ex_filters2 ex_biases2 (1, 1) = Ok (NdArray [0; 2; 2; 2] []).
Proof. split; [solve_valid | by vm_compute]. Qed.

(** C3.  With a single output channel the per-image variant does return on an
    empty batch, but a 1-d array of shape (0,): it has no spatial extents and no
    channel axis, where the shape law gives (0, 2, 2, 1). *)
Lemma filter_images_v1_empty_batch_shape :
  valid_input ex_empty_batch (NdArray [1; 1; 1; 1] [1]) (NdArray [1] [5]) (1, 1)
              0 2 2 1 1 1 1 1 1 ∧
  run V1 ex_empty_batch (NdArray [1; 1; 1; 1] [1]) (NdArray [1] [5]) (1, 1)
  = Ok (NdArray [0] []) ∧
  run V2 ex_empty_batch (NdArray [1; 1; 1; 1] [1]) (NdArray [1] [5]) (1, 1)
  = Ok (NdArray [0; 2; 2; 1] []).
Proof. split; [solve_valid | by vm_compute]. Qed.


(** C5, counterexample.  The filter is one row taller than the image and the
    stride is 1: the output extent is 1 + floor(-1/1) = 0, [np.zeros] accepts
    it, the loops do not run, and every variant returns an empty array. *)
Lemma zero_extent_returns_empty :
  shape ex_images = [1; 3; 3; 1] ∧
  shape (NdArray [4; 1; 1; 1] [1; 1; 1; 1]) = [4; 1; 1; 1] ∧
  out_extent 3 4 1 = 0 ∧
  run V1 ex_images (NdArray [4; 1; 1; 1] [1; 1; 1; 1]) ex_biases (1, 1)
  = Ok (NdArray [1; 0; 3; 1] []) ∧
  run V2 ex_images (NdArray [4; 1; 1; 1] [1; 1; 1; 1]) ex_biases (1, 1)
  = Ok (NdArray [1; 0; 3; 1] []) ∧
  run V3 ex_images (NdArray [4; 1; 1; 1] [1; 1; 1; 1]) ex_biases (1, 1)
  = Ok (NdArray [1; 0; 3; 1] []).
Proof. by vm_compute. Qed.

Lemma negative_extent_raises_witness :
  out_extent 3 5 1 < 0 ∧
  run V2 ex_images (NdArray [5; 1; 1; 1] [1; 1; 1; 1; 1]) ex_biases (1, 1)
  = Raise ValueError ∧
  run V3 ex_images (NdArray [5; 1; 1; 1] [1; 1; 1; 1; 1]) ex_biases (1, 1)
  = Raise ValueError ∧
  run V1 ex_images (NdArray [5; 1; 1; 1] [1; 1; 1; 1; 1]) ex_biases (1, 1)
  = Raise ValueError.
Proof.
  split; [reflexivity|].
  destruct (negative_extent_raises ex_images (NdArray [5; 1; 1; 1] [1; 1; 1; 1; 1])
              ex_biases 1 1 1 3 3 1 5 1 1 1) as (H2 & H3 & H1);
    [reflexivity | reflexivity | lia | lia | left; reflexivity |].
  split; [exact H2 | split; [exact H3 | apply H1; lia]].
Defined.


Lemma variants_deterministic_witness :
  match Store.run V1 ex_images_ref ex_filters_ref ex_biases_ref (1, 1) ex_heap,
        Store.run V1 ex_images_view ex_filters_ref2 ex_biases_ref2 (1, 1) ex_heap2 with
  | Ok (r1, h1'), Ok (r2, h2') =>
      Store.contents h1' r1 = Store.contents h2' r2 ∧
      Store.extends ex_heap h1' ∧ Store.extends ex_heap2 h2'
  | Raise e1, Raise e2 => e1 = e2
  | _, _ => False
  end ∧
  ∀ G1 G2 images filters biases,
    call_variant G1 V1 images filters biases (1, 1)
    = call_variant G2 V1 images filters biases (1, 1).
Proof.
  apply (variants_deterministic V1 (1, 1) ex_heap ex_heap2
           ex_images_ref ex_filters_ref ex_biases_ref
           ex_images_view ex_filters_ref2 ex_biases_ref2);
    try (split; [simpl; lia | repeat constructor; lia]); reflexivity.
Defined.


Lemma filter_images_v2_empty_batch_witness :
  filter_images_v2 ex_empty_batch ex_filters2 ex_biases2 (1, 1)
  = Ok (NdArray [0; 1 + (2 - 1) / 1; 1 + (2 - 1) / 1; 2] []).
Proof.
  apply (filter_images_v2_empty_batch ex_empty_batch ex_filters2 ex_biases2 (1, 1)
           2 2 1 1 1 2 1 1).
  solve_valid.
Defined.

Lemma filter_image_broadcasts_channels_witness :
  ∃ y, filter_image (NdArray [3; 3; 1] [1; 2; 3; 4; 5; 6; 7; 8; 9])
                    (NdArray [1; 1; 2; 1] [1; 10]) (1, 1) = Ok y ∧
       shape y = [1 + (3 - 1) / 1; 1 + (3 - 1) / 1; 1].
Proof.
  apply (filter_image_broadcasts_channels (NdArray [3; 3; 1] [1; 2; 3; 4; 5; 6; 7; 8; 9])
           (NdArray [1; 1; 2; 1] [1; 10]) 1 1 3 3 1 1 1 2 1);
    [reflexivity | reflexivity | lia | lia | lia | lia | lia | lia | left; reflexivity].
Defined.

(** C6.  [Conv2D.__call__] adds the notebook's global [biases], not the
    layer's own.  The layer below carries the bias 100; called in a namespace
    that binds [biases] to [10] it returns the window sums plus 10, where the
    contract with the layer's own bias gives the sums plus 100; called in a
    namespace that does not bind the name it raises NameError. *)
Lemma conv2d_call_reads_ambient_biases :
  let self := Conv2D.Build ex_filters (NdArray [1] [100]) 1 1 (2, 2) (1, 1) "valid" 1234 in
  Conv2D.call Conv2D.conv_valid {["biases" := ex_biases]} self ex_images
  = Ok (NdArray [1; 2; 2; 1] [22; 26; 34; 38]) ∧
  run V2 ex_images (Conv2D.filters self) (Conv2D.biases self) (Conv2D.strides self)
  = Ok (NdArray [1; 2; 2; 1] [112; 116; 124; 128]) ∧
  Conv2D.call Conv2D.conv_valid ∅ self ex_images = Raise NameError.
Proof.
  intros self. split; [|split].
  - rewrite (conv2d_call_adds_ambient_biases _ _ _ _
               (NdArray [1; 2; 2; 1] [12; 16; 24; 28]) ex_biases); by vm_compute.
  - by vm_compute.
  - by rewrite (conv2d_call_unbound_biases _ _ _ _
                  (NdArray [1; 2; 2; 1] [12; 16; 24; 28])).
Qed.

(** ** Further properties of the variants *)





(** The concrete scenario of the shape law: an image batch of shape
    (2, 28, 28, 3), a filter bank of shape (4, 4, 3, 4) and stride (1, 1) give an
    output of shape (2, 25, 25, 4), whichever variant computes it. *)
Theorem shape_law_scenario v images filters biases :
  valid_input images filters biases (1, 1) 2 28 28 3 4 4 4 1 1 →
  ∃ y, run v images filters biases (1, 1) = Ok y ∧ shape y = [2; 25; 25; 4].
Proof.
  intros Hvalid.
  destruct (run_contract v _ _ _ _ _ _ _ _ _ _ _ _ _ Hvalid) as (y & Hy & _ & Hs & _);
    [lia|].
  exists y. split; [done|]. rewrite Hs. reflexivity.
Qed.

Lemma shape_law_scenario_witness :
  ∃ y, run V2 (NdArray [2; 28; 28; 3] (replicate 4704 1))
              (NdArray [4; 4; 3; 4] (replicate 192 1)) ex_biases4 (1, 1) = Ok y ∧
       shape y = [2; 25; 25; 4].
Proof.
  apply (shape_law_scenario V2). solve_valid.
Defined.

(** A call of a variant on objects of a heap does what the function on array
    values does on the arrays they denote: it raises the same exception, or it
    returns a fresh object that denotes the same array.  No buffer that existed
    before the call is changed, so the arguments denote after the call what
    they denoted before it. *)
Theorem variants_leave_heap v h images filters biases strides :
  Store.valid h images → Store.valid h filters → Store.valid h biases →
  match run v (Store.contents h images) (Store.contents h filters)
            (Store.contents h biases) strides with
  | Ok out =>
      ∃ r h', Store.run v images filters biases strides h = Ok (r, h') ∧
              Store.contents h' r = out ∧ (length h ≤ Store.base r)%nat ∧
              Store.extends h h' ∧
              Store.contents h' images = Store.contents h images ∧
              Store.contents h' filters = Store.contents h filters ∧
              Store.contents h' biases = Store.contents h biases
  | Raise e => Store.run v images filters biases strides h = Raise e
  end.
Proof.
  intros Hi Hf Hb. pose proof (sim_run v h images filters biases strides Hi Hf Hb) as S.
  unfold Store.sim in S. destruct (run v _ _ _ strides) as [out|e]; [|done].
  destruct S as (r & h' & Hrun & He & Hbase & Hc).
  exists r, h'. split_and!; [done.. | | |]; by apply contents_extends.
Qed.

Lemma variants_leave_heap_witness :
  ∃ r h', Store.run V2 ex_images_view ex_filters_ref2 ex_biases_ref2 (1, 1) ex_heap2
            = Ok (r, h') ∧
          Store.contents h' r = NdArray [1; 2; 2; 1] [22; 26; 34; 38] ∧
          (length ex_heap2 ≤ Store.base r)%nat ∧
          Store.extends ex_heap2 h' ∧
          Store.contents h' ex_images_view = Store.contents ex_heap2 ex_images_view ∧
          Store.contents h' ex_filters_ref2 = Store.contents ex_heap2 ex_filters_ref2 ∧
          Store.contents h' ex_biases_ref2 = Store.contents ex_heap2 ex_biases_ref2.
Proof.
  apply (variants_leave_heap V2 ex_heap2 ex_images_view ex_filters_ref2 ex_biases_ref2
           (1, 1)); split; (simpl; lia) || (repeat constructor; lia).
Defined.

(** ** The per-image function, and arguments the functions do not check *)






Lemma broadcast_shapes_1_1_gen a b c :
  bc_dim a b = c → broadcast_shapes [a] [b] = (λ d, [d]) <$> c.
Proof.
  intros <-. unfold broadcast_shapes. cbn.
  destruct (bc_dim a b); reflexivity.
Qed.

(** On an empty batch the per-image functions never look at the filter bank or
    at the strides: the list of outputs is empty, [np.array([])] has shape
    (0,), and what is returned is that array plus the biases. *)
Theorem empty_batch_skips_filtering batch filters biases strides s L :
  shape batch = 0 :: s → shape biases = [L] →
  filter_images_v1 batch filters biases strides
    = (if bool_decide (L = 0 ∨ L = 1) then Ok (NdArray [0] []) else Raise ValueError) ∧
  filter_image_batch batch filters biases strides
    = filter_images_v1 batch filters biases strides.
Proof.
  intros Hb HL. split; [|reflexivity].
  unfold filter_images_v1, iterate. rewrite Hb.
  change (seqZ 0 0) with (@nil Z).
  do 3 (cbn [mapM np_array]; rewrite ?bind_Ok).
  unfold np_add, broadcast_op. cbn [shape]. rewrite HL.
  rewrite (broadcast_shapes_1_1_gen 0 L _ eq_refl). unfold bc_dim.
  destruct (Z.eqb_spec 0 L) as [<- | HL0]; [done|].
  destruct (Z.eqb_spec L 1) as [-> | HL1]; [done|].
  rewrite bool_decide_eq_false_2 by lia. done.
Qed.

Lemma empty_batch_skips_filtering_witness :
  filter_images_v1 ex_empty_batch ex_filters3 ex_biases (0, 0)
    = (if bool_decide (1 = 0 ∨ 1 = 1) then Ok (NdArray [0] []) else Raise ValueError) ∧
  filter_image_batch ex_empty_batch ex_filters3 ex_biases (0, 0)
    = filter_images_v1 ex_empty_batch ex_filters3 ex_biases (0, 0).
Proof.
  apply (empty_batch_skips_filtering ex_empty_batch ex_filters3 ex_biases (0, 0)
           [2; 2; 1] 1); reflexivity.
Defined.

Lemma resolve_nil s : resolve s [] = Ok (Keep 0 <$> s).
Proof.
  induction s as [|d s IH]; [done|]. cbn [resolve]. rewrite IH. done.
Qed.

Lemma sel_shape_keep s : sel_shape (Keep 0 <$> s) = s.
Proof. induction s as [|d s IH]; [done|]. cbn. by rewrite IH. Qed.

(** What [for image in batch] yields at step [n], for a batch of any rank. *)
Lemma iterate_Ok batch B s :
  shape batch = B :: s →
  iterate batch
  = Ok ((λ n, build s (λ idx, item batch (sel_index (Pick n :: (Keep 0 <$> s)) idx)))
          <$> seqZ 0 B).
Proof.
  intros Hs. unfold iterate. rewrite Hs. apply mapM_pure.
  intros n Hn. apply elem_of_seqZ in Hn.
  unfold getslice. rewrite Hs. cbn [resolve resolve_spec].
  rewrite check_axis_in_range by lia. cbn. rewrite resolve_nil. cbn.
  by rewrite sel_shape_keep.
Qed.

(** The per-image function stops at the first image that [filter_image]
    refuses. *)
Lemma filter_images_v1_head_Raise batch filters biases strides B s e :
  shape batch = B :: s → 1 ≤ B →
  (∀ image, shape image = s → filter_image image filters strides = Raise e) →
  filter_images_v1 batch filters biases strides = Raise e.
Proof.
  intros Hb HB Hfirst. unfold filter_images_v1.
  rewrite (iterate_Ok _ _ _ Hb), bind_Ok.
  rewrite (seqZ_cons 0 B) by lia. rewrite fmap_cons.
  apply bind_Raise. apply mapM_head_Raise. by apply Hfirst.
Qed.

Lemma filter_image_zero_stride image filters sH sW H W Ci kH kW Cf Cout :
  shape image = [H; W; Ci] → shape filters = [kH; kW; Cf; Cout] →
  sH = 0 ∨ sW = 0 →
  filter_image image filters (sH, sW) = Raise ZeroDivisionError.
Proof.
  intros Hi Hf Hz. unfold filter_image. rewrite Hi, Hf. cbn [unpack3 unpack4].
  rewrite !bind_Ok. unfold floordiv.
  destruct (Z.eqb_spec sH 0) as [-> | HsH]; [done|]. rewrite bind_Ok.
  destruct (Z.eqb_spec sW 0) as [-> | HsW]; [done|]. lia.
Qed.

(** A zero stride is refused by the floor division that computes the output
    extent, before anything is allocated: every variant raises
    ZeroDivisionError (the per-image ones on a non-empty batch). *)
Theorem zero_stride_raises images filters biases sH sW B H W Ci kH kW Cf Cout :
  shape images = [B; H; W; Ci] → shape filters = [kH; kW; Cf; Cout] →
  sH = 0 ∨ sW = 0 →
  filter_images_v2 images filters biases (sH, sW) = Raise ZeroDivisionError ∧
  filter_images_v3 images filters biases (sH, sW) = Raise ZeroDivisionError ∧
  (1 ≤ B →
   filter_images_v1 images filters biases (sH, sW) = Raise ZeroDivisionError ∧
   filter_image_batch images filters biases (sH, sW) = Raise ZeroDivisionError).
Proof.
  intros Hi Hf Hz. split; [|split].
  - unfold filter_images_v2. rewrite Hi, Hf. cbn [unpack4]. rewrite !bind_Ok.
    unfold floordiv.
    destruct (Z.eqb_spec sH 0) as [-> | HsH]; [done|]. rewrite bind_Ok.
    destruct (Z.eqb_spec sW 0) as [-> | HsW]; [done|]. lia.
  - unfold filter_images_v3. rewrite Hi, Hf. cbn [unpack4]. rewrite !bind_Ok.
    unfold floordiv.
    destruct (Z.eqb_spec sH 0) as [-> | HsH]; [done|]. rewrite bind_Ok.
    destruct (Z.eqb_spec sW 0) as [-> | HsW]; [done|]. lia.
  - intros HB.
    assert (H1 : filter_images_v1 images filters biases (sH, sW)
                 = Raise ZeroDivisionError).
    { apply (filter_images_v1_head_Raise _ _ _ _ B [H; W; Ci]); [done | done|].
      intros image Him. by eapply filter_image_zero_stride. }
    split; [exact H1 | exact H1].
Qed.

Lemma zero_stride_raises_witness :
  filter_images_v2 ex_images ex_filters ex_biases (1, 0) = Raise ZeroDivisionError ∧
  filter_images_v3 ex_images ex_filters ex_biases (1, 0) = Raise ZeroDivisionError ∧
  (1 ≤ 1 →
   filter_images_v1 ex_images ex_filters ex_biases (1, 0) = Raise ZeroDivisionError ∧
   filter_image_batch ex_images ex_filters ex_biases (1, 0) = Raise ZeroDivisionError).
Proof.
  apply (zero_stride_raises ex_images ex_filters ex_biases 1 0 1 3 3 1 2 2 1 1);
    [reflexivity | reflexivity | right; reflexivity].
Defined.

Lemma unpack3_Raise (s : list Z) : length s ≠ 3%nat → unpack3 s = Raise ValueError.
Proof. destruct s as [|? [|? [|? [|? ?]]]]; done. Qed.

Lemma unpack4_Raise (s : list Z) : length s ≠ 4%nat → unpack4 s = Raise ValueError.
Proof. destruct s as [|? [|? [|? [|? [|? ?]]]]]; done. Qed.

Lemma unpack3_Ok (s : list Z) : length s = 3%nat → ∃ a b c, s = [a; b; c].
Proof. destruct s as [|? [|? [|? [|? ?]]]]; try done. eauto. Qed.

Lemma unpack4_Ok (s : list Z) : length s = 4%nat → ∃ a b c d, s = [a; b; c; d].
Proof. destruct s as [|? [|? [|? [|? [|? ?]]]]]; try done. eauto. Qed.

Lemma filter_image_wrong_rank image filters strides :
  length (shape image) ≠ 3%nat ∨ length (shape filters) ≠ 4%nat →
  filter_image image filters strides = Raise ValueError.
Proof.
  intros H. unfold filter_image.
  destruct (decide (length (shape image) = 3%nat)) as [H3|H3].
  - destruct (unpack3_Ok _ H3) as (a & b & c & ->). cbn [unpack3]. rewrite bind_Ok.
    destruct H as [H|H]; [done|]. by rewrite (unpack4_Raise _ H).
  - by rewrite (unpack3_Raise _ H3).
Qed.

(** The only check the functions make on the rank of their arguments is the
    unpacking of [shape]: an image batch or a filter bank that is not 4-d
    makes every variant raise ValueError (the per-image ones on a non-empty
    batch), and a 0-d batch cannot be iterated. *)
Theorem wrong_rank_raises images filters biases strides :
  (length (shape images) ≠ 4%nat ∨ length (shape filters) ≠ 4%nat →
   filter_images_v2 images filters biases strides = Raise ValueError ∧
   filter_images_v3 images filters biases strides = Raise ValueError) ∧
  (∀ B s, shape images = B :: s → 1 ≤ B →
     length s ≠ 3%nat ∨ length (shape filters) ≠ 4%nat →
     filter_images_v1 images filters biases strides = Raise ValueError ∧
     filter_image_batch images filters biases strides = Raise ValueError) ∧
  (shape images = [] →
     filter_images_v1 images filters biases strides = Raise TypeError ∧
     filter_image_batch images filters biases strides = Raise TypeError).
Proof.
  split; [|split].
  - intros H. unfold filter_images_v2, filter_images_v3.
    destruct (decide (length (shape images) = 4%nat)) as [H4|H4].
    + destruct (unpack4_Ok _ H4) as (a & b & c & d & ->). cbn [unpack4].
      rewrite !bind_Ok. destruct H as [H|H]; [done|].
      by rewrite (unpack4_Raise _ H).
    + by rewrite (unpack4_Raise _ H4).
  - intros B s Hs HB H.
    assert (H1 : filter_images_v1 images filters biases strides = Raise ValueError).
    { apply (filter_images_v1_head_Raise _ _ _ _ B s); [done | done|].
      intros image Him. apply filter_image_wrong_rank. rewrite Him. tauto. }
    split; exact H1.
  - intros Hs.
    assert (H1 : filter_images_v1 images filters biases strides = Raise TypeError).
    { unfold filter_images_v1, iterate. by rewrite Hs. }
    split; exact H1.
Qed.

Lemma wrong_rank_raises_witness :
  filter_images_v2 ex_image ex_filters ex_biases (1, 1) = Raise ValueError ∧
  filter_images_v3 ex_image ex_filters ex_biases (1, 1) = Raise ValueError ∧
  filter_images_v1 ex_image ex_filters ex_biases (1, 1) = Raise ValueError.
Proof.
  destruct (wrong_rank_raises ex_image ex_filters ex_biases (1, 1)) as (H23 & H1 & _).
  destruct H23 as [H2 H3]; [left; cbn; lia|].
  destruct (H1 3 [3; 1]) as [H1' _]; [reflexivity | lia | left; cbn; lia|].
  exact (conj H2 (conj H3 H1')).
Defined.

(** ** How the window sums compose *)



(** Valid padding drops what does not fit: the rows and columns of the images
    past the last window are never read, so two batches that agree on the
    rows below (outH - 1) * sH + kH and the columns below
    (outW - 1) * sW + kW give the same output. *)
Theorem pixels_past_last_window_are_ignored v images1 images2 filters biases strides
    B H W Cin kH kW Cout sH sW :
  valid_input images1 filters biases strides B H W Cin kH kW Cout sH sW →
  valid_input images2 filters biases strides B H W Cin kH kW Cout sH sW →
  (v = V1 → 1 ≤ B) →
  (∀ n r c ci, 0 ≤ n < B →
     0 ≤ r < (out_extent H kH sH - 1) * sH + kH →
     0 ≤ c < (out_extent W kW sW - 1) * sW + kW → 0 ≤ ci < Cin →
     item images1 [n; r; c; ci] = item images2 [n; r; c; ci]) →
  ∃ y, run v images1 filters biases strides = Ok y ∧
       run v images2 filters biases strides = Ok y.
Proof.
  intros Hv1 Hv2 HB Hagree.
  destruct (run_contract v _ _ _ _ _ _ _ _ _ _ _ _ _ Hv1 HB)
    as (y1 & Hy1 & Hwy1 & Hs1 & Hval1).
  destruct (run_contract v _ _ _ _ _ _ _ _ _ _ _ _ _ Hv2 HB)
    as (y2 & Hy2 & Hwy2 & Hs2 & Hval2).
  destruct Hv1 as (_ & _ & _ & _ & _ & _ & _ & HsH & HsW & HkH & HkW).
  exists y1. split; [done|]. rewrite Hy2. f_equal.
  apply ndarray_ext; [done | done | congruence|].
  intros idx Hin. rewrite Hs2 in Hin.
  apply in_bounds_4_inv in Hin as (n & i & j & c & -> & Hn & Hi & Hj & Hc).
  rewrite Hval1, Hval2 by done. unfold contract. f_equal.
  apply sumZ_ext; intros dh Hdh. apply sumZ_ext; intros dw Hdw.
  apply sumZ_ext; intros ci Hci. f_equal. symmetry. apply Hagree; [done | nia | nia | done].
Qed.

Lemma pixels_past_last_window_are_ignored_witness :
  ∃ y, run V3 ex_images ex_filters ex_biases (2, 2) = Ok y ∧
       run V3 ex_images_edge ex_filters ex_biases (2, 2) = Ok y.
Proof.
  apply (pixels_past_last_window_are_ignored V3 ex_images ex_images_edge ex_filters
           ex_biases (2, 2) 1 3 3 1 2 2 1 2 2); [solve_valid | solve_valid | done |].
  intros n r c ci Hn Hr Hc Hci. change (out_extent 3 2 2) with 1 in Hr, Hc.
  assert (n = 0) as -> by lia. assert (ci = 0) as -> by lia.
  assert (r = 0 ∨ r = 1) as [-> | ->] by lia;
    (assert (c = 0 ∨ c = 1) as [-> | ->] by lia); reflexivity.
Defined.



(** ** Loops that never run: empty ranges *)

Lemma foldM_skip {A S} (body : S → A → result S) l s :
  (∀ x s', body s' x = Ok s') → foldM body l s = Ok s.
Proof.
  intros H. induction l as [|x l IH]; [done|]. simpl. by rewrite H, bind_Ok.
Qed.

Lemma py_range_empty stop step :
  step ≠ 0 → range_length 0 stop step = 0 → py_range 0 stop step = Ok [].
Proof.
  intros Hs Hl. unfold py_range. rewrite (proj2 (Z.eqb_neq step 0)) by done.
  by rewrite Hl.
Qed.

Lemma range_length_empty stop step :
  (1 ≤ step ∧ stop ≤ 0) ∨ (step < 0 ∧ 0 ≤ stop) → range_length 0 stop step = 0.
Proof.
  intros H. unfold range_length.
  destruct (Z.ltb_spec 0 step), (Z.ltb_spec 0 stop), (Z.ltb_spec stop 0); lia.
Qed.

(** When the range of window rows or of window columns is empty, the loop
    nests store nothing: what is left of each function is the allocation and,
    for the batched ones, the bias addition. *)
Lemma filter_image_no_windows image filters sH sW H W Ci kH kW Cf Cout :
  shape image = [H; W; Ci] → shape filters = [kH; kW; Cf; Cout] →
  sH ≠ 0 → sW ≠ 0 →
  range_length 0 (H - kH + 1) sH = 0 ∨ range_length 0 (W - kW + 1) sW = 0 →
  filter_image image filters (sH, sW)
  = np_zeros [out_extent H kH sH; out_extent W kW sW; Cout].
Proof.
  intros Hi Hf HsH HsW Hempty. unfold filter_image, out_extent.
  rewrite Hi, Hf. cbn [unpack3 unpack4].
  rewrite !bind_Ok, !floordiv_Ok, !bind_Ok by done.
  destruct (np_zeros _) as [y|e]; [|done]. rewrite bind_Ok.
  destruct (decide (range_length 0 (H - kH + 1) sH = 0)) as [Hr|Hr].
  - by rewrite (py_range_empty _ _ HsH Hr), bind_Ok.
  - destruct Hempty as [?|Hc]; [done|].
    destruct (py_range 0 (H - kH + 1) sH) as [rows|] eqn:E;
      [|unfold py_range in E; by rewrite (proj2 (Z.eqb_neq sH 0)) in E].
    rewrite bind_Ok. apply foldM_skip. intros [iy ix] y'.
    by rewrite (py_range_empty _ _ HsW Hc), bind_Ok.
Qed.

Lemma filter_images_v2_no_windows images filters biases sH sW B H W Ci kH kW Cf Cout :
  shape images = [B; H; W; Ci] → shape filters = [kH; kW; Cf; Cout] →
  sH ≠ 0 → sW ≠ 0 →
  range_length 0 (H - kH + 1) sH = 0 ∨ range_length 0 (W - kW + 1) sW = 0 →
  filter_images_v2 images filters biases (sH, sW)
  = np_zeros [B; out_extent H kH sH; out_extent W kW sW; Cout]
    ≫= λ y, np_iadd y biases.
Proof.
  intros Hi Hf HsH HsW Hempty. unfold filter_images_v2, out_extent.
  rewrite Hi, Hf. cbn [unpack4].
  rewrite !bind_Ok, !floordiv_Ok, !bind_Ok by done.
  destruct (np_zeros _) as [y|e]; [|done]. rewrite !bind_Ok.
  destruct (decide (range_length 0 (H - kH + 1) sH = 0)) as [Hr|Hr].
  - by rewrite (py_range_empty _ _ HsH Hr), bind_Ok.
  - destruct Hempty as [?|Hc]; [done|].
    destruct (py_range 0 (H - kH + 1) sH) as [rows|] eqn:E;
      [|unfold py_range in E; by rewrite (proj2 (Z.eqb_neq sH 0)) in E].
    rewrite bind_Ok. rewrite foldM_skip; [done|]. intros [iy ix] y'.
    by rewrite (py_range_empty _ _ HsW Hc), bind_Ok.
Qed.

Lemma filter_images_v3_no_windows images filters biases sH sW B H W Ci kH kW Cf Cout :
  shape images = [B; H; W; Ci] → shape filters = [kH; kW; Cf; Cout] →
  sH ≠ 0 → sW ≠ 0 →
  range_length 0 (H - kH + 1) sH = 0 ∨ range_length 0 (W - kW + 1) sW = 0 →
  filter_images_v3 images filters biases (sH, sW)
  = np_zeros [B; out_extent H kH sH; out_extent W kW sW; Cout]
    ≫= λ y, np_iadd y biases.
Proof.
  intros Hi Hf HsH HsW Hempty. unfold filter_images_v3, out_extent.
  rewrite Hi, Hf. cbn [unpack4].
  rewrite !bind_Ok, !floordiv_Ok, !bind_Ok by done.
  destruct (np_zeros _) as [y|e]; [|done]. rewrite !bind_Ok.
  destruct (decide (range_length 0 (H - kH + 1) sH = 0)) as [Hr|Hr].
  - by rewrite (py_range_empty _ _ HsH Hr), bind_Ok.
  - destruct Hempty as [?|Hc]; [done|].
    destruct (py_range 0 (H - kH + 1) sH) as [rows|] eqn:E;
      [|unfold py_range in E; by rewrite (proj2 (Z.eqb_neq sH 0)) in E].
    rewrite bind_Ok. rewrite foldM_skip; [done|]. intros [iy ix] y'.
    by rewrite (py_range_empty _ _ HsW Hc), bind_Ok.
Qed.

Lemma item_zeros s idx : item (NdArray s (replicate (Z.to_nat (size s)) 0)) idx = 0.
Proof.
  apply item_all_zero. intros x Hx. cbn in Hx. by apply elem_of_replicate in Hx as [-> _].
Qed.

Lemma mjoin_all_zero (ys : list ndarray) x :
  Forall (λ y, ∀ z, z ∈ data y → z = 0) ys → x ∈ mjoin (data <$> ys) → x = 0.
Proof.
  induction 1 as [|y ys Hy _ IH]; [by intros ?%elem_of_nil|].
  change (mjoin (data <$> y :: ys)) with (data y ++ mjoin (data <$> ys)).
  intros [?|?]%elem_of_app; auto.
Qed.

Lemma run_no_windows v images filters biases sH sW B H W Ci kH kW Cf Cout L :
  shape images = [B; H; W; Ci] → shape filters = [kH; kW; Cf; Cout] →
  shape biases = [L] → bc_dim Cout L = Ok Cout →
  sH ≠ 0 → sW ≠ 0 →
  range_length 0 (H - kH + 1) sH = 0 ∨ range_length 0 (W - kW + 1) sW = 0 →
  0 ≤ B → 0 ≤ out_extent H kH sH → 0 ≤ out_extent W kW sW → 0 ≤ Cout →
  (v = V1 → 1 ≤ B) →
  ∃ y, run v images filters biases (sH, sW) = Ok y ∧ wf y ∧
       shape y = [B; out_extent H kH sH; out_extent W kW sW; Cout] ∧
       ∀ n i j c, in_bounds (shape y) [n; i; j; c] →
         item y [n; i; j; c] = item biases [bc_axis L c].
Proof.
  intros Hi Hf Hb Hbc HsH HsW Hempty HB Hoh How HCout HV1.
  set (oh := out_extent H kH sH) in *. set (ow := out_extent W kW sW) in *.
  assert (Hnn3 : Forall (λ d, 0 ≤ d) [oh; ow; Cout])
    by (repeat (apply List.Forall_cons; [lia|]); apply List.Forall_nil).
  assert (Hnn : Forall (λ d, 0 ≤ d) [B; oh; ow; Cout])
    by (apply List.Forall_cons; [lia | done]).
  assert (Hbatched :
    ∃ y, (np_zeros [B; oh; ow; Cout] ≫= λ y, np_iadd y biases) = Ok y ∧ wf y ∧
         shape y = [B; oh; ow; Cout] ∧
         ∀ n i j c, in_bounds (shape y) [n; i; j; c] →
           item y [n; i; j; c] = item biases [bc_axis L c]).
  { rewrite (np_zeros_Ok _ Hnn), bind_Ok.
    rewrite (np_iadd_bias _ _ B oh ow Cout L) by done.
    eexists. split; [done|]. split; [by apply wf_build|]. split; [done|].
    intros n i j c Hin. cbn [shape build] in Hin.
    rewrite item_add_bias by done. by rewrite item_zeros. }
  destruct v; cbn [run].
  - specialize (HV1 eq_refl). unfold filter_images_v1.
    rewrite (iterate_batch _ _ _ _ _ Hi), bind_Ok.
    set (z := NdArray [oh; ow; Cout] (replicate (Z.to_nat (size [oh; ow; Cout])) 0)).
    rewrite (mapM_pure _ (λ _, z)).
    2:{ intros image (n & -> & Hn)%list_elem_of_fmap.
        rewrite (filter_image_no_windows _ _ _ _ H W Ci kH kW Cf Cout); try done.
        by apply np_zeros_Ok. }
    rewrite bind_Ok, <- list_fmap_compose.
    rewrite (seqZ_cons 0 B) by lia. rewrite fmap_cons.
    rewrite (np_array_Ok _ _ [oh; ow; Cout]).
    2:{ apply Forall_forall. intros a Ha. rewrite <- fmap_cons in Ha.
        by apply list_elem_of_fmap in Ha as (? & -> & _). }
    rewrite bind_Ok, <- fmap_cons, <- (seqZ_cons 0 B) by lia.
    rewrite length_fmap, length_seqZ, Z2Nat.id by lia.
    unfold np_add, broadcast_op. cbn [shape]. rewrite Hb.
    rewrite (broadcast_shapes_4_1 _ _ _ _ _ _ Hbc), bind_Ok.
    eexists. split; [done|]. split; [by apply wf_build|]. split; [done|].
    intros n i j c Hin. cbn [shape build] in Hin.
    rewrite item_add_bias by done. rewrite item_all_zero; [done|].
    intros x Hx. cbn [data] in Hx. apply mjoin_all_zero in Hx; [done|].
    apply Forall_forall. intros a (? & -> & _)%list_elem_of_fmap.
    intros z0 Hz0. cbn in Hz0. by apply elem_of_replicate in Hz0 as [-> _].
  - by rewrite (filter_images_v2_no_windows _ _ _ _ _ B H W Ci kH kW Cf Cout).
  - by rewrite (filter_images_v3_no_windows _ _ _ _ _ B H W Ci kH kW Cf Cout).
Qed.

Lemma zero_extent_range x k s :
  1 ≤ s → out_extent x k s = 0 → range_length 0 (x - k + 1) s = 0.
Proof.
  intros Hs He. apply range_length_empty. left. split; [done|].
  unfold out_extent in He.
  pose proof (Z.mul_div_le (x - k) s ltac:(lia)).
  pose proof (Z.mul_succ_div_gt (x - k) s ltac:(lia)). nia.
Qed.

(** A filter that exceeds the image by at most one stride is not refused: the
    output extent is 0, no window is visited, and every variant returns the
    empty array of the shape the shape law gives (the per-image one on a
    non-empty batch).  The input-channel counts need not even agree. *)
Theorem zero_extent_gives_empty_output images filters biases sH sW B H W Ci kH kW Cf Cout :
  shape images = [B; H; W; Ci] → shape filters = [kH; kW; Cf; Cout] →
  shape biases = [Cout] → 0 ≤ B → 0 ≤ Cout → 1 ≤ sH → 1 ≤ sW →
  (out_extent H kH sH = 0 ∧ 0 ≤ out_extent W kW sW) ∨
  (0 ≤ out_extent H kH sH ∧ out_extent W kW sW = 0) →
  run V2 images filters biases (sH, sW)
    = Ok (NdArray [B; out_extent H kH sH; out_extent W kW sW; Cout] []) ∧
  run V3 images filters biases (sH, sW)
    = Ok (NdArray [B; out_extent H kH sH; out_extent W kW sW; Cout] []) ∧
  (1 ≤ B →
   run V1 images filters biases (sH, sW)
    = Ok (NdArray [B; out_extent H kH sH; out_extent W kW sW; Cout] [])).
Proof.
  intros Hi Hf Hb HB HCout HsH HsW Hz.
  assert (Hempty : range_length 0 (H - kH + 1) sH = 0 ∨
                   range_length 0 (W - kW + 1) sW = 0).
  { destruct Hz as [[Hz _] | [_ Hz]]; [left | right]; by apply zero_extent_range. }
  assert (Hsize : size [B; out_extent H kH sH; out_extent W kW sW; Cout] = 0).
  { cbn. destruct Hz as [[-> _] | [_ ->]]; lia. }
  assert (Hall : ∀ v, (v = V1 → 1 ≤ B) →
            run v images filters biases (sH, sW)
            = Ok (NdArray [B; out_extent H kH sH; out_extent W kW sW; Cout] [])).
  { intros v Hv.
    destruct (run_no_windows v images filters biases sH sW B H W Ci kH kW Cf Cout Cout)
      as (y & -> & Hwy & Hs & _); try done; [apply bc_dim_same | lia..|].
    f_equal. destruct y as [s d]. cbn in Hs. subst s. f_equal.
    by apply (wf_empty _ Hwy). }
  split; [|split].
  - by apply Hall.
  - by apply Hall.
  - intros ?. by apply Hall.
Qed.

Lemma zero_extent_gives_empty_output_witness :
  run V2 ex_small ex_filters3 ex_biases (1, 1)
    = Ok (NdArray [1; out_extent 2 3 1; out_extent 2 3 1; 1] []) ∧
  run V3 ex_small ex_filters3 ex_biases (1, 1)
    = Ok (NdArray [1; out_extent 2 3 1; out_extent 2 3 1; 1] []) ∧
  (1 ≤ 1 →
   run V1 ex_small ex_filters3 ex_biases (1, 1)
    = Ok (NdArray [1; out_extent 2 3 1; out_extent 2 3 1; 1] [])).
Proof.
  apply (zero_extent_gives_empty_output ex_small ex_filters3 ex_biases 1 1
           1 2 2 1 3 3 1 1);
    [reflexivity | reflexivity | reflexivity | lia | lia | lia | lia
    | left; split; [reflexivity | vm_compute; discriminate]].
Defined.

(** A negative stride is not refused either.  When the window fits, the range
    of window positions along that axis is empty, so no window is visited:
    if the output shape is accepted, every element of the output is just the
    bias of its channel, whatever the images and the filters hold. *)
Theorem negative_stride_gives_bias_only v images filters biases sH sW
    B H W Ci kH kW Cf Cout :
  shape images = [B; H; W; Ci] → shape filters = [kH; kW; Cf; Cout] →
  shape biases = [Cout] → 0 ≤ B → 0 ≤ Cout → sH ≠ 0 → sW ≠ 0 →
  (sH < 0 ∧ kH ≤ H) ∨ (sW < 0 ∧ kW ≤ W) →
  0 ≤ out_extent H kH sH → 0 ≤ out_extent W kW sW →
  (v = V1 → 1 ≤ B) →
  ∃ y, run v images filters biases (sH, sW) = Ok y ∧
       shape y = [B; out_extent H kH sH; out_extent W kW sW; Cout] ∧
       ∀ n i j c, 0 ≤ n < B → 0 ≤ i < out_extent H kH sH →
         0 ≤ j < out_extent W kW sW → 0 ≤ c < Cout →
         item y [n; i; j; c] = item biases [c].
Proof.
  intros Hi Hf Hb HB HCout HsH HsW Hneg Hoh How Hv.
  destruct (run_no_windows v images filters biases sH sW B H W Ci kH kW Cf Cout Cout)
    as (y & Hy & Hwy & Hs & Hval); try done; [apply bc_dim_same | |].
  { destruct Hneg as [[? ?] | [? ?]]; [left | right];
      apply range_length_empty; right; lia. }
  exists y. split; [done|]. split; [done|].
  intros n i j c Hn Hi' Hj Hc.
  rewrite Hval by (rewrite Hs; solve_in_bounds). by rewrite bc_axis_id.
Qed.

Lemma negative_stride_gives_bias_only_witness :
  ∃ y, run V2 ex_small ex_filters ex_biases (-1, -1) = Ok y ∧
       shape y = [1; out_extent 2 2 (-1); out_extent 2 2 (-1); 1] ∧
       ∀ n i j c, 0 ≤ n < 1 → 0 ≤ i < out_extent 2 2 (-1) →
         0 ≤ j < out_extent 2 2 (-1) → 0 ≤ c < 1 →
         item y [n; i; j; c] = item ex_biases [c].
Proof.
  apply (negative_stride_gives_bias_only V2 ex_small ex_filters ex_biases (-1) (-1)
           1 2 2 1 2 2 1 1);
    [reflexivity | reflexivity | reflexivity | lia | lia | lia | lia
    | left; lia | vm_compute; discriminate | vm_compute; discriminate | done].
Defined.

(** ** Channel counts and bias lengths that differ *)







(** ** [filter_image] on the heap *)

(** [filter_image], called on array objects of a heap, does what the function
    on array values does on the arrays they denote, returns a fresh object,
    and changes no buffer that existed before the call: the chunk and the
    filter slices it takes are views that are only read. *)
Theorem filter_image_leaves_heap h image filters strides :
  Store.valid h image → Store.valid h filters →
  match filter_image (Store.contents h image) (Store.contents h filters) strides with
  | Ok out =>
      ∃ r h', Store.filter_image image filters strides h = Ok (r, h') ∧
              Store.contents h' r = out ∧ (length h ≤ Store.base r)%nat ∧
              Store.extends h h' ∧
              Store.contents h' image = Store.contents h image ∧
              Store.contents h' filters = Store.contents h filters
  | Raise e => Store.filter_image image filters strides h = Raise e
  end.
Proof.
  intros Hi Hf. pose proof (sim_filter_image h image filters strides Hi Hf) as S.
  unfold Store.sim in S. destruct (filter_image _ _ strides) as [out|e]; [|done].
  destruct S as (r & h' & Hrun & He & Hbase & _ & Hc & _).
  exists r, h'. split_and!; [done.. | |]; by apply contents_extends.
Qed.

Lemma filter_image_leaves_heap_witness :
  ∃ r h', Store.filter_image ex_image_view ex_filters_ref (1, 1) ex_heap = Ok (r, h') ∧
          Store.contents h' r = NdArray [2; 2; 1] [12; 16; 24; 28] ∧
          (length ex_heap ≤ Store.base r)%nat ∧
          Store.extends ex_heap h' ∧
          Store.contents h' ex_image_view = Store.contents ex_heap ex_image_view ∧
          Store.contents h' ex_filters_ref = Store.contents ex_heap ex_filters_ref.
Proof.
  apply (filter_image_leaves_heap ex_heap ex_image_view ex_filters_ref (1, 1));
    split; (simpl; lia) || (repeat constructor; lia).
Defined.

(** ** The layer object: constructor and pytree round trip *)

Lemma elem_of_param_names (k : string) :
  k ∈ ({[ "biases"; "filters" ]} : gset string) ↔ k = "biases" ∨ k = "filters".
Proof. by rewrite elem_of_union, !elem_of_singleton. Qed.

Lemma metadata_lookup (self : gmap string Layer.value) k :
  k ≠ "biases" → k ≠ "filters" →
  filter (λ kv, kv.1 ∉ ({[ "biases"; "filters" ]} : gset string)) self !! k = self !! k.
Proof.
  intros Hb Hf. destruct (self !! k) as [v|] eqn:E.
  - apply map_lookup_filter_Some. split; [done|]. cbn.
    rewrite elem_of_param_names. tauto.
  - apply map_lookup_filter_None. left. done.
Qed.

Lemma metadata_lookup_param (self : gmap string Layer.value) k :
  k = "biases" ∨ k = "filters" →
  filter (λ kv, kv.1 ∉ ({[ "biases"; "filters" ]} : gset string)) self !! k = None.
Proof.
  intros Hk. apply map_lookup_filter_None. right. intros v _. cbn.
  rewrite elem_of_param_names. tauto.
Qed.

Lemma elem_of_metadata_names (k : string) :
  k ∈ Layer.metadata_names ↔
  k = "input_channels" ∨ k = "output_channels" ∨ k = "filter_shape" ∨
  k = "strides" ∨ k = "padding" ∨ k = "seed".
Proof.
  unfold Layer.metadata_names. rewrite !elem_of_union, !elem_of_singleton. tauto.
Qed.

Lemma elem_of_layer_names (k : string) :
  k ∈ Layer.layer_names ↔
  k ∈ Layer.metadata_names ∨ k = "filters" ∨ k = "biases".
Proof.
  unfold Layer.layer_names. rewrite !elem_of_union, !elem_of_singleton. tauto.
Qed.

Lemma elem_of_parameters (k : string) :
  k ∈ Layer.parameters ↔ k ∈ Layer.metadata_names ∨ k = "build".
Proof.
  rewrite elem_of_metadata_names.
  unfold Layer.parameters. rewrite !elem_of_union, !elem_of_singleton. tauto.
Qed.

Lemma bind_arguments_guard (kwargs : gmap string Layer.value) :
  dom kwargs ⊆ Layer.metadata_names →
  bool_decide (dom kwargs ⊆ Layer.parameters ∧ "build" ∉ dom kwargs) = true.
Proof.
  intros H. apply bool_decide_eq_true_2. split.
  - intros k Hk. apply elem_of_parameters. left. by apply H.
  - intros Hb%H%elem_of_metadata_names. by repeat destruct Hb as [Hb|Hb].
Qed.

Lemma dom_lookup (m : gmap string Layer.value) (X : gset string) k :
  dom m = X → k ∈ X → ∃ v, m !! k = Some v.
Proof. intros <- Hk. by apply elem_of_dom in Hk as [v ?]; eauto. Qed.

Lemma round_trip_of_dom draw (self : gmap string Layer.value) :
  dom self = Layer.layer_names →
  ∃ params metadata,
    Layer.tree_flatten self = Layer.Return (params, metadata) ∧
    Layer.tree_unflatten draw metadata params = Layer.Return self.
Proof.
  intros Hdom.
  destruct (dom_lookup self _ "filters" Hdom) as [f Hf];
    [apply elem_of_layer_names; auto|].
  destruct (dom_lookup self _ "biases" Hdom) as [b Hb];
    [apply elem_of_layer_names; auto|].
  destruct (dom_lookup self _ "input_channels" Hdom) as [ic Hic];
    [apply elem_of_layer_names; left; apply elem_of_metadata_names; auto 10|].
  destruct (dom_lookup self _ "output_channels" Hdom) as [oc Hoc];
    [apply elem_of_layer_names; left; apply elem_of_metadata_names; auto 10|].
  destruct (dom_lookup self _ "filter_shape" Hdom) as [fs Hfs];
    [apply elem_of_layer_names; left; apply elem_of_metadata_names; auto 10|].
  destruct (dom_lookup self _ "strides" Hdom) as [st Hst];
    [apply elem_of_layer_names; left; apply elem_of_metadata_names; auto 10|].
  destruct (dom_lookup self _ "padding" Hdom) as [pd Hpd];
    [apply elem_of_layer_names; left; apply elem_of_metadata_names; auto 10|].
  destruct (dom_lookup self _ "seed" Hdom) as [sd Hsd];
    [apply elem_of_layer_names; left; apply elem_of_metadata_names; auto 10|].
  unfold Layer.tree_flatten, Layer.getattr. rewrite Hf, Hb. cbn.
  eexists _, _. split; [done|].
  unfold Layer.tree_unflatten, Layer.init, Layer.bind_arguments.
  rewrite bind_arguments_guard.
  2:{ intros k [v Hk]%elem_of_dom. apply map_lookup_filter_Some in Hk as [Hk Hn].
      cbn in Hn. rewrite elem_of_param_names in Hn.
      assert (Hin : k ∈ Layer.layer_names) by (rewrite <- Hdom; by apply elem_of_dom).
      apply elem_of_layer_names in Hin. tauto. }
  rewrite !metadata_lookup by done. rewrite Hic, Hoc, Hfs, Hst, Hpd, Hsd. cbn.
  f_equal. apply map_eq. intros k. by_name k.
  rewrite lookup_empty. symmetry. apply not_elem_of_dom. rewrite Hdom.
  rewrite elem_of_layer_names, elem_of_metadata_names. tauto.
Qed.

(** A layer with exactly the attributes of a constructed layer survives
    [tree_flatten] followed by [tree_unflatten] unchanged. *)
Theorem tree_round_trip draw (self : gmap string Layer.value) :
  dom self = Layer.layer_names →
  ∃ params metadata,
    Layer.tree_flatten self = Layer.Return (params, metadata) ∧
    Layer.tree_unflatten draw metadata params = Layer.Return self.
Proof. apply round_trip_of_dom. Qed.

Lemma tree_flatten_Return (self : gmap string Layer.value) params metadata :
  Layer.tree_flatten self = Layer.Return (params, metadata) →
  metadata = filter (λ kv, kv.1 ∉ ({[ "biases"; "filters" ]} : gset string)) self.
Proof.
  unfold Layer.tree_flatten, Layer.getattr.
  destruct (self !! "filters"); [|done]. destruct (self !! "biases"); [|done].
  cbn. by intros [= _ <-].
Qed.

Lemma tree_round_trip_witness :
  ∃ params metadata,
    Layer.tree_flatten ex_object = Layer.Return (params, metadata) ∧
    Layer.tree_unflatten ex_draw metadata params = Layer.Return ex_object.
Proof.
  apply (tree_round_trip ex_draw ex_object). by vm_compute.
Defined.

Lemma tree_unflatten_TypeError draw (metadata : gmap string Layer.value) params :
  Layer.bind_arguments metadata = Layer.Throw (Layer.Builtin TypeError) →
  Layer.tree_unflatten draw metadata params = Layer.Throw (Layer.Builtin TypeError).
Proof. intros H. unfold Layer.tree_unflatten, Layer.init. by rewrite H. Qed.

(** [tree_unflatten] rebuilds the layer with [cls( **metadata, build=False)],
    so the round trip is refused with a TypeError as soon as the layer carries
    an attribute that is not a constructor argument, or lacks
    [input_channels] or [output_channels]. *)
Theorem foreign_attribute_breaks_round_trip draw (self : gmap string Layer.value)
    params metadata :
  Layer.tree_flatten self = Layer.Return (params, metadata) →
  (∃ k, k ∈ dom self ∧ k ∉ Layer.layer_names) ∨
  "input_channels" ∉ dom self ∨ "output_channels" ∉ dom self →
  Layer.tree_unflatten draw metadata params = Layer.Throw (Layer.Builtin TypeError).
Proof.
  intros Hflat%tree_flatten_Return Hbad. subst metadata.
  apply tree_unflatten_TypeError. unfold Layer.bind_arguments.
  destruct Hbad as [(k & [v Hk]%elem_of_dom & Hnot) | Hmissing].
  - rewrite bool_decide_eq_false_2; [done|]. intros [Hsub Hbuild].
    rewrite elem_of_layer_names in Hnot.
    assert (Hmd : filter (λ kv, kv.1 ∉ ({[ "biases"; "filters" ]} : gset string)) self
                    !! k = Some v) by (rewrite metadata_lookup; [done | tauto..]).
    assert (Hin : k ∈ Layer.parameters) by (apply Hsub, elem_of_dom; eauto).
    apply elem_of_parameters in Hin as [Hin | ->]; [tauto|].
    apply Hbuild, elem_of_dom. eauto.
  - destruct (bool_decide _); [|done].
    rewrite !metadata_lookup by done.
    destruct Hmissing as [->%not_elem_of_dom | ->%not_elem_of_dom]; [done|].
    by destruct (self !! "input_channels").
Qed.

Lemma foreign_attribute_breaks_round_trip_witness :
  Layer.tree_unflatten ex_draw
    (<["name" := Layer.Str "conv1"]> ex_metadata)
    [Layer.Array ex_filters; Layer.Array ex_biases]
  = Layer.Throw (Layer.Builtin TypeError).
Proof.
  apply (foreign_attribute_breaks_round_trip ex_draw
           (<["name" := Layer.Str "conv1"]> ex_object)).
  - by vm_compute.
  - left. exists "name". split; by vm_compute.
Defined.

Lemma dom_init_fields (a : Layer.arguments) :
  dom (<["seed" := Layer.seed a]> (<["padding" := Layer.padding a]>
       (<["strides" := Layer.strides a]> (<["filter_shape" := Layer.filter_shape a]>
       (<["output_channels" := Layer.output_channels a]>
       (<["input_channels" := Layer.input_channels a]>
          (∅ : gmap string Layer.value)))))))
  = Layer.metadata_names.
Proof.
  apply set_eq. intros k.
  rewrite !dom_insert, dom_empty, elem_of_metadata_names, !elem_of_union,
    !elem_of_singleton, elem_of_empty. tauto.
Qed.

Lemma bind_arguments_complete (metadata : gmap string Layer.value) :
  dom metadata = Layer.metadata_names →
  ∃ ic oc fs st pd sd,
    metadata !! "input_channels" = Some ic ∧ metadata !! "output_channels" = Some oc ∧
    metadata !! "filter_shape" = Some fs ∧ metadata !! "strides" = Some st ∧
    metadata !! "padding" = Some pd ∧ metadata !! "seed" = Some sd ∧
    Layer.bind_arguments metadata = Layer.Return (Layer.Bound ic oc fs st pd sd).
Proof.
  intros Hdom.
  destruct (dom_lookup metadata _ "input_channels" Hdom) as [ic Hic];
    [apply elem_of_metadata_names; auto 10|].
  destruct (dom_lookup metadata _ "output_channels" Hdom) as [oc Hoc];
    [apply elem_of_metadata_names; auto 10|].
  destruct (dom_lookup metadata _ "filter_shape" Hdom) as [fs Hfs];
    [apply elem_of_metadata_names; auto 10|].
  destruct (dom_lookup metadata _ "strides" Hdom) as [st Hst];
    [apply elem_of_metadata_names; auto 10|].
  destruct (dom_lookup metadata _ "padding" Hdom) as [pd Hpd];
    [apply elem_of_metadata_names; auto 10|].
  destruct (dom_lookup metadata _ "seed" Hdom) as [sd Hsd];
    [apply elem_of_metadata_names; auto 10|].
  exists ic, oc, fs, st, pd, sd. split_and!; try done.
  unfold Layer.bind_arguments. rewrite bind_arguments_guard by by rewrite Hdom.
  by rewrite Hic, Hoc, Hfs, Hst, Hpd, Hsd.
Qed.

(** [tree_unflatten] on the metadata of a layer and two parameters gives a
    layer that [tree_flatten] takes apart into the same parameters and the
    same metadata; parameters that are not exactly two are refused with a
    ValueError. *)
Theorem tree_unflatten_flatten draw (metadata : gmap string Layer.value) params :
  dom metadata = Layer.metadata_names →
  (∀ filters biases, params = [filters; biases] →
     ∃ layer, Layer.tree_unflatten draw metadata params = Layer.Return layer ∧
              dom layer = Layer.layer_names ∧
              Layer.tree_flatten layer = Layer.Return (params, metadata)) ∧
  (length params ≠ 2%nat →
     Layer.tree_unflatten draw metadata params = Layer.Throw (Layer.Builtin ValueError)).
Proof.
  intros Hdom.
  destruct (bind_arguments_complete _ Hdom)
    as (ic & oc & fs & st & pd & sd & Hic & Hoc & Hfs & Hst & Hpd & Hsd & Hbind).
  unfold Layer.tree_unflatten, Layer.init. rewrite Hbind. cbn. split.
  - intros f b ->. eexists. split; [done|]. split.
    + apply set_eq. intros k.
      rewrite !dom_insert, dom_empty, elem_of_layer_names, elem_of_metadata_names,
        !elem_of_union, !elem_of_singleton, elem_of_empty. tauto.
    + unfold Layer.tree_flatten, Layer.getattr. simplify_map_eq. cbn.
      do 2 f_equal. apply map_eq. intros k.
      destruct (decide (k = "biases")) as [-> | Hkb];
        [rewrite metadata_lookup_param by auto; symmetry; apply not_elem_of_dom;
         rewrite Hdom, elem_of_metadata_names; intros H; by repeat destruct H as [H|H]|].
      destruct (decide (k = "filters")) as [-> | Hkf];
        [rewrite metadata_lookup_param by auto; symmetry; apply not_elem_of_dom;
         rewrite Hdom, elem_of_metadata_names; intros H; by repeat destruct H as [H|H]|].
      rewrite metadata_lookup by done. by_name k.
      rewrite lookup_empty. symmetry. apply not_elem_of_dom.
      rewrite Hdom, elem_of_metadata_names. tauto.
  - intros Hlen. by destruct params as [|? [|? [|? ?]]].
Qed.

Lemma tree_unflatten_flatten_witness :
  (∀ filters biases, [Layer.Array ex_filters; Layer.Array ex_biases] = [filters; biases] →
     ∃ layer, Layer.tree_unflatten ex_draw ex_metadata
                [Layer.Array ex_filters; Layer.Array ex_biases] = Layer.Return layer ∧
              dom layer = Layer.layer_names ∧
              Layer.tree_flatten layer
              = Layer.Return ([Layer.Array ex_filters; Layer.Array ex_biases], ex_metadata)) ∧
  (length [Layer.Array ex_filters; Layer.Array ex_biases] ≠ 2%nat →
     Layer.tree_unflatten ex_draw ex_metadata
       [Layer.Array ex_filters; Layer.Array ex_biases]
     = Layer.Throw (Layer.Builtin ValueError)).
Proof.
  apply (tree_unflatten_flatten ex_draw ex_metadata). by vm_compute.
Defined.

Lemma init_unbuilt_Return draw (kwargs self : gmap string Layer.value) :
  Layer.init draw kwargs false = Layer.Return self →
  ∃ a, Layer.bind_arguments kwargs = Layer.Return a ∧
       self = <["seed" := Layer.seed a]> (<["padding" := Layer.padding a]>
              (<["strides" := Layer.strides a]> (<["filter_shape" := Layer.filter_shape a]>
              (<["output_channels" := Layer.output_channels a]>
              (<["input_channels" := Layer.input_channels a]> ∅))))).
Proof.
  unfold Layer.init. destruct (Layer.bind_arguments kwargs) as [a|]; [|done].
  cbn. intros [= <-]. eauto.
Qed.

Lemma bind_arguments_stores (kwargs : gmap string Layer.value) a k v :
  Layer.bind_arguments kwargs = Layer.Return a → kwargs !! k = Some v →
  (<["seed" := Layer.seed a]> (<["padding" := Layer.padding a]>
   (<["strides" := Layer.strides a]> (<["filter_shape" := Layer.filter_shape a]>
   (<["output_channels" := Layer.output_channels a]>
   (<["input_channels" := Layer.input_channels a]>
      (∅ : gmap string Layer.value))))))) !! k = Some v.
Proof.
  unfold Layer.bind_arguments. intros Hbind Hk.
  destruct (bool_decide_reflect
              (dom kwargs ⊆ Layer.parameters ∧ "build" ∉ dom kwargs)) as [[Hsub Hb]|];
    [|done].
  destruct (kwargs !! "input_channels") as [ic|] eqn:Hic; [|done].
  destruct (kwargs !! "output_channels") as [oc|] eqn:Hoc; [|done].
  injection Hbind as <-. cbn.
  assert (Hin : k ∈ Layer.parameters) by (apply Hsub, elem_of_dom; eauto).
  apply elem_of_parameters in Hin as [Hin | ->];
    [|exfalso; apply Hb, elem_of_dom; eauto].
  apply elem_of_metadata_names in Hin.
  destruct Hin as [-> | [-> | [-> | [-> | [-> | ->]]]]]; simplify_map_eq; by rewrite ?Hk.
Qed.

(** A layer made with [build=False] has the six attributes of the constructor
    arguments, holding what was passed, and no parameters: [tree_flatten]
    raises AttributeError until [filters] and [biases] are assigned. *)
Theorem unbuilt_layer_has_no_parameters draw (kwargs self : gmap string Layer.value) :
  Layer.init draw kwargs false = Layer.Return self →
  dom self = Layer.metadata_names ∧
  (∀ k v, kwargs !! k = Some v → self !! k = Some v) ∧
  Layer.tree_flatten self = Layer.Throw Layer.AttributeError.
Proof.
  intros (a & Hbind & ->)%init_unbuilt_Return. split; [apply dom_init_fields|]. split.
  - intros k v. by apply bind_arguments_stores.
  - unfold Layer.tree_flatten, Layer.getattr. by simplify_map_eq.
Qed.

Lemma unbuilt_layer_has_no_parameters_witness :
  dom ex_metadata = Layer.metadata_names ∧
  (∀ k v, ex_kwargs !! k = Some v → ex_metadata !! k = Some v) ∧
  Layer.tree_flatten ex_metadata = Layer.Throw Layer.AttributeError.
Proof.
  apply (unbuilt_layer_has_no_parameters ex_draw ex_kwargs ex_metadata). by vm_compute.
Defined.

(** A layer made with [build=True] has all eight attributes, so it goes
    through [tree_flatten] and [tree_unflatten] unchanged, and still does
    after [filters] and [biases] are assigned other values, as the notebook does
    with the weights of the Keras layer. *)
Theorem built_layer_round_trips draw draw' (kwargs self : gmap string Layer.value)
    filters biases :
  Layer.init draw kwargs true = Layer.Return self →
  (∃ params metadata,
     Layer.tree_flatten self = Layer.Return (params, metadata) ∧
     Layer.tree_unflatten draw' metadata params = Layer.Return self) ∧
  (∃ metadata,
     Layer.tree_flatten (<["biases" := biases]> (<["filters" := filters]> self))
       = Layer.Return ([filters; biases], metadata) ∧
     Layer.tree_unflatten draw' metadata [filters; biases]
       = Layer.Return (<["biases" := biases]> (<["filters" := filters]> self))).
Proof.
  intros Hinit.
  assert (Hdom : dom self = Layer.layer_names).
  { unfold Layer.init in Hinit.
    destruct (Layer.bind_arguments kwargs) as [a|]; [|done]. cbn in Hinit.
    destruct (draw _ _ _ _) as [[f b]|]; [|done]. cbn in Hinit.
    injection Hinit as <-. apply set_eq. intros k.
    rewrite !dom_insert, dom_empty, elem_of_layer_names, elem_of_metadata_names,
      !elem_of_union, !elem_of_singleton, elem_of_empty. tauto. }
  split; [by apply round_trip_of_dom|].
  destruct (round_trip_of_dom draw' (<["biases" := biases]> (<["filters" := filters]> self)))
    as (params & metadata & Hflat & Hunflat).
  { apply set_eq. intros k.
    rewrite !dom_insert, Hdom, !elem_of_union, !elem_of_singleton.
    rewrite !elem_of_layer_names. tauto. }
  assert (Hparams : ∃ md, Layer.tree_flatten
            (<["biases" := biases]> (<["filters" := filters]> self))
            = Layer.Return ([filters; biases], md)).
  { unfold Layer.tree_flatten, Layer.getattr. simplify_map_eq. cbn. eauto. }
  destruct Hparams as [md Hmd]. rewrite Hmd in Hflat. injection Hflat as <- <-.
  eauto.
Qed.

Lemma built_layer_round_trips_witness :
  (∃ params metadata,
     Layer.tree_flatten ex_object = Layer.Return (params, metadata) ∧
     Layer.tree_unflatten ex_draw metadata params = Layer.Return ex_object) ∧
  (∃ metadata,
     Layer.tree_flatten (<["biases" := Layer.Array ex_biases2]>
                           (<["filters" := Layer.Array ex_filters2]> ex_object))
       = Layer.Return ([Layer.Array ex_filters2; Layer.Array ex_biases2], metadata) ∧
     Layer.tree_unflatten ex_draw metadata [Layer.Array ex_filters2; Layer.Array ex_biases2]
       = Layer.Return (<["biases" := Layer.Array ex_biases2]>
                         (<["filters" := Layer.Array ex_filters2]> ex_object))).
Proof.
  apply (built_layer_round_trips ex_draw ex_draw ex_kwargs ex_object). by vm_compute.
Defined.
